(** * Per-article extraction of Indonesian statutes: a shallow embedding of
      [main.py] and the properties of its structure detector, text
      normalizer, record builder and catalog loop.

    Python [str] values are lists of Unicode code points.  The regular
    expressions of the program are kept as syntax trees and run by a
    backtracking matcher that follows the order in which Python's [re]
    explores alternatives (leftmost match, greedy repetition, first
    alternative first). *)

From Stdlib Require Import String Ascii NArith ZArith DecimalPos Arith Bool Lia List.
Import ListNotations.

Set Implicit Arguments.

(** ** Text *)

Definition char := N.
Definition str := list char.
Bind Scope N_scope with char.

Definition LF : char := 10%N.
Definition CR : char := 13%N.
Definition TAB : char := 9%N.
Definition SP : char := 32%N.
Definition NUL : char := 0%N.
Definition HYPHEN : char := 45%N.

(** Python string literals: [py] reads the escapes [\n], [\t], [\r], [\f],
    [\0] and [\\] the way a Python literal does, every other character is
    itself. *)
Definition py_escape (c : ascii) : char :=
  match c with
  | "n"%char => LF
  | "t"%char => TAB
  | "r"%char => CR
  | "f"%char => 12%N
  | "0"%char => NUL
  | _ => N_of_ascii c
  end.

Fixpoint py (s : string) : str :=
  match s with
  | EmptyString => []
  | String c s' =>
      match c, s' with
      | "\"%char, String e s'' => py_escape e :: py s''
      | _, _ => N_of_ascii c :: py s'
      end
  end.

Definition char_eqb (a b : char) : bool := N.eqb a b.

Fixpoint str_eqb (a b : str) : bool :=
  match a, b with
  | [], [] => true
  | x :: a', y :: b' => char_eqb x y && str_eqb a' b'
  | _, _ => false
  end.

(** ** The character tables of the Python runtime (Unicode 14, CPython 3.11) *)

Definition in_range (lo hi c : char) : bool := (N.leb lo c && N.leb c hi)%bool.
Arguments in_range (lo hi c)%_N.

(** [str.isspace], which is also the class [\s] of a [str] pattern and the
    set that [str.strip] removes. *)
Definition isspace (c : char) : bool :=
  in_range 9 13 c || in_range 28 32 c || N.eqb c 133 || N.eqb c 160
  || N.eqb c 5760 || in_range 8192 8202 c || N.eqb c 8232 || N.eqb c 8233
  || N.eqb c 8239 || N.eqb c 8287 || N.eqb c 12288.

(** The line boundaries of [str.splitlines]. *)
Definition is_linebreak (c : char) : bool :=
  in_range 10 13 c || in_range 28 30 c || N.eqb c 133
  || N.eqb c 8232 || N.eqb c 8233.

(** The class [\d] of a [str] pattern: the decimal digits (category Nd).
    They come in runs of ten; [nd_runs] lists the first code point of each
    run, the mathematical digits U+1D7CE..U+1D7FF being five runs. *)
Definition nd_runs : list N :=
  [48; 1632; 1776; 1984; 2406; 2534; 2662; 2790; 2918; 3046; 3174; 3302;
   3430; 3558; 3664; 3792; 3872; 4160; 4240; 6112; 6160; 6470; 6608; 6784;
   6800; 6992; 7088; 7232; 7248; 42528; 43216; 43264; 43472; 43504; 43600;
   44016; 65296; 66720; 68912; 69734; 69872; 69942; 70096; 70384; 70736;
   70864; 71248; 71360; 71472; 71904; 72016; 72784; 73040; 73120; 92768;
   92864; 93008; 120782; 120792; 120802; 120812; 120822; 123200; 123632;
   125264; 130032]%N.

Definition isdecimal (c : char) : bool :=
  existsb (fun lo => in_range lo (lo + 9) c) nd_runs.

(** Case-insensitive comparison ([re.IGNORECASE]) of a pattern letter with a
    text character.  The pattern letters of this program are ASCII letters,
    decimal digits and the four characters that fold to an ASCII letter
    (U+0130, U+0131, U+017F, U+212A); for them two characters match exactly
    when they have the same fold key. *)
Definition fold_key (c : char) : char :=
  if in_range 65 90 c then (c + 32)%N
  else if N.eqb c 304 || N.eqb c 305 then 105%N
  else if N.eqb c 383 then 115%N
  else if N.eqb c 8490 then 107%N
  else c.

Definition ci_eq (a b : char) : bool := N.eqb (fold_key a) (fold_key b).

(** [[A-Za-z]] under [re.IGNORECASE]. *)
Definition is_letter_ci (c : char) : bool :=
  in_range 97 122 (fold_key c).

Definition ci_among (letters : string) (c : char) : bool :=
  existsb (fun l => ci_eq l c) (py letters).

(** [[IVXLCM]], [[IVXLC]] and [[0-9IVXLC]] under [re.IGNORECASE]. *)
Definition is_roman_m (c : char) : bool := ci_among "IVXLCM" c.
Definition is_roman (c : char) : bool := ci_among "IVXLC" c.
Definition is_digit_or_roman (c : char) : bool := in_range 48 57 c || is_roman c.

(** [.] without [re.DOTALL]. *)
Definition is_dot (c : char) : bool := negb (N.eqb c LF).
Definition is_hspace (c : char) : bool := N.eqb c SP || N.eqb c TAB.
Definition is_lf (c : char) : bool := N.eqb c LF.
Definition is_hyphen (c : char) : bool := N.eqb c HYPHEN.

(** ** String methods *)

Fixpoint lstrip (s : str) : str :=
  match s with
  | c :: s' => if isspace c then lstrip s' else s
  | [] => []
  end.

Definition rstrip (s : str) : str := rev (lstrip (rev s)).
Definition strip (s : str) : str := rstrip (lstrip s).

(** [s[a:b]] for [0 <= a], [0 <= b]. *)
Definition slice (s : str) (a b : nat) : str := firstn (b - a) (skipn a s).

(** [str.splitlines()]: a line boundary ends a line, [\r\n] is one boundary,
    and text that ends in a boundary has no empty last line. *)
Fixpoint splitlines (s : str) : list str :=
  match s with
  | [] => []
  | c :: s' =>
      if N.eqb c CR then
        match s' with
        | c' :: s'' => if N.eqb c' LF then [] :: splitlines s'' else [] :: splitlines s'
        | [] => [[]]
        end
      else if is_linebreak c then [] :: splitlines s'
      else match splitlines s' with
           | [] => [[c]]
           | l :: ls => (c :: l) :: ls
           end
  end.

(** [sep.join(parts)]. *)
Fixpoint join (sep : str) (parts : list str) : str :=
  match parts with
  | [] => []
  | [p] => p
  | p :: ps => p ++ sep ++ join sep ps
  end.

(** [s.replace(c, "")] for a one-character [c]. *)
Definition remove_char (c : char) (s : str) : str :=
  filter (fun x => negb (N.eqb x c)) s.

(** ** Regular expressions

    The fragment of [re] syntax the program uses: one-character classes,
    [^] and [$] under [re.MULTILINE], sequence, alternation, greedy
    repetition [{n,}] of a one-character class ([*] is [{0,}], [+] is
    [{1,}]) and numbered groups.  [x?] is [Alt x Eps]. *)

Inductive regex : Type :=
| Eps : regex
| Cls : (char -> bool) -> regex
| Bol : regex
| Eol : regex
| Seq : regex -> regex -> regex
| Alt : regex -> regex -> regex
| Rep : (char -> bool) -> nat -> regex
| Grp : nat -> regex -> regex.

Declare Scope regex_scope.
Delimit Scope regex_scope with re.
Bind Scope regex_scope with regex.
Infix ">>" := Seq (at level 61, right associativity) : regex_scope.

(** A literal compared case-insensitively, letter by letter. *)
Fixpoint lit_ci (s : str) : regex :=
  match s with
  | [] => Eps
  | c :: s' => Seq (Cls (ci_eq c)) (lit_ci s')
  end.

(** The spans of the groups that took part in a match, last bound first. *)
Definition groups := list (nat * (nat * nat)).

(** [^] holds at the start of the text and after a line feed; [$] holds at
    the end of the text and before a line feed. *)
Definition at_bol (pv : option char) : bool :=
  match pv with
  | None => true
  | Some c => N.eqb c LF
  end.

Definition at_eol (s : str) : bool :=
  match s with
  | [] => true
  | c :: _ => N.eqb c LF
  end.

Section Matcher.
Variable A : Type.

(** Greedy [{n,}]: take one more character while the class allows it, and
    give a character back each time the rest of the pattern fails. *)
Fixpoint rep (p : char -> bool) (n : nat) (pv : option char) (s : str) (i : nat)
         (k : option char -> str -> nat -> option A) : option A :=
  match s with
  | c :: s' =>
      if p c then
        match rep p (Nat.pred n) (Some c) s' (S i) k with
        | Some x => Some x
        | None => if Nat.eqb n 0 then k pv s i else None
        end
      else if Nat.eqb n 0 then k pv s i else None
  | [] => if Nat.eqb n 0 then k pv s i else None
  end.

(** [rmatch r pv s i g k]: match [r] at offset [i], where [s] is the text
    from [i] on and [pv] the character before it, then go on with [k]. *)
Fixpoint rmatch (r : regex) (pv : option char) (s : str) (i : nat) (g : groups)
         (k : option char -> str -> nat -> groups -> option A) : option A :=
  match r with
  | Eps => k pv s i g
  | Cls p =>
      match s with
      | c :: s' => if p c then k (Some c) s' (S i) g else None
      | [] => None
      end
  | Bol => if at_bol pv then k pv s i g else None
  | Eol => if at_eol s then k pv s i g else None
  | Seq r1 r2 =>
      rmatch r1 pv s i g (fun pv' s' i' g' => rmatch r2 pv' s' i' g' k)
  | Alt r1 r2 =>
      match rmatch r1 pv s i g k with
      | Some x => Some x
      | None => rmatch r2 pv s i g k
      end
  | Rep p n => rep p n pv s i (fun pv' s' i' => k pv' s' i' g)
  | Grp n r1 =>
      rmatch r1 pv s i g (fun pv' s' i' g' => k pv' s' i' ((n, (i, i')) :: g'))
  end.
End Matcher.

(** A match object: [m.start()], [m.end()] and the group spans. *)
Record Match : Type := mkMatch { m_start : nat; m_end : nat; m_groups : groups }.

Definition match_at (r : regex) (pv : option char) (s : str) (i : nat) : option Match :=
  rmatch r pv s i [] (fun _ _ e g => Some (mkMatch i e g)).

(** [pattern.match(s)]: a match that starts at offset 0. *)
Definition re_match (r : regex) (s : str) : option Match := match_at r None s 0.

(** The scan of [finditer]: the leftmost match from the current offset, then
    on from its end.  [skip] counts the characters of the last match that are
    still to be passed.  (No pattern of the program matches the empty string;
    after an empty match the scan moves one character on.) *)
Fixpoint scan (r : regex) (pv : option char) (s : str) (i : nat) (skip : nat) : list Match :=
  match skip with
  | S sk =>
      match s with
      | c :: s' => scan r (Some c) s' (S i) sk
      | [] => []
      end
  | O =>
      match match_at r pv s i with
      | Some m =>
          m :: match s with
               | c :: s' => scan r (Some c) s' (S i) (m_end m - S i)
               | [] => []
               end
      | None =>
          match s with
          | c :: s' => scan r (Some c) s' (S i) 0
          | [] => []
          end
      end
  end.

Definition finditer (r : regex) (text : str) : list Match := scan r None text 0 0.

(** [m.group(n)]: the text of the last span bound to group [n], [None] when
    the group took no part in the match. *)
Fixpoint group_span (n : nat) (g : groups) : option (nat * nat) :=
  match g with
  | [] => None
  | (n', sp) :: g' => if Nat.eqb n n' then Some sp else group_span n g'
  end.

Definition group (text : str) (m : Match) (n : nat) : option str :=
  match group_span n (m_groups m) with
  | Some (a, b) => Some (slice text a b)
  | None => None
  end.

(** [re.sub(r, repl, text)] with a replacement that has no back-reference:
    the text between the matches, with [repl] for each match. *)
Fixpoint splice (text repl : str) (from : nat) (ms : list Match) : str :=
  match ms with
  | [] => skipn from text
  | m :: ms' => slice text from (m_start m) ++ repl ++ splice text repl (m_end m) ms'
  end.

Definition re_sub (r : regex) (repl text : str) : str :=
  splice text repl 0 (finditer r text).

(** ** The patterns of the program *)

Open Scope regex_scope.

(** [(?im)^\s*Pasal\s+((\d+[A-Za-z]?)|([IVXLCM]+))\s*$] *)
Definition PASAL_ANY_RE : regex :=
  Bol >> Rep isspace 0 >> lit_ci (py "Pasal") >> Rep isspace 1 >>
  Grp 1 (Alt (Grp 2 (Rep isdecimal 1 >> Alt (Cls is_letter_ci) Eps))
             (Grp 3 (Rep is_roman_m 1))) >>
  Rep isspace 0 >> Eol.

(** The hierarchy markers: [^], [\s*], the keyword, [\s+], the label in
    group 1 ([[IVXLC]+], for Bagian [[0-9IVXLC]+]), [\s*], the rest of the
    line in group 2 and [$], under [(?im)]. *)
Definition marker_re (keyword : string) (label : char -> bool) : regex :=
  Bol >> Rep isspace 0 >> lit_ci (py keyword) >> Rep isspace 1 >>
  Grp 1 (Rep label 1) >> Rep isspace 0 >> Grp 2 (Rep is_dot 0) >> Eol.

Definition BUKU_RE : regex := marker_re "BUKU" is_roman.
Definition BAB_RE : regex := marker_re "BAB" is_roman.
Definition BAGIAN_RE : regex := marker_re "Bagian" is_digit_or_roman.

(** [(?im)^\s*Pasal\s+ + re.escape(pasal_label) + \s*$]: the header of the
    article labelled [pasal_label]. *)
Definition own_header_re (pasal_label : str) : regex :=
  Bol >> Rep isspace 0 >> lit_ci (py "Pasal") >> Rep isspace 1 >>
  lit_ci pasal_label >> Rep isspace 0 >> Eol.

(** [[ \t]+], [-\n\s*], [\n{4,}] and [[ \t]{2,}]. *)
Definition HSPACES_RE : regex := Rep is_hspace 1.
Definition HYPHEN_BREAK_RE : regex := Cls is_hyphen >> Cls is_lf >> Rep isspace 0.
Definition NEWLINES4_RE : regex := Rep is_lf 4.
Definition HSPACES2_RE : regex := Rep is_hspace 2.

Close Scope regex_scope.

(** ** Structure detection *)

(** A marker tag, [(kind, label, title)]. *)
Record Tag : Type := mkTag { tag_kind : string; tag_label : str; tag_title : str }.

(** An article block, the dict that [detect_structure] appends. *)
Record ArticleBlock : Type := mkBlock {
  pasal_number : str;
  text : str;
  buku : option Tag;
  bab : option Tag;
  bagian : option Tag
}.

(** [line_starts]: [pos] advances by [len(ln) + 1] per line. *)
Fixpoint line_starts_from (pos : nat) (lines : list str) : list nat :=
  match lines with
  | [] => []
  | ln :: lines' => pos :: line_starts_from (pos + (length ln + 1)) lines'
  end.

Definition or_empty (o : option str) : str :=
  match o with
  | Some s => s
  | None => []
  end.

(** One family of marks: for each line that the family's pattern matches,
    the start of the line and the tag read from groups 1 and 2. *)
Definition mark_of (re : regex) (kind : string) (start : nat) (ln : str)
  : list (nat * Tag) :=
  match re_match re ln with
  | Some m =>
      [(start, mkTag kind (strip (or_empty (group ln m 1)))
                          (strip (or_empty (group ln m 2))))]
  | None => []
  end.

Fixpoint marks_of (re : regex) (kind : string) (starts : list nat) (lines : list str)
  : list (nat * Tag) :=
  match starts, lines with
  | st :: starts', ln :: lines' => mark_of re kind st ln ++ marks_of re kind starts' lines'
  | _, _ => []
  end.

(** [nearest_tag]: the scan keeps the last tag whose offset is at most [idx]
    and stops at the first offset beyond it. *)
Fixpoint nearest_tag_from (prev : option Tag) (idx : nat) (marks : list (nat * Tag))
  : option Tag :=
  match marks with
  | [] => prev
  | (p, tag) :: marks' =>
      if p <=? idx then nearest_tag_from (Some tag) idx marks' else prev
  end.

Definition nearest_tag (idx : nat) (marks : list (nat * Tag)) : option Tag :=
  nearest_tag_from None idx marks.

(** Each match with the end of its block: the start of the next match, or
    the length of the text for the last one. *)
Fixpoint with_ends (ms : list Match) (len : nat) : list (Match * nat) :=
  match ms with
  | [] => []
  | m :: ms' =>
      (m, match ms' with
          | m' :: _ => m_start m'
          | [] => len
          end) :: with_ends ms' len
  end.

Definition buku_marks (full_text : str) : list (nat * Tag) :=
  let lines := splitlines full_text in
  marks_of BUKU_RE "BUKU" (line_starts_from 0 lines) lines.

Definition bab_marks (full_text : str) : list (nat * Tag) :=
  let lines := splitlines full_text in
  marks_of BAB_RE "BAB" (line_starts_from 0 lines) lines.

Definition bagian_marks (full_text : str) : list (nat * Tag) :=
  let lines := splitlines full_text in
  marks_of BAGIAN_RE "BAGIAN" (line_starts_from 0 lines) lines.

(** The body of a block: the span stripped, the lines that are the header
    of this label removed, stripped again, and every run of spaces and tabs
    made one space. *)
Definition block_body (full_text : str) (pasal_label : str) (start stop : nat) : str :=
  let body := strip (slice full_text start stop) in
  let body := strip (re_sub (own_header_re pasal_label) [] body) in
  re_sub HSPACES_RE [SP] body.

Definition block_of (full_text : str) (me : Match * nat) : ArticleBlock :=
  let (m, stop) := me in
  let start := m_start m in
  let pasal_label := strip (or_empty (group full_text m 1)) in
  {| pasal_number := pasal_label;
     text := block_body full_text pasal_label start stop;
     buku := nearest_tag start (buku_marks full_text);
     bab := nearest_tag start (bab_marks full_text);
     bagian := nearest_tag start (bagian_marks full_text) |}.

(** The loop over [enumerate(matches)]: [(start, end)] of every block. *)
Definition block_spans (full_text : str) : list (nat * nat) :=
  map (fun me => (m_start (fst me), snd me))
      (with_ends (finditer PASAL_ANY_RE full_text) (length full_text)).

Definition detect_structure (full_text : str) : list ArticleBlock :=
  map (block_of full_text)
      (with_ends (finditer PASAL_ANY_RE full_text) (length full_text)).

(** ** Minimal cleaning *)

(** [unicodedata.normalize('NFKC', t)] is a table of the Python runtime, not
    of this program.  What the development uses of it: text whose code points
    are all below 128 is already in NFKC form, and normalization does not
    create U+0000. *)
Class Unicodedata : Type := {
  normalize_NFKC : str -> str;
  NFKC_ascii : forall t, Forall (fun c => (c < 128)%N) t -> normalize_NFKC t = t;
  NFKC_nul : forall t, In NUL (normalize_NFKC t) -> In NUL t
}.

(** The steps of [minimal_clean] after the normalization, in order: rejoin
    hyphenation, trim each line on the right, join with line feeds, collapse
    four or more line feeds, collapse two or more spaces and tabs, strip. *)
Definition rejoin_hyphenation (t : str) : str := re_sub HYPHEN_BREAK_RE [] t.

Definition rstrip_lines (t : str) : str := join [LF] (map rstrip (splitlines t)).

Definition collapse_newlines (t : str) : str := re_sub NEWLINES4_RE [LF; LF] t.

Definition collapse_hspaces (t : str) : str := re_sub HSPACES2_RE [SP] t.

Definition clean_normalized (t : str) : str :=
  strip (collapse_hspaces (collapse_newlines (rstrip_lines (rejoin_hyphenation t)))).

Definition clean_text {U : Unicodedata} (t : str) : str :=
  clean_normalized (normalize_NFKC (remove_char NUL t)).

(** [minimal_clean]: [None] is returned as it is. *)
Definition minimal_clean {U : Unicodedata} (t : option str) : option str :=
  match t with
  | None => None
  | Some t => Some (clean_text t)
  end.

(** The normalization that leaves every text as it is: it agrees with NFKC on
    text below code point 128, which is all that the concrete runs below
    contain. *)
Definition ascii_unicodedata : Unicodedata.
Proof.
  refine {| normalize_NFKC := fun t => t |}; auto.
Defined.

(** ** Records *)

(** The values of a config and of an output record. *)
Inductive json : Type :=
| JNull : json
| JStr : str -> json
| JInt : Z -> json.

(** A catalog entry.  [pdf] is read with [cfg["pdf"]]; the other fields are
    read with [cfg.get], so each holds [JNull] when the key is absent. *)
Record DocumentConfig : Type := mkConfig {
  pdf : str;
  uu_code : json;
  uu_name : json;
  uu_number : json;
  year : json;
  valid_from : json;
  valid_to : json
}.

(** An output record: a dict, which keeps its keys in insertion order. *)
Definition OutputRecord := list (string * json).

Fixpoint get (key : string) (d : OutputRecord) : option json :=
  match d with
  | [] => None
  | (k, v) :: d' => if String.eqb key k then Some v else get key d'
  end.

(** Exceptions and the result of a call that may raise one. *)
Definition exn := str.

Inductive result (A : Type) : Type :=
| Ok : A -> result A
| Raise : exn -> result A.
Arguments Ok {A} _.
Arguments Raise {A} _.

(** The collaborators outside the program: the file system and the two PDF
    libraries ([None] is a page, or a document, without text). *)
Record World : Type := mkWorld {
  Path_exists : str -> bool;
  Path_name : str -> str;
  pypdf_pages : str -> result (list (option str));
  pdfminer_extract_text : str -> result (option str)
}.

Definition opt_json (o : option str) : json :=
  match o with
  | Some s => JStr s
  | None => JNull
  end.

(** [obj[1] if obj else None] on a marker tag. *)
Definition label_json (o : option Tag) : json :=
  match o with
  | Some t => JStr (tag_label t)
  | None => JNull
  end.

Section Pipeline.
Context {U : Unicodedata}.
Variable w : World.

Definition _extract_with_pypdf (pdf_path : str) : result str :=
  match pypdf_pages w pdf_path with
  | Ok pages => Ok (join [LF] (map (fun p => remove_char CR (or_empty p)) pages))
  | Raise e => Raise e
  end.

Definition _extract_with_pdfminer (pdf_path : str) : result str :=
  match pdfminer_extract_text w pdf_path with
  | Ok txt => Ok (remove_char CR (or_empty txt))
  | Raise e => Raise e
  end.

Definition read_pdf_text (pdf_path : str) : str :=
  let txt := match _extract_with_pypdf pdf_path with
             | Ok t => t
             | Raise _ => []
             end in
  if length txt <? 500 then
    match _extract_with_pdfminer pdf_path with
    | Ok alt => if length txt <? length alt then alt else txt
    | Raise _ => txt
    end
  else txt.

(** The record of one block. *)
Definition record_of (cfg : DocumentConfig) (blk : ArticleBlock) : OutputRecord :=
  let pasal := pasal_number blk in
  let cleaned := minimal_clean (Some (text blk)) in
  [ ("uu_code", uu_code cfg);
    ("uu_name", uu_name cfg);
    ("uu_number", uu_number cfg);
    ("year", year cfg);
    ("section_type", JStr (py "PASAL"));
    ("title", JStr (py "Pasal " ++ pasal)%list);
    ("pasal_number", JStr pasal);
    ("ayat_number", JNull);
    ("buku", label_json (buku blk));
    ("bab", label_json (bab blk));
    ("bagian", label_json (bagian blk));
    ("valid_from", valid_from cfg);
    ("valid_to", valid_to cfg);
    ("source_file", JStr (Path_name w (pdf cfg)));
    ("text", opt_json cleaned) ]%string.

(** The records of a text that has been read. *)
Definition records_of_text (cfg : DocumentConfig) (raw_text : str) : list OutputRecord :=
  match raw_text with
  | [] => []
  | _ :: _ =>
      match strip raw_text with
      | [] => []
      | _ :: _ => map (record_of cfg) (detect_structure raw_text)
      end
  end.

Definition build_records_per_pdf (cfg : DocumentConfig) : list OutputRecord :=
  records_of_text cfg (read_pdf_text (pdf cfg)).

(** *** The catalog loop *)

Inductive printed : Type :=
| MissingFile : str -> printed
| ErrorProcessing : str -> exn -> printed
| Wrote : str -> nat -> printed
| WroteTotal : nat -> printed.

(** The state of a run: the lines of the output file, the running total and
    what has been printed. *)
Record Run : Type := mkRun {
  out_file : list OutputRecord;
  total : nat;
  stdout : list printed
}.

Section Loop.
(** The call inside [try]: [build] stands for [build_records_per_pdf],
    raising or not. *)
Variable build : DocumentConfig -> result (list OutputRecord).

Definition main_step (st : Run) (cfg : DocumentConfig) : Run :=
  if negb (Path_exists w (pdf cfg)) then
    mkRun (out_file st) (total st) (stdout st ++ [MissingFile (pdf cfg)])
  else
    match build cfg with
    | Raise e =>
        mkRun (out_file st) (total st) (stdout st ++ [ErrorProcessing (pdf cfg) e])
    | Ok recs =>
        mkRun (out_file st ++ recs) (total st + length recs)
              (stdout st ++ [Wrote (Path_name w (pdf cfg)) (length recs)])
    end.

Definition main_loop (catalog : list DocumentConfig) : Run :=
  let st := fold_left main_step catalog (mkRun [] 0 []) in
  mkRun (out_file st) (total st) (stdout st ++ [WroteTotal (total st)]).
End Loop.

Definition main (catalog : list DocumentConfig) : Run :=
  main_loop (fun cfg => Ok (build_records_per_pdf cfg)) catalog.
End Pipeline.

(** The catalog of the program. *)
Definition catalog_entry (path code name number : string) (y : Z) (from : json)
  : DocumentConfig :=
  mkConfig (py path) (JStr (py code)) (JStr (py name)) (JStr (py number)) (JInt y)
           from JNull.

Definition PDF_FILES : list DocumentConfig :=
  [ catalog_entry "pdf/UU Nomor 1 Tahun 2023.pdf" "UU_CIPTA_KERJA_2023"
      "Undang-Undang Cipta Kerja" "UU No. 1 Tahun 2023" 2023 JNull;
    catalog_entry "pdf/UU Nomor 1 Tahun 2024.pdf" "UU_ITE_2024"
      "Undang-Undang Informasi dan Transaksi Elektronik (Perubahan 2024)"
      "UU No. 1 Tahun 2024" 2024 JNull;
    catalog_entry "pdf/UU Nomor 6 Tahun 2023.pdf" "KUHP_2023"
      "Kitab Undang-Undang Hukum Pidana (KUHP)" "UU No. 6 Tahun 2023" 2023
      (JStr (py "2023-03-31"));
    catalog_entry "pdf/UU Nomor 8 Tahun 1999.pdf" "UU_PERLINDUNGAN_KONSUMEN_1999"
      "Undang-Undang Perlindungan Konsumen" "UU No. 8 Tahun 1999" 1999 JNull;
    catalog_entry "pdf/UU Nomor 16 Tahun 2019.pdf" "UU_PERKAWINAN_2019"
      "Undang-Undang Perkawinan" "UU No. 16 Tahun 2019" 2019 JNull;
    catalog_entry "pdf/UU Nomor 27 Tahun 2022.pdf" "UU_PDP_2022"
      "Undang-Undang Perlindungan Data Pribadi" "UU No. 27 Tahun 2022" 2022 JNull;
    catalog_entry "pdf/UU Nomor 35 Tahun 2009.pdf" "UU_NARKOTIKA_2009"
      "Undang-Undang Narkotika" "UU No. 35 Tahun 2009" 2009 JNull;
    catalog_entry "pdf/UU Nomor 35 Tahun 2014.pdf" "UU_PERLINDUNGAN_ANAK_2014"
      "Undang-Undang Perlindungan Anak" "UU No. 35 Tahun 2014" 2014 JNull ].

Unset Implicit Arguments.

(** * What a match is

    [matches r pv c s'] says that [r] can match the characters [c] when the
    character before them is [pv] and the text after them is [s']. *)

Definition prev_after (pv : option char) (c : str) : option char :=
  last (map Some c) pv.

Inductive matches : regex -> option char -> str -> str -> Prop :=
| m_eps : forall pv s', matches Eps pv [] s'
| m_cls : forall (p : char -> bool) pv x s', p x = true -> matches (Cls p) pv [x] s'
| m_bol : forall pv s', at_bol pv = true -> matches Bol pv [] s'
| m_eol : forall pv s', at_eol s' = true -> matches Eol pv [] s'
| m_seq : forall r1 r2 pv c1 c2 s',
    matches r1 pv c1 (c2 ++ s') ->
    matches r2 (prev_after pv c1) c2 s' ->
    matches (Seq r1 r2) pv (c1 ++ c2) s'
| m_alt_l : forall r1 r2 pv c s', matches r1 pv c s' -> matches (Alt r1 r2) pv c s'
| m_alt_r : forall r1 r2 pv c s', matches r2 pv c s' -> matches (Alt r1 r2) pv c s'
| m_rep : forall (p : char -> bool) n pv c s',
    forallb p c = true -> n <= length c -> matches (Rep p n) pv c s'
| m_grp : forall n r pv c s', matches r pv c s' -> matches (Grp n r) pv c s'.

#[local] Hint Constructors matches : core.

Lemma prev_after_nil : forall pv, prev_after pv [] = pv.
Proof. reflexivity. Qed.

Lemma last_cons_default : forall (X : Type) (l : list X) (a d : X),
  last (a :: l) d = last l a.
Proof.
  induction l as [|b l IH]; intros a d; [reflexivity|].
  transitivity (last (b :: l) d); [reflexivity|].
  rewrite (IH b d), (IH b a). reflexivity.
Qed.

Lemma prev_after_cons : forall pv x c, prev_after pv (x :: c) = prev_after (Some x) c.
Proof.
  intros pv x c. unfold prev_after. simpl map. apply last_cons_default.
Qed.

Lemma prev_after_app : forall c1 c2 pv,
  prev_after pv (c1 ++ c2) = prev_after (prev_after pv c1) c2.
Proof.
  induction c1 as [|x c1 IH]; intros c2 pv; [reflexivity|].
  simpl. rewrite !prev_after_cons. apply IH.
Qed.

Section MatcherFacts.
Variable A : Type.

(** What the matcher finds is a match. *)
Lemma rep_sound : forall p n s pv i (k : option char -> str -> nat -> option A) x,
  rep p n pv s i k = Some x ->
  exists c s', s = c ++ s' /\ forallb p c = true /\ n <= length c /\
               k (prev_after pv c) s' (i + length c) = Some x.
Proof.
  intros p n s. revert n. induction s as [|a s IH]; intros n pv i k x H; simpl in H.
  - destruct (Nat.eqb_spec n 0); [|discriminate].
    exists [], []. simpl. rewrite Nat.add_0_r. repeat split; auto; lia.
  - assert (Hstop : (if n =? 0 then k pv (a :: s) i else None) = Some x ->
              exists c s', a :: s = c ++ s' /\ forallb p c = true /\ n <= length c /\
                           k (prev_after pv c) s' (i + length c) = Some x).
    { intros H0. destruct (Nat.eqb_spec n 0); [|discriminate].
      exists [], (a :: s). simpl. rewrite Nat.add_0_r. repeat split; auto; lia. }
    destruct (p a) eqn:Hp; [|auto].
    destruct (rep p (Nat.pred n) (Some a) s (S i) k) eqn:Hr; [|auto].
    inversion H; subst a0; clear H.
    apply IH in Hr. destruct Hr as (c & s' & -> & Hc & Hn & Hk).
    exists (a :: c), s'. simpl. rewrite Hp, Hc, prev_after_cons.
    replace (i + S (length c)) with (S i + length c) by lia.
    repeat split; auto; lia.
Qed.

Lemma rmatch_sound : forall r pv s i g (k : option char -> str -> nat -> groups -> option A) x,
  rmatch r pv s i g k = Some x ->
  exists c s' g', s = c ++ s' /\ matches r pv c s' /\
                  k (prev_after pv c) s' (i + length c) g' = Some x.
Proof.
  induction r as [|p| | |r1 IH1 r2 IH2|r1 IH1 r2 IH2|p n|n r IH];
    intros pv s i g k x H; simpl in H.
  - exists [], s, g. simpl. rewrite Nat.add_0_r. auto.
  - destruct s as [|a s]; [discriminate|]. destruct (p a) eqn:Hp; [|discriminate].
    exists [a], s, g. simpl. rewrite Nat.add_1_r. auto.
  - destruct (at_bol pv) eqn:Hb; [|discriminate].
    exists [], s, g. simpl. rewrite Nat.add_0_r. auto.
  - destruct (at_eol s) eqn:He; [|discriminate].
    exists [], s, g. simpl. rewrite Nat.add_0_r. auto.
  - apply IH1 in H. destruct H as (c1 & s1 & g1 & -> & M1 & H).
    apply IH2 in H. destruct H as (c2 & s2 & g2 & -> & M2 & H).
    exists (c1 ++ c2), s2, g2. rewrite <- app_assoc, prev_after_app, length_app.
    rewrite Nat.add_assoc. auto.
  - destruct (rmatch r1 pv s i g k) eqn:H1.
    + inversion H; subst a. apply IH1 in H1.
      destruct H1 as (c & s' & g' & -> & M & Hk). exists c, s', g'. auto.
    + apply IH2 in H. destruct H as (c & s' & g' & -> & M & Hk). exists c, s', g'. auto.
  - apply rep_sound in H. destruct H as (c & s' & -> & Hc & Hn & Hk).
    exists c, s', g. auto.
  - apply IH in H. destruct H as (c & s' & g' & -> & M & Hk).
    exists c, s', ((n, (i, i + length c)) :: g'). auto.
Qed.

(** Where there is a match whose continuation succeeds, the matcher
    succeeds (with that match or with one it tries before). *)
Lemma rep_complete : forall p n c s' pv i (k : option char -> str -> nat -> option A),
  forallb p c = true -> n <= length c ->
  k (prev_after pv c) s' (i + length c) <> None ->
  rep p n pv (c ++ s') i k <> None.
Proof.
  intros p n c. revert n. induction c as [|a c IH]; intros n s' pv i k Hc Hn Hk.
  - simpl in *. rewrite Nat.add_0_r in Hk. assert (n = 0) by lia. subst n.
    destruct s' as [|b s']; simpl; auto.
    destruct (p b); auto.
    destruct (rep p 0 (Some b) s' (S i) k); [discriminate | auto].
  - simpl in Hc. apply andb_true_iff in Hc. destruct Hc as [Hp Hc].
    simpl. rewrite Hp.
    assert (H : rep p (Nat.pred n) (Some a) (c ++ s') (S i) k <> None).
    { apply IH; auto.
      - simpl in Hn. lia.
      - rewrite prev_after_cons in Hk. simpl in Hk.
        replace (S i + length c) with (i + S (length c)) by lia. exact Hk. }
    destruct (rep p (Nat.pred n) (Some a) (c ++ s') (S i) k); [discriminate | congruence].
Qed.

Lemma rmatch_complete : forall r pv c s',
  matches r pv c s' ->
  forall i g (k : option char -> str -> nat -> groups -> option A),
  (forall g', k (prev_after pv c) s' (i + length c) g' <> None) ->
  rmatch r pv (c ++ s') i g k <> None.
Proof.
  induction 1; intros i g k Hk; simpl.
  - specialize (Hk g). simpl in Hk. rewrite Nat.add_0_r in Hk. exact Hk.
  - rewrite H. specialize (Hk g). simpl in Hk. rewrite Nat.add_1_r in Hk. exact Hk.
  - rewrite H. specialize (Hk g). simpl in Hk. rewrite Nat.add_0_r in Hk. exact Hk.
  - rewrite H. specialize (Hk g). simpl in Hk. rewrite Nat.add_0_r in Hk. exact Hk.
  - rewrite <- app_assoc. apply IHmatches1. intros g1.
    apply IHmatches2. intros g2.
    specialize (Hk g2). rewrite prev_after_app, length_app, Nat.add_assoc in Hk. exact Hk.
  - specialize (IHmatches i g k Hk).
    destruct (rmatch r1 pv (c ++ s') i g k); [discriminate | congruence].
  - destruct (rmatch r1 pv (c ++ s') i g k); [discriminate | auto].
  - apply rep_complete; auto.
  - apply IHmatches. intros g'. apply Hk.
Qed.
End MatcherFacts.

(** * The scan of [finditer] *)

Lemma match_at_sound : forall r pv s i m,
  match_at r pv s i = Some m ->
  m_start m = i /\
  exists c s', s = c ++ s' /\ matches r pv c s' /\ m_end m = i + length c.
Proof.
  intros r pv s i m H. unfold match_at in H.
  apply rmatch_sound in H. destruct H as (c & s' & g' & -> & M & H).
  inversion H; subst m; simpl. split; [reflexivity|]. exists c, s'. auto.
Qed.

Lemma match_at_complete : forall r pv c s' i,
  matches r pv c s' -> match_at r pv (c ++ s') i <> None.
Proof.
  intros r pv c s' i M. unfold match_at.
  apply rmatch_complete with (1 := M). intros g'. discriminate.
Qed.

(** The starts of the matches increase strictly, from [lo] on. *)
Fixpoint increasing_from (lo : nat) (ms : list Match) : Prop :=
  match ms with
  | [] => True
  | m :: ms' => lo <= m_start m /\ increasing_from (S (m_start m)) ms'
  end.

Lemma increasing_from_weaken : forall ms lo lo',
  lo' <= lo -> increasing_from lo ms -> increasing_from lo' ms.
Proof.
  destruct ms as [|m ms]; simpl; intros lo lo' Hle H; [exact I|].
  destruct H as [H1 H2]. split; [lia | exact H2].
Qed.

Lemma scan_increasing : forall r s pv i skip,
  increasing_from (i + skip) (scan r pv s i skip).
Proof.
  intros r s. induction s as [|c s IH]; intros pv i skip.
  - destruct skip as [|sk]; simpl; [|exact I].
    destruct (match_at r pv [] i) as [m|] eqn:Hm; simpl; [|exact I].
    apply match_at_sound in Hm. destruct Hm as [-> _]. split; [lia | exact I].
  - destruct skip as [|sk]; simpl.
    + destruct (match_at r pv (c :: s) i) as [m|] eqn:Hm; simpl.
      * apply match_at_sound in Hm. destruct Hm as [Hs _]. rewrite Hs. split; [lia|].
        apply increasing_from_weaken with (lo := S i + (m_end m - S i)); [lia | apply IH].
      * apply increasing_from_weaken with (lo := S i + 0); [lia | apply IH].
    + replace (i + S sk) with (S i + sk) by lia. apply IH.
Qed.

Lemma scan_within : forall r s pv i skip,
  Forall (fun m => m_start m <= m_end m /\ m_end m <= i + length s) (scan r pv s i skip).
Proof.
  intros r s. induction s as [|c s IH]; intros pv i skip.
  - destruct skip as [|sk]; simpl; [|constructor].
    destruct (match_at r pv [] i) as [m|] eqn:Hm; simpl; constructor; [|constructor].
    apply match_at_sound in Hm. destruct Hm as [Hs (c & s' & Hcs & _ & He)].
    symmetry in Hcs. apply app_eq_nil in Hcs. destruct Hcs as [-> ->]. simpl in *. lia.
  - assert (Hrest : forall pv' sk', Forall (fun m => m_start m <= m_end m /\
                m_end m <= i + length (c :: s)) (scan r pv' s (S i) sk')).
    { intros pv' sk'. eapply Forall_impl; [|apply IH]. simpl. intros m. lia. }
    destruct skip as [|sk]; simpl; [|apply Hrest].
    destruct (match_at r pv (c :: s) i) as [m|] eqn:Hm; simpl; [|apply Hrest].
    constructor; [|apply Hrest].
    apply match_at_sound in Hm. destruct Hm as [Hs (c' & s' & Hcs & _ & He)].
    assert (Hl : length (c :: s) = length c' + length s')
      by (rewrite Hcs, length_app; reflexivity).
    simpl in *. lia.
Qed.

(** * C1: the spans of the blocks *)

(** [tiles from stop spans]: the spans are laid end to start from [from] to
    [stop], none of them running backwards. *)
Fixpoint tiles (from stop : nat) (spans : list (nat * nat)) : Prop :=
  match spans with
  | [] => from = stop
  | (a, b) :: rest => a = from /\ a <= b /\ tiles b stop rest
  end.

Definition span_texts (full_text : str) (spans : list (nat * nat)) : list str :=
  map (fun se => slice full_text (fst se) (snd se)) spans.

Lemma firstn_plus : forall (X : Type) n m (l : list X),
  firstn (n + m) l = firstn n l ++ firstn m (skipn n l).
Proof.
  induction n as [|n IH]; intros m l; [reflexivity|].
  destruct l as [|x l]; simpl; [now rewrite firstn_nil | now rewrite IH].
Qed.

Lemma slice_app : forall (s : str) a b c,
  a <= b -> b <= c -> slice s a b ++ slice s b c = slice s a c.
Proof.
  intros s a b c Hab Hbc. unfold slice.
  replace (c - a) with ((b - a) + (c - b)) by lia.
  rewrite firstn_plus. f_equal.
  rewrite skipn_skipn. replace (b - a + a) with b by lia. reflexivity.
Qed.

Lemma slice_to_end : forall (s : str) a, slice s a (length s) = skipn a s.
Proof.
  intros s a. unfold slice. apply firstn_all2. rewrite length_skipn. lia.
Qed.

Lemma slice_empty : forall (s : str) a, slice s a a = [].
Proof. intros s a. unfold slice. rewrite Nat.sub_diag. reflexivity. Qed.

Lemma tiles_concat : forall full_text spans from stop,
  tiles from stop spans ->
  concat (span_texts full_text spans) = slice full_text from stop.
Proof.
  intros full_text spans. induction spans as [|[a b] rest IH]; intros from stop H; simpl in *.
  - subst. symmetry. apply slice_empty.
  - destruct H as (-> & Hab & H). rewrite (IH _ _ H).
    assert (Hb : forall l x y, tiles x y l -> x <= y).
    { clear. induction l as [|[a b] l IH]; simpl; intros x y H; [lia|].
      destruct H as (-> & Hab & H). apply IH in H. lia. }
    apply slice_app; [exact Hab | exact (Hb _ _ _ H)].
Qed.

Lemma with_ends_tiles : forall ms len lo,
  increasing_from lo ms ->
  Forall (fun m => m_start m <= len) ms ->
  tiles (hd len (map m_start ms)) len
        (map (fun me => (m_start (fst me), snd me)) (with_ends ms len)).
Proof.
  induction ms as [|m ms IH]; intros len lo Hinc Hb; simpl; [reflexivity|].
  destruct Hinc as [_ Hinc]. inversion Hb as [|? ? Hm Hb']; subst.
  specialize (IH len _ Hinc Hb').
  split; [reflexivity|]. destruct ms as [|m' ms]; simpl in *.
  - split; [exact Hm | reflexivity].
  - split; [lia | exact IH].
Qed.

Lemma block_spans_starts : forall full_text,
  map fst (block_spans full_text) = map m_start (finditer PASAL_ANY_RE full_text).
Proof.
  intros full_text. unfold block_spans. rewrite map_map. simpl.
  generalize (finditer PASAL_ANY_RE full_text) as ms.
  induction ms as [|m ms IH]; simpl; [reflexivity | f_equal; exact IH].
Qed.

(** C1, as amended: the spans of the blocks are contiguous and never overlap,
    each block ends where the next one begins, the last block ends at the end
    of the text, and together they are the text from the first header on.
    The text before the first header belongs to no block. *)
Theorem C1_spans_tile_from_first_header : forall full_text,
  let spans := block_spans full_text in
  let first := hd (length full_text) (map fst spans) in
  tiles first (length full_text) spans /\
  concat (span_texts full_text spans) = skipn first full_text.
Proof.
  intros full_text spans first.
  assert (T : tiles first (length full_text) spans).
  { subst first spans. rewrite block_spans_starts. unfold block_spans.
    apply with_ends_tiles with (lo := 0 + 0).
    - apply scan_increasing.
    - eapply Forall_impl; [|apply scan_within]. simpl. intros m. lia. }
  split; [exact T|].
  rewrite (tiles_concat full_text _ _ _ T). apply slice_to_end.
Qed.

(** C1, as stated, fails: the chapter heading before the first header is in
    no block. *)
Lemma C1_preamble_in_no_block :
  ~ (forall full_text,
       concat (span_texts full_text (block_spans full_text)) = full_text).
Proof.
  intros H. specialize (H (py "BAB I\nPasal 1\nisi")).
  vm_compute in H. discriminate H.
Qed.

(** * C3: the nearest marker *)

(** Offsets that increase strictly, from [lo] on. *)
Fixpoint ascending_from (lo : nat) (marks : list (nat * Tag)) : Prop :=
  match marks with
  | [] => True
  | (p, _) :: marks' => lo <= p /\ ascending_from (S p) marks'
  end.

(** [r] is the tag of the mark with the greatest offset that is at most
    [idx], and [None] when no mark has an offset that is at most [idx]. *)
Definition last_at_or_before (idx : nat) (marks : list (nat * Tag)) (r : option Tag) : Prop :=
  match r with
  | Some tag =>
      exists p, In (p, tag) marks /\ p <= idx /\
                forall p' tag', In (p', tag') marks -> p' <= idx -> p' <= p
  | None => forall p' tag', In (p', tag') marks -> idx < p'
  end.

Lemma ascending_from_lower : forall marks lo p tag,
  ascending_from lo marks -> In (p, tag) marks -> lo <= p.
Proof.
  induction marks as [|[q t] marks IH]; simpl; intros lo p tag H Hin; [contradiction|].
  destruct H as [Hq H]. destruct Hin as [E|Hin].
  - inversion E; subst. exact Hq.
  - apply (IH _ _ _ H) in Hin. lia.
Qed.

Lemma nearest_tag_from_spec : forall marks lo prev idx,
  ascending_from lo marks ->
  (nearest_tag_from prev idx marks = prev /\
   forall p' tag', In (p', tag') marks -> idx < p') \/
  (exists p tag, nearest_tag_from prev idx marks = Some tag /\
                 In (p, tag) marks /\ p <= idx /\
                 forall p' tag', In (p', tag') marks -> p' <= idx -> p' <= p).
Proof.
  induction marks as [|[q t] marks IH]; intros lo prev idx Hasc; simpl.
  - left. split; [reflexivity | intros ? ? []].
  - destruct Hasc as [Hq Hasc]. destruct (Nat.leb_spec q idx) as [Hle|Hgt].
    + right. destruct (IH (S q) (Some t) idx Hasc) as [[E Hnone]|(p & tag & E & Hin & Hp & Hmax)].
      * exists q, t. rewrite E. repeat split; auto.
        intros p' tag' [E'|Hin'] Hp'; [inversion E'; lia|].
        apply Hnone in Hin'. lia.
      * exists p, tag. rewrite E. repeat split; auto.
        intros p' tag' [E'|Hin'] Hp'; [|eauto].
        inversion E'; subst. apply (ascending_from_lower _ _ _ _ Hasc) in Hin. lia.
    + left. split; [reflexivity|].
      intros p' tag' [E'|Hin']; [inversion E'; lia|].
      apply (ascending_from_lower _ _ _ _ Hasc) in Hin'. lia.
Qed.

Lemma nearest_tag_spec : forall marks idx,
  ascending_from 0 marks -> last_at_or_before idx marks (nearest_tag idx marks).
Proof.
  intros marks idx Hasc. unfold nearest_tag.
  destruct (nearest_tag_from_spec marks 0 None idx Hasc)
    as [[E Hnone]|(p & tag & E & Hin & Hp & Hmax)]; rewrite E; simpl; eauto.
Qed.

Lemma ascending_from_weaken : forall marks lo lo',
  lo' <= lo -> ascending_from lo marks -> ascending_from lo' marks.
Proof.
  destruct marks as [|[p t] marks]; simpl; intros lo lo' Hle H; [exact I|].
  destruct H as [H1 H2]. split; [lia | exact H2].
Qed.

Lemma marks_of_ascending : forall re kind lines pos,
  ascending_from pos (marks_of re kind (line_starts_from pos lines) lines).
Proof.
  intros re kind lines. induction lines as [|ln lines IH]; intros pos; simpl; [exact I|].
  specialize (IH (pos + (length ln + 1))).
  unfold mark_of. destruct (re_match re ln); simpl.
  - split; [lia|]. eapply ascending_from_weaken; [|exact IH]. lia.
  - eapply ascending_from_weaken; [|exact IH]. lia.
Qed.


(** * C7: the record of a block *)

Definition record_keys : list string :=
  [ "uu_code"; "uu_name"; "uu_number"; "year"; "section_type"; "title";
    "pasal_number"; "ayat_number"; "buku"; "bab"; "bagian"; "valid_from";
    "valid_to"; "source_file"; "text" ]%string.

(** C7: a text that is not blank gives one record per block, in the order of
    the blocks; every record has the fifteen keys of the schema in the order
    of the schema; [section_type] is "PASAL", [title] is "Pasal " followed by
    the label, [ayat_number] is null, and [buku], [bab] and [bagian] are the
    labels of the block's tags, or null. *)
Theorem C7_record_fields : forall (U : Unicodedata) (w : World) cfg raw_text blk,
  Forall2 (fun b rec => rec = record_of w cfg b)
          (match strip raw_text with [] => [] | _ :: _ => detect_structure raw_text end)
          (records_of_text w cfg raw_text) /\
  let rec := record_of w cfg blk in
  map fst rec = record_keys /\
  get "section_type" rec = Some (JStr (py "PASAL")) /\
  get "title" rec = Some (JStr (py "Pasal " ++ pasal_number blk)) /\
  get "pasal_number" rec = Some (JStr (pasal_number blk)) /\
  get "ayat_number" rec = Some JNull /\
  get "buku" rec = Some (match buku blk with Some t => JStr (tag_label t) | None => JNull end) /\
  get "bab" rec = Some (match bab blk with Some t => JStr (tag_label t) | None => JNull end) /\
  get "bagian" rec = Some (match bagian blk with Some t => JStr (tag_label t) | None => JNull end) /\
  get "uu_code" rec = Some (uu_code cfg) /\
  get "uu_name" rec = Some (uu_name cfg) /\
  get "uu_number" rec = Some (uu_number cfg) /\
  get "year" rec = Some (year cfg) /\
  get "valid_from" rec = Some (valid_from cfg) /\
  get "valid_to" rec = Some (valid_to cfg) /\
  get "source_file" rec = Some (JStr (Path_name w (pdf cfg))).
Proof.
  intros U w cfg raw_text blk. split.
  - unfold records_of_text. destruct raw_text as [|c t]; [constructor|].
    destruct (strip (c :: t)); [constructor|].
    induction (detect_structure (c :: t)); simpl; constructor; auto.
  - cbv zeta. repeat split.
Qed.

(** * C8: the catalog loop *)

(** What one catalog entry adds to the output: nothing when its file is
    missing or when building its records raises. *)
Definition contribution (w : World) (build : DocumentConfig -> result (list OutputRecord))
           (cfg : DocumentConfig) : list OutputRecord :=
  if Path_exists w (pdf cfg) then
    match build cfg with
    | Ok recs => recs
    | Raise _ => []
    end
  else [].

Lemma main_steps : forall w build catalog st,
  let st' := fold_left (main_step w build) catalog st in
  out_file st' = out_file st ++ flat_map (contribution w build) catalog /\
  total st' = total st + length (flat_map (contribution w build) catalog) /\
  length (stdout st') = length (stdout st) + length catalog.
Proof.
  intros w build catalog. induction catalog as [|cfg catalog IH]; intros st; simpl.
  - rewrite app_nil_r. repeat split; lia.
  - specialize (IH (main_step w build st cfg)). simpl in IH.
    destruct IH as (Ho & Ht & Hl). rewrite Ho, Ht, Hl. clear Ho Ht Hl.
    unfold main_step, contribution.
    destruct (Path_exists w (pdf cfg)); simpl.
    + destruct (build cfg) as [recs|e]; simpl;
        rewrite ?length_app, ?app_assoc; simpl; repeat split; lia.
    + rewrite length_app. simpl. repeat split; lia.
Qed.


(** * C9: empty input *)

Lemma lstrip_blank : forall t, forallb isspace t = true -> lstrip t = [].
Proof.
  induction t as [|c t IH]; simpl; intros H; [reflexivity|].
  apply andb_true_iff in H. destruct H as [Hc Ht]. rewrite Hc. auto.
Qed.

Lemma strip_blank : forall t, forallb isspace t = true -> strip t = [].
Proof.
  intros t H. unfold strip. rewrite (lstrip_blank t H). reflexivity.
Qed.

(** C9: a document whose text is empty or is white space only gives no
    record, and a text in which no article header is found gives no block. *)
Theorem C9_empty_input :
  forall (U : Unicodedata) (w : World) cfg full_text,
  (forallb isspace (read_pdf_text w (pdf cfg)) = true ->
   build_records_per_pdf w cfg = []) /\
  (finditer PASAL_ANY_RE full_text = [] -> detect_structure full_text = []).
Proof.
  intros U w cfg full_text. split.
  - intros H. unfold build_records_per_pdf, records_of_text.
    rewrite (strip_blank _ H). destruct (read_pdf_text w (pdf cfg)); reflexivity.
  - intros H. unfold detect_structure. rewrite H. reflexivity.
Qed.

(** A world with one file, whose text is two blank lines. *)
Definition blank_world : World :=
  mkWorld (fun _ => true) (fun p => p)
          (fun _ => Ok [Some (py " \n"); None; Some (py "\t")])
          (fun _ => Raise (py "no pdfminer")).

Lemma C9_empty_input_witness :
  build_records_per_pdf (U := ascii_unicodedata) blank_world (hd (mkConfig [] JNull JNull JNull JNull JNull JNull) PDF_FILES) = [] /\
  detect_structure (py "Menimbang:\nbahwa Pasal 5 berlaku") = [].
Proof.
  destruct (C9_empty_input ascii_unicodedata blank_world
              (hd (mkConfig [] JNull JNull JNull JNull JNull JNull) PDF_FILES)
              (py "Menimbang:\nbahwa Pasal 5 berlaku")) as [H1 H2].
  split; [apply H1 | apply H2]; vm_compute; reflexivity.
Defined.

(** * Substitution, character by character

    [rewrite_scan] is [re.sub] written as one pass over the text: it is what
    [splice] makes of the matches that [scan] finds. *)

Definition can_match (r : regex) (pv : option char) (s : str) : Prop :=
  exists c s', s = c ++ s' /\ matches r pv c s'.

Lemma match_at_none : forall r pv s i, ~ can_match r pv s -> match_at r pv s i = None.
Proof.
  intros r pv s i H. destruct (match_at r pv s i) as [m|] eqn:Hm; [|reflexivity].
  exfalso. apply H. apply match_at_sound in Hm.
  destruct Hm as [_ (c & s' & E & M & _)]. exists c, s'. auto.
Qed.

Lemma match_at_some : forall r pv s i, can_match r pv s -> match_at r pv s i <> None.
Proof.
  intros r pv s i (c & s' & -> & M). apply match_at_complete. exact M.
Qed.

Fixpoint rewrite_scan (r : regex) (repl : str) (pv : option char) (s : str) (i skip : nat)
  : str :=
  match skip with
  | S sk =>
      match s with
      | c :: s' => rewrite_scan r repl (Some c) s' (S i) sk
      | [] => []
      end
  | O =>
      match match_at r pv s i with
      | Some m =>
          repl ++ match s with
                  | c :: s' =>
                      (if m_end m <=? i then [c] else [])
                      ++ rewrite_scan r repl (Some c) s' (S i) (m_end m - S i)
                  | [] => []
                  end
      | None =>
          match s with
          | c :: s' => c :: rewrite_scan r repl (Some c) s' (S i) 0
          | [] => []
          end
      end
  end.

Lemma skipn_step : forall (X : Type) i (l : list X) c rest,
  skipn i l = c :: rest -> skipn (S i) l = rest.
Proof.
  intros X i l c rest H. change (S i) with (1 + i).
  rewrite <- skipn_skipn, H. reflexivity.
Qed.

Lemma splice_head : forall text repl i ms c rest,
  skipn i text = c :: rest -> increasing_from (S i) ms ->
  splice text repl i ms = c :: splice text repl (S i) ms.
Proof.
  intros text repl i ms c rest H Hinc. pose proof (skipn_step _ _ _ _ _ H) as H'.
  destruct ms as [|m ms]; cbn [splice].
  - rewrite H'. exact H.
  - destruct Hinc as [Hm _]. unfold slice. rewrite H, H'.
    replace (m_start m - i) with (S (m_start m - S i)) by lia. reflexivity.
Qed.

Lemma splice_scan : forall r repl text s pv i skip,
  skipn i text = s ->
  splice text repl (i + skip) (scan r pv s i skip) = rewrite_scan r repl pv s i skip.
Proof.
  intros r repl text s. induction s as [|c s IH]; intros pv i skip Hs.
  - assert (Hall : forall j, i <= j -> skipn j text = []).
    { intros j Hj. replace j with ((j - i) + i) by lia.
      rewrite <- skipn_skipn, Hs. apply skipn_nil. }
    destruct skip as [|sk]; simpl; [|apply Hall; lia].
    destruct (match_at r pv [] i) as [m|] eqn:Hm; simpl; [|apply Hall; lia].
    apply match_at_sound in Hm. destruct Hm as [Hst (c & s' & Hcs & _ & He)].
    symmetry in Hcs. apply app_eq_nil in Hcs. destruct Hcs as [-> ->]. simpl in He.
    rewrite Hst, Nat.add_0_r, slice_empty. simpl. f_equal. apply Hall. lia.
  - pose proof (skipn_step _ _ _ _ _ Hs) as Hs'.
    destruct skip as [|sk]; simpl.
    + rewrite Nat.add_0_r.
      destruct (match_at r pv (c :: s) i) as [m|] eqn:Hm; simpl.
      * apply match_at_sound in Hm. destruct Hm as [Hst (c0 & s0 & _ & _ & He)].
        rewrite Hst, slice_empty. simpl. f_equal.
        destruct (Nat.leb_spec (m_end m) i) as [Hle|Hgt].
        -- assert (Ei : m_end m = i) by lia. rewrite Ei.
           replace (i - S i) with 0 by lia.
           rewrite (splice_head text repl i (scan r (Some c) s (S i) 0) c s Hs).
           ++ simpl. f_equal. rewrite <- (IH (Some c) (S i) 0 Hs'), Nat.add_0_r. reflexivity.
           ++ apply increasing_from_weaken with (lo := S i + 0); [lia | apply scan_increasing].
        -- simpl. rewrite <- (IH (Some c) (S i) (m_end m - S i) Hs').
           replace (S i + (m_end m - S i)) with (m_end m) by lia. reflexivity.
      * rewrite (splice_head text repl i (scan r (Some c) s (S i) 0) c s Hs).
        -- f_equal. rewrite <- (IH (Some c) (S i) 0 Hs'), Nat.add_0_r. reflexivity.
        -- apply increasing_from_weaken with (lo := S i + 0); [lia | apply scan_increasing].
    + replace (i + S sk) with (S i + sk) by lia. apply IH. exact Hs'.
Qed.

Lemma re_sub_rewrite : forall r repl text,
  re_sub r repl text = rewrite_scan r repl None text 0 0.
Proof.
  intros r repl text. unfold re_sub, finditer.
  apply (splice_scan r repl text text None 0 0). reflexivity.
Qed.

(** Passing the characters of a match, and a stretch where nothing matches. *)
Lemma rewrite_scan_skip : forall r repl a rest pv i,
  rewrite_scan r repl pv (a ++ rest) i (length a)
  = rewrite_scan r repl (prev_after pv a) rest (i + length a) 0.
Proof.
  intros r repl a. induction a as [|x a IH]; intros rest pv i.
  - simpl. rewrite Nat.add_0_r. reflexivity.
  - simpl. rewrite IH, prev_after_cons. f_equal. lia.
Qed.

Lemma rewrite_scan_pass : forall r repl a rest pv i,
  (forall a1 a2, a = a1 ++ a2 -> a2 <> [] ->
                 ~ can_match r (prev_after pv a1) (a2 ++ rest)) ->
  rewrite_scan r repl pv (a ++ rest) i 0
  = a ++ rewrite_scan r repl (prev_after pv a) rest (i + length a) 0.
Proof.
  intros r repl a. induction a as [|x a IH]; intros rest pv i H.
  - simpl. rewrite Nat.add_0_r. reflexivity.
  - simpl. rewrite match_at_none.
    + f_equal. rewrite IH.
      * rewrite prev_after_cons. f_equal. f_equal. lia.
      * intros a1 a2 E Hne. rewrite <- (prev_after_cons pv). apply H; [|exact Hne].
        rewrite E. reflexivity.
    + apply (H [] (x :: a)); [reflexivity | discriminate].
Qed.

Lemma rewrite_scan_match : forall r repl c s' pv i m,
  match_at r pv (c ++ s') i = Some m -> m_end m = i + length c -> c <> [] ->
  rewrite_scan r repl pv (c ++ s') i 0
  = repl ++ rewrite_scan r repl (prev_after pv c) s' (i + length c) 0.
Proof.
  intros r repl c s' pv i m Hm He Hne. destruct c as [|x c]; [congruence|].
  simpl in *. rewrite Hm. f_equal.
  destruct (Nat.leb_spec (m_end m) i); [lia|]. simpl.
  replace (m_end m - S i) with (length c) by lia.
  rewrite rewrite_scan_skip, prev_after_cons. f_equal. lia.
Qed.

(** Greedy repetition takes the whole run when the rest of the pattern
    accepts that. *)
Definition not_headed_by (p : char -> bool) (s : str) : Prop :=
  match s with
  | [] => True
  | y :: _ => p y = false
  end.

Lemma rep_max : forall (A : Type) p n c s' pv i (k : option char -> str -> nat -> option A) x,
  forallb p c = true -> not_headed_by p s' -> n <= length c ->
  k (prev_after pv c) s' (i + length c) = Some x ->
  rep p n pv (c ++ s') i k = Some x.
Proof.
  intros A p n c. revert n. induction c as [|a c IH]; intros n s' pv i k x Hc Hs Hn Hk.
  - simpl in *. rewrite Nat.add_0_r in Hk. replace n with 0 by lia.
    destruct s' as [|y s']; simpl; [exact Hk|]. simpl in Hs. rewrite Hs. exact Hk.
  - simpl in Hc. apply andb_true_iff in Hc. destruct Hc as [Hp Hc].
    simpl. rewrite Hp. rewrite (IH (Nat.pred n) s' (Some a) (S i) k x); auto.
    + simpl in Hn. lia.
    + rewrite prev_after_cons in Hk. simpl in Hk.
      replace (S i + length c) with (i + S (length c)) by lia. exact Hk.
Qed.

Lemma match_at_rep : forall p n c s' pv i,
  forallb p c = true -> not_headed_by p s' -> n <= length c ->
  match_at (Rep p n) pv (c ++ s') i = Some (mkMatch i (i + length c) []).
Proof.
  intros p n c s' pv i Hc Hs Hn. unfold match_at. simpl.
  apply rep_max; auto.
Qed.

Lemma can_match_rep : forall p n pv s,
  can_match (Rep p n) pv s ->
  exists c s', s = c ++ s' /\ forallb p c = true /\ n <= length c.
Proof.
  intros p n pv s (c & s' & E & M). inversion M; subst. exists c, s'. auto.
Qed.

Lemma max_run : forall (p : char -> bool) s,
  exists run rest, s = run ++ rest /\ forallb p run = true /\ not_headed_by p rest.
Proof.
  intros p s. induction s as [|x s IH].
  - exists [], []. simpl. auto.
  - destruct (p x) eqn:Hp.
    + destruct IH as (run & rest & -> & Hr & Hh).
      exists (x :: run), rest. simpl. rewrite Hp. auto.
    + exists [], (x :: s). simpl. auto.
Qed.

(** * Collapsing runs

    [squeeze_runs p n repl [] s] replaces every maximal run of [n] or more
    characters of the class [p] with [repl] and keeps the shorter runs: this
    is what substituting for [p{n,}] does. *)

Definition flush (n : nat) (repl run : str) : str :=
  if n <=? length run then repl else run.

Fixpoint squeeze_runs (p : char -> bool) (n : nat) (repl run s : str) : str :=
  match s with
  | [] => flush n repl run
  | x :: s' =>
      if p x then squeeze_runs p n repl (run ++ [x]) s'
      else flush n repl run ++ x :: squeeze_runs p n repl [] s'
  end.

Lemma squeeze_runs_app : forall p n repl c run s,
  forallb p c = true ->
  squeeze_runs p n repl run (c ++ s) = squeeze_runs p n repl (run ++ c) s.
Proof.
  intros p n repl c. induction c as [|x c IH]; intros run s Hc; simpl.
  - rewrite app_nil_r. reflexivity.
  - simpl in Hc. apply andb_true_iff in Hc. destruct Hc as [Hx Hc].
    rewrite Hx, IH, <- app_assoc by exact Hc. reflexivity.
Qed.

Lemma squeeze_runs_stop : forall p n repl run s,
  1 <= n -> not_headed_by p s ->
  squeeze_runs p n repl run s = flush n repl run ++ squeeze_runs p n repl [] s.
Proof.
  intros p n repl run s Hn Hs.
  assert (F : flush n repl [] = []).
  { unfold flush. simpl. destruct (Nat.leb_spec n 0); [lia | reflexivity]. }
  destruct s as [|x s]; simpl.
  - rewrite F, app_nil_r. reflexivity.
  - simpl in Hs. rewrite Hs, F. reflexivity.
Qed.

Lemma app_eq_longer : forall (X : Type) (a b c d : list X),
  a ++ b = c ++ d -> length a < length c ->
  exists y b' c', b = y :: b' /\ c = a ++ y :: c'.
Proof.
  intros X a. induction a as [|x a IH]; intros b c d E Hl.
  - destruct c as [|y c]; [simpl in Hl; lia|].
    simpl in E. exists y, (c ++ d), c. auto.
  - destruct c as [|y c]; [simpl in Hl; lia|].
    simpl in E. inversion E; subst. simpl in Hl.
    destruct (IH b c d H1) as (z & b' & c' & -> & ->); [lia|].
    exists z, b', c'. auto.
Qed.

Lemma no_rep_in_short_run : forall p n pv a2 rest,
  forallb p a2 = true -> length a2 < n -> not_headed_by p rest ->
  ~ can_match (Rep p n) pv (a2 ++ rest).
Proof.
  intros p n pv a2 rest Ha Hl Hr H.
  apply can_match_rep in H. destruct H as (c & s' & E & Hc & Hn).
  destruct (app_eq_longer _ _ _ _ _ E) as (y & b' & c' & -> & ->); [lia|].
  rewrite forallb_app in Hc. apply andb_true_iff in Hc. destruct Hc as [_ Hc].
  simpl in Hc, Hr. rewrite Hr in Hc. discriminate.
Qed.

Lemma rewrite_scan_rep : forall p n repl, 1 <= n ->
  forall len s, length s <= len ->
  forall pv i, rewrite_scan (Rep p n) repl pv s i 0 = squeeze_runs p n repl [] s.
Proof.
  intros p n repl Hn len. induction len as [|len IH]; intros s Hlen pv i.
  - destruct s; [|simpl in Hlen; lia]. simpl.
    rewrite match_at_none.
    + unfold flush. simpl. destruct (Nat.leb_spec n 0); [lia | reflexivity].
    + apply (no_rep_in_short_run p n pv [] []); simpl; auto.
  - destruct (max_run p s) as (run & rest & -> & Hrun & Hrest).
    rewrite squeeze_runs_app by exact Hrun. simpl app.
    rewrite squeeze_runs_stop by assumption.
    rewrite length_app in Hlen.
    destruct run as [|x run].
    + simpl app. unfold flush at 1. simpl.
      destruct (Nat.leb_spec n 0) as [|_]; [lia|]. simpl.
      destruct rest as [|y rest].
      * simpl. rewrite match_at_none.
        -- unfold flush. simpl. destruct (Nat.leb_spec n 0); [lia | reflexivity].
        -- apply (no_rep_in_short_run p n pv [] []); simpl; auto.
      * simpl. rewrite match_at_none.
        -- simpl in Hrest. rewrite Hrest.
           unfold flush. simpl. destruct (Nat.leb_spec n 0) as [|_]; [lia|]. simpl.
           f_equal. apply IH. simpl in Hlen. lia.
        -- apply (no_rep_in_short_run p n pv [] (y :: rest)); simpl; auto.
    + assert (Hr : length rest <= len) by (simpl in Hlen; lia).
      unfold flush. destruct (Nat.leb_spec n (length (x :: run))) as [Hge|Hlt].
      * rewrite (rewrite_scan_match (Rep p n) repl (x :: run) rest pv i _
                   (match_at_rep p n (x :: run) rest pv i Hrun Hrest Hge));
          [|reflexivity|discriminate].
        f_equal. apply IH. exact Hr.
      * rewrite rewrite_scan_pass.
        -- f_equal. apply IH. exact Hr.
        -- intros a1 a2 E Hne. apply no_rep_in_short_run; auto.
           ++ rewrite E, forallb_app in Hrun. apply andb_true_iff in Hrun. tauto.
           ++ rewrite E, length_app in Hlt. lia.
Qed.

Lemma re_sub_rep : forall p n repl s, 1 <= n ->
  re_sub (Rep p n) repl s = squeeze_runs p n repl [] s.
Proof.
  intros p n repl s Hn. rewrite re_sub_rewrite.
  apply (rewrite_scan_rep p n repl Hn (length s)). lia.
Qed.

(** [runs_lt p n k s]: after [k] characters of the class [p], no run of [p]
    in [s] reaches the length [n]. *)
Fixpoint runs_lt (p : char -> bool) (n k : nat) (s : str) : bool :=
  match s with
  | [] => k <? n
  | x :: s' => if p x then runs_lt p n (S k) s' else (k <? n) && runs_lt p n 0 s'
  end.

Lemma runs_lt_run : forall p n u k s,
  forallb p u = true -> runs_lt p n k (u ++ s) = runs_lt p n (k + length u) s.
Proof.
  intros p n u. induction u as [|x u IH]; intros k s Hu; simpl.
  - rewrite Nat.add_0_r. reflexivity.
  - simpl in Hu. apply andb_true_iff in Hu. destruct Hu as [Hx Hu].
    rewrite Hx, IH by exact Hu. f_equal. lia.
Qed.

Lemma flush_class : forall p n repl run,
  forallb p repl = true -> forallb p run = true -> forallb p (flush n repl run) = true.
Proof. intros p n repl run Hr Hu. unfold flush. destruct (n <=? length run); assumption. Qed.

Lemma flush_length : forall n b repl run,
  length repl < b -> n <= b -> length (flush n repl run) < b.
Proof.
  intros n b repl run Hr Hn. unfold flush.
  destruct (Nat.leb_spec n (length run)); lia.
Qed.

(** After squeezing, every run is shorter than [b], when [repl] is and
    [n <= b]. *)
Lemma squeeze_runs_bounded : forall p n b repl,
  forallb p repl = true -> length repl < b -> n <= b ->
  forall s run, forallb p run = true ->
  runs_lt p b 0 (squeeze_runs p n repl run s) = true.
Proof.
  intros p n b repl Hp Hl Hn s. induction s as [|x s IH]; intros run Hrun; simpl.
  - rewrite <- (app_nil_r (flush n repl run)), runs_lt_run by (apply flush_class; auto).
    simpl. apply Nat.ltb_lt. apply flush_length; auto.
  - destruct (p x) eqn:Hx.
    + apply IH. rewrite forallb_app, Hrun. simpl. rewrite Hx. reflexivity.
    + rewrite runs_lt_run by (apply flush_class; auto). simpl. rewrite Hx.
      rewrite (IH [] eq_refl), andb_true_r.
      apply Nat.ltb_lt. apply flush_length; auto.
Qed.

(** With [n = 1], every character of the class that is left comes from
    [repl]. *)
Lemma squeeze_runs_1_class : forall p repl s run c,
  In c (squeeze_runs p 1 repl run s) -> p c = false \/ In c repl.
Proof.
  intros p repl s. induction s as [|x s IH]; intros run c H; simpl in H.
  - unfold flush in H. destruct run; simpl in H; [contradiction | auto].
  - destruct (p x) eqn:Hx; [eauto|].
    apply in_app_or in H. destruct H as [H|[<-|H]]; [|auto|eauto].
    unfold flush in H. destruct run; simpl in H; [contradiction | auto].
Qed.

(** The first and the last character. *)
Definition headed_ok (s : str) : Prop := not_headed_by isspace s.

Lemma lstrip_headed : forall s, headed_ok (lstrip s).
Proof.
  induction s as [|x s IH]; simpl; [exact I|].
  destruct (isspace x) eqn:Hx; [exact IH | exact Hx].
Qed.

Lemma lstrip_fixed : forall s, headed_ok s -> lstrip s = s.
Proof. destruct s as [|x s]; simpl; intros H; [reflexivity | rewrite H; reflexivity]. Qed.

Lemma lstrip_suffix : forall s, exists w, s = w ++ lstrip s /\ forallb isspace w = true.
Proof.
  induction s as [|x s IH]; simpl.
  - exists []. auto.
  - destruct (isspace x) eqn:Hx.
    + destruct IH as (w & E & Hw). exists (x :: w). simpl. rewrite Hx, <- E. auto.
    + exists []. auto.
Qed.

Lemma rstrip_prefix : forall s, exists w, s = rstrip s ++ w /\ forallb isspace w = true.
Proof.
  intros s. unfold rstrip. destruct (lstrip_suffix (rev s)) as (w & E & Hw).
  exists (rev w). split.
  - rewrite <- rev_app_distr, <- E, rev_involutive. reflexivity.
  - rewrite forallb_forall in *. intros x Hx. apply Hw. apply in_rev. exact Hx.
Qed.

Lemma rstrip_fixed : forall s, headed_ok (rev s) -> rstrip s = s.
Proof.
  intros s H. unfold rstrip. rewrite lstrip_fixed by exact H. apply rev_involutive.
Qed.

Lemma rstrip_last : forall s, headed_ok (rev (rstrip s)).
Proof. intros s. unfold rstrip. rewrite rev_involutive. apply lstrip_headed. Qed.

Lemma rstrip_headed : forall s, headed_ok s -> headed_ok (rstrip s).
Proof.
  intros s H. destruct (rstrip_prefix s) as (w & E & _).
  destruct (rstrip s) as [|x r]; [exact I|].
  rewrite E in H. exact H.
Qed.

Lemma strip_ends : forall s, headed_ok (strip s) /\ headed_ok (rev (strip s)).
Proof.
  intros s. unfold strip. split.
  - apply rstrip_headed, lstrip_headed.
  - apply rstrip_last.
Qed.

Lemma strip_fixed : forall s, headed_ok s -> headed_ok (rev s) -> strip s = s.
Proof.
  intros s H1 H2. unfold strip. rewrite lstrip_fixed by exact H1.
  apply rstrip_fixed. exact H2.
Qed.

Lemma squeeze_runs_head : forall p n repl s,
  1 <= n -> (forall c, p c = true -> isspace c = true) ->
  headed_ok s -> headed_ok (squeeze_runs p n repl [] s).
Proof.
  intros p n repl s Hn Hp H. destruct s as [|x s]; simpl.
  - unfold flush. simpl. destruct (Nat.leb_spec n 0); [lia | exact I].
  - simpl in H. destruct (p x) eqn:Hx.
    + apply Hp in Hx. congruence.
    + unfold flush. simpl. destruct (Nat.leb_spec n 0); [lia | exact H].
Qed.

Lemma squeeze_runs_keeps_last : forall p n repl s z run,
  1 <= n -> p z = false ->
  exists u, squeeze_runs p n repl run (s ++ [z]) = u ++ [z].
Proof.
  intros p n repl s z run Hn Hz. revert run.
  induction s as [|x s IH]; intros run; simpl.
  - rewrite Hz. exists (flush n repl run). f_equal. f_equal.
    unfold flush. simpl. destruct (Nat.leb_spec n 0); [lia | reflexivity].
  - destruct (p x); [apply IH|].
    destruct (IH []) as (u & ->). exists (flush n repl run ++ x :: u).
    rewrite <- app_assoc. reflexivity.
Qed.

Lemma squeeze_runs_last : forall p n repl s,
  1 <= n -> (forall c, p c = true -> isspace c = true) ->
  headed_ok (rev s) -> headed_ok (rev (squeeze_runs p n repl [] s)).
Proof.
  intros p n repl s Hn Hp H.
  destruct (rev s) as [|z r] eqn:E.
  - apply (f_equal (@rev char)) in E. rewrite rev_involutive in E. subst s. simpl.
    unfold flush. simpl. destruct (Nat.leb_spec n 0); [lia | exact I].
  - apply (f_equal (@rev char)) in E. rewrite rev_involutive in E. simpl in E. subst s.
    simpl in H.
    assert (Hz : p z = false).
    { destruct (p z) eqn:Hz; [|reflexivity]. apply Hp in Hz. congruence. }
    destruct (squeeze_runs_keeps_last p n repl (rev r) z [] Hn Hz) as (u & ->).
    rewrite rev_app_distr. simpl. exact H.
Qed.

Lemma hspace_isspace : forall c, is_hspace c = true -> isspace c = true.
Proof.
  intros c H. unfold is_hspace in H. apply orb_true_iff in H.
  destruct H as [H|H]; apply N.eqb_eq in H; subst c; reflexivity.
Qed.

(** * C4: the body of a block *)

(** Every run of spaces and tabs made one space. *)
Definition squeeze_hspace (s : str) : str := squeeze_runs is_hspace 1 [SP] [] s.

Definition body_of_span (full_text : str) (blk : ArticleBlock) (se : nat * nat) : str :=
  squeeze_hspace
    (strip (re_sub (own_header_re (pasal_number blk)) []
                   (strip (slice full_text (fst se) (snd se))))).

(** C4, as amended: the body of a block is the span of the block stripped of
    leading and trailing white space, with the header lines of its own label
    removed, stripped again, and with every run of spaces and tabs made one
    space.  So the body holds no tab and no two adjacent spaces, and it
    neither begins nor ends with white space. *)
Theorem C4_body_is_tidied_span : forall full_text,
  Forall2 (fun blk se =>
             text blk = body_of_span full_text blk se /\
             ~ In TAB (text blk) /\
             runs_lt is_hspace 2 0 (text blk) = true /\
             strip (text blk) = text blk)
          (detect_structure full_text) (block_spans full_text).
Proof.
  intros full_text. unfold detect_structure, block_spans.
  induction (with_ends (finditer PASAL_ANY_RE full_text) (length full_text))
    as [|[m stop] l IH]; simpl; constructor; [|exact IH].
  clear IH. simpl. unfold body_of_span. simpl.
  unfold block_body, HSPACES_RE. rewrite re_sub_rep by lia.
  fold (squeeze_hspace
          (strip (re_sub (own_header_re (strip (or_empty (group full_text m 1)))) []
                         (strip (slice full_text (m_start m) stop))))).
  set (S := strip (re_sub _ [] _)).
  split; [reflexivity|]. split; [|split].
  - intros H. apply squeeze_runs_1_class in H. destruct H as [H|[H|[]]]; discriminate.
  - apply squeeze_runs_bounded; auto.
  - destruct (strip_ends (re_sub (own_header_re (strip (or_empty (group full_text m 1)))) []
                                 (strip (slice full_text (m_start m) stop)))) as [H1 H2].
    fold S in H1, H2. apply strip_fixed.
    + apply squeeze_runs_head; [lia | apply hspace_isspace | exact H1].
    + apply squeeze_runs_last; [lia | apply hspace_isspace | exact H2].
Qed.

(** C4, as stated, fails: the two spaces between "a" and "b" reach the
    normalizer as one, and the line feed after the header is gone. *)
Lemma C4_body_is_not_the_raw_span :
  ~ (forall full_text,
       Forall2 (fun blk se =>
                  text blk = re_sub (own_header_re (pasal_number blk)) []
                                    (slice full_text (fst se) (snd se)))
               (detect_structure full_text) (block_spans full_text)).
Proof.
  intros H. specialize (H (py "Pasal 1\na  b")).
  vm_compute in H. inversion H as [|? ? ? ? E _]; subst. discriminate E.
Qed.

(** * Facts about the steps of the normalizer *)

(** Printable ASCII other than the space. *)
Definition plain (c : char) : bool := in_range 33 126 c.


Ltac char_cases :=
  repeat match goal with
         | |- context [N.eqb ?a ?b] => destruct (N.eqb_spec a b); try lia
         | |- context [N.leb ?a ?b] => destruct (N.leb_spec a b); try lia
         | |- context [N.ltb ?a ?b] => destruct (N.ltb_spec a b); try lia
         end;
  simpl; try reflexivity; try lia.

Lemma plain_range : forall c, plain c = true -> (33 <= c <= 126)%N.
Proof.
  intros c H. unfold plain, in_range in H. apply andb_true_iff in H.
  destruct H as [H1 H2]. apply N.leb_le in H1, H2. lia.
Qed.


Lemma plain_ascii : forall c, plain c = true -> (c < 128)%N.
Proof. intros c H. apply plain_range in H. lia. Qed.

Lemma plain_not_nul : forall c, plain c = true -> N.eqb c NUL = false.
Proof. intros c H. apply plain_range in H. unfold NUL. char_cases. Qed.

Lemma linebreak_isspace : forall c, is_linebreak c = true -> isspace c = true.
Proof.
  intros c H. unfold is_linebreak, in_range in H. unfold isspace, in_range.
  repeat rewrite orb_true_iff in H. repeat rewrite andb_true_iff in H.
  repeat rewrite N.leb_le in H. repeat rewrite N.eqb_eq in H.
  char_cases.
Qed.

Lemma lf_isspace : forall c, is_lf c = true -> isspace c = true.
Proof. intros c H. apply N.eqb_eq in H. subst c. reflexivity. Qed.

Lemma lf_linebreak : forall c, is_lf c = true -> is_linebreak c = true.
Proof. intros c H. apply N.eqb_eq in H. subst c. reflexivity. Qed.

Lemma forallb_imp : forall (p q : char -> bool) s,
  (forall c, p c = true -> q c = true) -> forallb p s = true -> forallb q s = true.
Proof.
  intros p q s H Hs. rewrite forallb_forall in *. auto.
Qed.



(** ** Deleting U+0000 *)

Lemma remove_char_absent : forall c s,
  forallb (fun x => negb (N.eqb x c)) s = true -> remove_char c s = s.
Proof.
  intros c s H. unfold remove_char. induction s as [|x s IH]; simpl; [reflexivity|].
  simpl in H. apply andb_true_iff in H. destruct H as [Hx Hs].
  rewrite Hx, IH by exact Hs. reflexivity.
Qed.

(** ** Rejoining hyphenation *)

Definition headed_by (p : char -> bool) (s : str) : bool :=
  match s with
  | [] => false
  | y :: _ => p y
  end.

(** A hyphen immediately before a line feed. *)
Fixpoint has_hyphen_break (s : str) : bool :=
  match s with
  | [] => false
  | x :: s' => (is_hyphen x && headed_by is_lf s') || has_hyphen_break s'
  end.

Lemma can_match_hyphen_break : forall pv s,
  can_match HYPHEN_BREAK_RE pv s -> exists s', s = HYPHEN :: LF :: s'.
Proof.
  intros pv s (c & s' & -> & M). unfold HYPHEN_BREAK_RE in M.
  inversion M as [| | | |r1 r2 pv1 c1 c2 s1 M1 M2| | | |]; subst. clear M.
  inversion M1; subst. clear M1.
  inversion M2 as [| | | |r1 r2 pv1 c1 c3 s1 M3 M4| | | |]; subst. clear M2.
  inversion M3; subst. clear M3.
  match goal with H : is_hyphen _ = true |- _ => apply N.eqb_eq in H; subst end.
  match goal with H : is_lf _ = true |- _ => apply N.eqb_eq in H; subst end.
  simpl. eauto.
Qed.

Lemma rewrite_scan_none : forall r repl s pv i,
  (forall a1 a2, s = a1 ++ a2 -> ~ can_match r (prev_after pv a1) a2) ->
  rewrite_scan r repl pv s i 0 = s.
Proof.
  intros r repl s pv i H.
  rewrite <- (app_nil_r s) at 1. rewrite rewrite_scan_pass.
  - simpl. rewrite match_at_none; [apply app_nil_r|].
    apply (H s []). symmetry. apply app_nil_r.
  - intros a1 a2 E _. rewrite app_nil_r. apply H. exact E.
Qed.

Lemma rejoin_no_break : forall s,
  has_hyphen_break s = false -> rejoin_hyphenation s = s.
Proof.
  intros s H. unfold rejoin_hyphenation. rewrite re_sub_rewrite.
  apply rewrite_scan_none. intros a1 a2 -> Hc.
  apply can_match_hyphen_break in Hc. destruct Hc as (s' & ->).
  induction a1 as [|x a1 IH]; simpl in H.
  - discriminate H.
  - apply orb_false_iff in H. destruct H as [_ H]. auto.
Qed.



Lemma match_at_hyphen_break : forall ws b pv i,
  forallb isspace ws = true -> not_headed_by isspace b ->
  match_at HYPHEN_BREAK_RE pv (HYPHEN :: LF :: ws ++ b) i
  = Some (mkMatch i (i + length (HYPHEN :: LF :: ws)) []).
Proof.
  intros ws b pv i Hws Hb. unfold match_at, HYPHEN_BREAK_RE. simpl.
  apply rep_max; auto; [lia|]. f_equal. f_equal. lia.
Qed.


(** ** Trimming every line *)

(** [tidy s]: the only line boundary in [s] is the line feed, and no other
    white space stands at the end of a line or at the end of the text. *)
Fixpoint tidy (s : str) : bool :=
  match s with
  | [] => true
  | x :: s' =>
      (is_lf x || negb (isspace x) || (negb (is_linebreak x) && negb (at_eol s')))
      && tidy s'
  end.

Lemma splitlines_nil : forall s, splitlines s = [] -> s = [].
Proof.
  destruct s as [|x s]; [reflexivity|]. simpl.
  destruct (N.eqb x CR).
  - destruct s as [|y s]; [discriminate|]. destruct (N.eqb y LF); discriminate.
  - destruct (is_linebreak x); [discriminate|].
    destruct (splitlines s); discriminate.
Qed.

Lemma tidy_head : forall x s,
  tidy (x :: s) = true ->
  (is_lf x = true) \/
  (is_linebreak x = false /\ (isspace x = false \/ at_eol s = false)).
Proof.
  intros x s H. simpl in H. apply andb_true_iff in H. destruct H as [H _].
  destruct (is_lf x) eqn:Hlf; [auto|]. right. simpl in H.
  destruct (isspace x) eqn:Hs; simpl in H.
  - apply andb_true_iff in H. destruct H as [H1 H2].
    apply negb_true_iff in H1, H2. auto.
  - split; [|auto]. destruct (is_linebreak x) eqn:Hb; [|reflexivity].
    apply linebreak_isspace in Hb. congruence.
Qed.

Lemma tidy_tail : forall x s, tidy (x :: s) = true -> tidy s = true.
Proof. intros x s H. simpl in H. apply andb_true_iff in H. tauto. Qed.

Lemma splitlines_lf : forall s, splitlines (LF :: s) = [] :: splitlines s.
Proof. reflexivity. Qed.

Lemma splitlines_other : forall x s, is_linebreak x = false ->
  splitlines (x :: s) = match splitlines s with
                        | [] => [[x]]
                        | l :: ls => (x :: l) :: ls
                        end.
Proof.
  intros x s H. simpl. destruct (N.eqb_spec x CR) as [->|_]; [discriminate H|].
  rewrite H. reflexivity.
Qed.

Lemma lstrip_app : forall u v,
  lstrip (u ++ v) = match lstrip u with
                    | [] => lstrip v
                    | _ :: _ => lstrip u ++ v
                    end.
Proof.
  induction u as [|x u IH]; intros v; simpl; [reflexivity|].
  destruct (isspace x); [apply IH | reflexivity].
Qed.

Lemma rstrip_cons : forall x l,
  rstrip (x :: l) = match rstrip l with
                    | [] => if isspace x then [] else [x]
                    | _ :: _ => x :: rstrip l
                    end.
Proof.
  intros x l. unfold rstrip. simpl rev. rewrite lstrip_app.
  destruct (lstrip (rev l)) as [|y t] eqn:E; simpl.
  - destruct (isspace x); reflexivity.
  - rewrite rev_app_distr. simpl.
    destruct (rev t ++ [y]) eqn:E'; [|reflexivity].
    apply app_eq_nil in E'. destruct E' as [_ E']. discriminate.
Qed.

Lemma splitlines_first_empty : forall s ls,
  tidy s = true -> splitlines s = [] :: ls -> at_eol s = true.
Proof.
  intros [|x s] ls Ht H; [reflexivity|].
  destruct (tidy_head _ _ Ht) as [Hlf|[Hb _]]; [exact Hlf|].
  rewrite (splitlines_other x s Hb) in H.
  destruct (splitlines s); discriminate.
Qed.

Lemma tidy_lines_trimmed : forall s,
  tidy s = true -> Forall (fun l => rstrip l = l) (splitlines s).
Proof.
  induction s as [|x s IH]; intros Ht; [constructor|].
  pose proof (tidy_tail _ _ Ht) as Ht'. specialize (IH Ht').
  destruct (tidy_head _ _ Ht) as [Hlf|[Hb Hx]].
  - apply N.eqb_eq in Hlf. subst x. rewrite splitlines_lf. constructor; [reflexivity | exact IH].
  - rewrite (splitlines_other x s Hb).
    destruct (splitlines s) as [|l ls] eqn:E.
    + constructor; [|constructor]. apply splitlines_nil in E. subst s.
      destruct Hx as [Hx|Hx]; [|discriminate Hx].
      rewrite rstrip_cons. simpl. rewrite Hx. reflexivity.
    + inversion IH as [|? ? Hl Hls]; subst. constructor; [|exact Hls].
      rewrite rstrip_cons, Hl. destruct l as [|y l]; [|reflexivity].
      rewrite (splitlines_first_empty s ls Ht' E) in Hx.
      destruct Hx as [Hx|Hx]; [|discriminate Hx]. rewrite Hx. reflexivity.
Qed.

Lemma join_cons : forall sep x l ls,
  join sep ((x :: l) :: ls) = x :: join sep (l :: ls).
Proof. intros sep x l ls. simpl. destruct ls; reflexivity. Qed.

Lemma tidy_join_lines : forall s,
  tidy s = true -> last s SP <> LF -> join [LF] (splitlines s) = s.
Proof.
  induction s as [|x s IH]; intros Ht Hl; [reflexivity|].
  pose proof (tidy_tail _ _ Ht) as Ht'.
  assert (Hl' : s <> [] -> last s SP <> LF).
  { intros Hne. destruct s; [congruence | exact Hl]. }
  destruct (tidy_head _ _ Ht) as [Hlf|[Hb Hx]].
  - apply N.eqb_eq in Hlf. subst x. rewrite splitlines_lf.
    destruct s as [|y s]; [simpl in Hl; congruence|].
    specialize (IH Ht' (Hl' ltac:(discriminate))).
    destruct (splitlines (y :: s)) as [|l ls] eqn:E.
    + apply splitlines_nil in E. discriminate.
    + simpl. simpl in IH. rewrite IH. reflexivity.
  - rewrite (splitlines_other x s Hb).
    destruct (splitlines s) as [|l ls] eqn:E.
    + apply splitlines_nil in E. subst s. reflexivity.
    + rewrite join_cons. f_equal. apply IH; [exact Ht'|].
      apply Hl'. intros ->. discriminate E.
Qed.

Lemma rstrip_lines_fixed : forall s,
  tidy s = true -> last s SP <> LF -> rstrip_lines s = s.
Proof.
  intros s Ht Hl. unfold rstrip_lines.
  replace (map rstrip (splitlines s)) with (splitlines s).
  - apply tidy_join_lines; assumption.
  - pose proof (tidy_lines_trimmed s Ht) as H.
    induction H as [|l ls Hl' _ IH]; simpl; [reflexivity|]. rewrite Hl', <- IH. reflexivity.
Qed.

(** ** Collapsing runs that are not there *)

Lemma squeeze_runs_fixed : forall p n repl s run,
  runs_lt p n (length run) s = true -> squeeze_runs p n repl run s = run ++ s.
Proof.
  intros p n repl s. induction s as [|x s IH]; intros run H; simpl in *.
  - unfold flush. apply Nat.ltb_lt in H.
    destruct (Nat.leb_spec n (length run)); [lia|]. symmetry. apply app_nil_r.
  - destruct (p x).
    + rewrite IH; [rewrite <- app_assoc; reflexivity|].
      rewrite length_app. simpl. rewrite Nat.add_1_r. exact H.
    + apply andb_true_iff in H. destruct H as [H1 H2]. apply Nat.ltb_lt in H1.
      unfold flush. destruct (Nat.leb_spec n (length run)); [lia|].
      rewrite (IH [] H2). reflexivity.
Qed.

Lemma runs_lt_none : forall p n s,
  0 < n -> forallb (fun c => negb (p c)) s = true -> runs_lt p n 0 s = true.
Proof.
  intros p n s Hn. induction s as [|x s IH]; simpl; intros H.
  - apply Nat.ltb_lt. exact Hn.
  - apply andb_true_iff in H. destruct H as [Hx Hs]. apply negb_true_iff in Hx.
    rewrite Hx, (IH Hs), andb_true_r. apply Nat.ltb_lt. exact Hn.
Qed.


(** ** Text without U+0000 and below U+0080 *)

Definition ascii_text (c : char) : bool := N.ltb c 128 && negb (N.eqb c NUL).

Lemma clean_text_ascii : forall (U : Unicodedata) t,
  forallb ascii_text t = true -> clean_text t = clean_normalized t.
Proof.
  intros U t H. unfold clean_text.
  rewrite remove_char_absent.
  - rewrite NFKC_ascii; [reflexivity|].
    apply Forall_forall. intros c Hc. rewrite forallb_forall in H.
    specialize (H c Hc). unfold ascii_text in H. apply andb_true_iff in H.
    destruct H as [H _]. apply N.ltb_lt in H. exact H.
  - eapply forallb_imp; [|exact H]. intros c Hc. unfold ascii_text in Hc.
    apply andb_true_iff in Hc. tauto.
Qed.



(** ** Words and line feeds *)






Lemma last_app_nonempty : forall (a b : str) d, b <> [] -> last (a ++ b) d = last b d.
Proof.
  induction a as [|x a IH]; intros b d H; [reflexivity|].
  simpl app. destruct (a ++ b) eqn:E.
  - apply app_eq_nil in E. tauto.
  - rewrite <- E. simpl. rewrite E. rewrite <- E. apply IH. exact H.
Qed.





(** * C10: a hyphen before blank lines *)



(** * C2: runs of line feeds *)










(** * What the normalizer leaves behind *)

(** ** No step brings in a new character, apart from line feeds and spaces *)

Lemma rewrite_scan_in : forall r repl s pv i skip c,
  In c (rewrite_scan r repl pv s i skip) -> In c s \/ In c repl.
Proof.
  intros r repl s. induction s as [|x s IH]; intros pv i skip c H.
  - destruct skip; simpl in H; [|contradiction].
    destruct (match_at r pv [] i); simpl in H; [|contradiction].
    rewrite app_nil_r in H. auto.
  - destruct skip as [|sk]; simpl in H.
    + destruct (match_at r pv (x :: s) i) as [m|].
      * apply in_app_or in H. destruct H as [H|H]; [auto|].
        apply in_app_or in H. destruct H as [H|H].
        -- destruct (m_end m <=? i); simpl in H; [|contradiction].
           destruct H as [<-|[]]. left. left. reflexivity.
        -- apply IH in H. destruct H; [left; right|right]; assumption.
      * destruct H as [<-|H]; [left; left; reflexivity|].
        apply IH in H. destruct H; [left; right|right]; assumption.
    + apply IH in H. destruct H; [left; right|right]; assumption.
Qed.

Lemma re_sub_in : forall r repl s c, In c (re_sub r repl s) -> In c s \/ In c repl.
Proof. intros r repl s c H. rewrite re_sub_rewrite in H. eapply rewrite_scan_in; eauto. Qed.

Lemma lstrip_in : forall s c, In c (lstrip s) -> In c s.
Proof.
  intros s c H. destruct (lstrip_suffix s) as (w & E & _). rewrite E.
  apply in_or_app. auto.
Qed.

Lemma rstrip_in : forall s c, In c (rstrip s) -> In c s.
Proof.
  intros s c H. destruct (rstrip_prefix s) as (w & E & _). rewrite E.
  apply in_or_app. auto.
Qed.

Lemma strip_in : forall s c, In c (strip s) -> In c s.
Proof. intros s c H. unfold strip in H. apply rstrip_in, lstrip_in in H. exact H. Qed.

Lemma splitlines_in : forall n s l c,
  length s <= n -> In l (splitlines s) -> In c l -> In c s.
Proof.
  induction n as [|n IH]; intros s l c Hn Hl Hc.
  - destruct s; [contradiction | simpl in Hn; lia].
  - destruct s as [|x s]; [contradiction|]. simpl in Hn, Hl.
    destruct (N.eqb x CR).
    + destruct s as [|y s]; [destruct Hl as [<-|[]]; contradiction|].
      simpl in Hn. destruct (N.eqb y LF).
      * destruct Hl as [<-|Hl]; [contradiction|].
        right. right. apply (IH s l c); [lia | exact Hl | exact Hc].
      * destruct Hl as [<-|Hl]; [contradiction|].
        right. apply (IH (y :: s) l c); [simpl; lia | exact Hl | exact Hc].
    + destruct (is_linebreak x).
      * destruct Hl as [<-|Hl]; [contradiction|].
        right. apply (IH s l c); [lia | exact Hl | exact Hc].
      * destruct (splitlines s) as [|l0 ls] eqn:E.
        -- destruct Hl as [<-|[]]. destruct Hc as [<-|[]]. left. reflexivity.
        -- destruct Hl as [<-|Hl].
           ++ destruct Hc as [<-|Hc]; [left; reflexivity|].
              right. apply (IH s l0 c); [lia | rewrite E; left; reflexivity | exact Hc].
           ++ right. apply (IH s l c); [lia | rewrite E; right; exact Hl | exact Hc].
Qed.

Lemma join_in : forall sep parts c,
  In c (join sep parts) -> In c sep \/ exists l, In l parts /\ In c l.
Proof.
  intros sep parts c. induction parts as [|l ls IH]; intros H; [contradiction|].
  destruct ls as [|l' ls].
  - right. exists l. split; [left; reflexivity | exact H].
  - change (In c (l ++ sep ++ join sep (l' :: ls))) in H.
    apply in_app_or in H. destruct H as [H|H].
    + right. exists l. split; [left; reflexivity | exact H].
    + apply in_app_or in H. destruct H as [H|H]; [auto|].
      destruct (IH H) as [H'|(l0 & Hl0 & Hc)]; [auto|].
      right. exists l0. split; [right; exact Hl0 | exact Hc].
Qed.

Lemma rstrip_lines_in : forall s c, In c (rstrip_lines s) -> In c s \/ c = LF.
Proof.
  intros s c H. unfold rstrip_lines in H. apply join_in in H.
  destruct H as [[<-|[]]|(l & Hl & Hc)]; [auto|].
  apply in_map_iff in Hl. destruct Hl as (l0 & <- & Hl0).
  left. apply (splitlines_in (length s) s l0 c); [lia | exact Hl0|].
  apply rstrip_in. exact Hc.
Qed.

Lemma clean_normalized_nul : forall t, In NUL (clean_normalized t) -> In NUL t.
Proof.
  intros t H. unfold clean_normalized in H. apply strip_in in H.
  apply re_sub_in in H. destruct H as [H|[H|[]]]; [|discriminate H].
  apply re_sub_in in H. destruct H as [H|[H|[H|[]]]]; [|discriminate H|discriminate H].
  apply rstrip_lines_in in H. destruct H as [H|H]; [|discriminate H].
  apply re_sub_in in H. destruct H as [H|[]]. exact H.
Qed.

Lemma remove_char_not_in : forall c s, ~ In c (remove_char c s).
Proof.
  intros c s H. unfold remove_char in H. apply filter_In in H.
  destruct H as [_ H]. rewrite N.eqb_refl in H. discriminate.
Qed.

Lemma clean_text_no_nul : forall (U : Unicodedata) t, ~ In NUL (clean_text t).
Proof.
  intros U t H. unfold clean_text in H. apply clean_normalized_nul in H.
  apply NFKC_nul in H. exact (remove_char_not_in NUL t H).
Qed.

Lemma remove_char_fixed : forall c s, ~ In c s -> remove_char c s = s.
Proof.
  intros c s H. apply remove_char_absent. apply forallb_forall. intros x Hx.
  apply negb_true_iff. destruct (N.eqb_spec x c); [subst; contradiction | reflexivity].
Qed.

(** ** The end of a text *)

(** The last character, if any, is not white space. *)
Definition ends_ok (s : str) : Prop := isspace (last s 97%N) = false.

Lemma ends_ok_rev : forall s, headed_ok (rev s) <-> ends_ok s.
Proof.
  intros s. unfold ends_ok. destruct (rev s) as [|z r] eqn:E.
  - apply (f_equal (@rev char)) in E. rewrite rev_involutive in E. subst s.
    simpl. split; [reflexivity | intros _; exact I].
  - apply (f_equal (@rev char)) in E. rewrite rev_involutive in E. subst s.
    simpl. rewrite last_last. tauto.
Qed.

Lemma ends_ok_tail : forall x s, s <> [] -> ends_ok (x :: s) -> ends_ok s.
Proof. intros x [|y s] H E; [congruence | exact E]. Qed.

Lemma ends_ok_not_lf : forall s, ends_ok s -> last s SP <> LF.
Proof.
  intros s H E. destruct s as [|x s]; [discriminate E|].
  unfold ends_ok in H.
  rewrite (last_cons_default char s x 97%N), <- (last_cons_default char s x SP), E in H.
  discriminate H.
Qed.

(** ** Tidy text *)

Definition tidy_at (x : char) (s' : str) : bool :=
  is_lf x || negb (isspace x) || (negb (is_linebreak x) && negb (at_eol s')).

Lemma tidy_cons : forall x s, tidy (x :: s) = tidy_at x s && tidy s.
Proof. reflexivity. Qed.

Lemma tidy_at_next : forall x s s2,
  tidy_at x s = true -> (at_eol s = false -> at_eol s2 = false) -> tidy_at x s2 = true.
Proof.
  intros x s s2 H Hn. unfold tidy_at in *.
  destruct (is_lf x); [reflexivity|]. destruct (isspace x); [|reflexivity].
  simpl in *. apply andb_true_iff in H. destruct H as [H1 H2].
  rewrite H1. simpl. apply negb_true_iff in H2. rewrite (Hn H2). reflexivity.
Qed.

Lemma tidy_at_nonspace : forall x s, isspace x = false -> tidy_at x s = true.
Proof.
  intros x s H. unfold tidy_at. rewrite H. simpl. rewrite orb_true_r. reflexivity.
Qed.

Lemma tidy_suffix : forall u v, tidy (u ++ v) = true -> tidy v = true.
Proof.
  induction u as [|x u IH]; intros v H; [exact H|].
  apply IH. exact (tidy_tail _ _ H).
Qed.

Lemma tidy_prefix_trim : forall P w, tidy (P ++ w) = true -> ends_ok P -> tidy P = true.
Proof.
  induction P as [|x P IH]; intros w H E; [reflexivity|].
  simpl app in H. rewrite tidy_cons in *. apply andb_true_iff in H. destruct H as [H1 H2].
  destruct P as [|y P].
  - simpl. rewrite andb_true_r. apply tidy_at_nonspace. exact E.
  - rewrite (IH w H2 (ends_ok_tail x (y :: P) ltac:(discriminate) E)), andb_true_r.
    apply (tidy_at_next x ((y :: P) ++ w)); [exact H1 | simpl; auto].
Qed.

Lemma tidy_strip : forall s, tidy s = true -> tidy (strip s) = true.
Proof.
  intros s H. unfold strip.
  destruct (lstrip_suffix s) as (w & E & _). rewrite E in H. apply tidy_suffix in H.
  destruct (rstrip_prefix (lstrip s)) as (w' & E' & _). rewrite E' in H.
  apply (tidy_prefix_trim _ w' H). apply ends_ok_rev. apply rstrip_last.
Qed.

(** The lines of a text hold no line boundary. *)
Lemma splitlines_no_break : forall n s, length s <= n ->
  Forall (fun l => forallb (fun c => negb (is_linebreak c)) l = true) (splitlines s).
Proof.
  induction n as [|n IH]; intros s Hn.
  - destruct s; [constructor | simpl in Hn; lia].
  - destruct s as [|x s]; [constructor|]. simpl in Hn. simpl.
    destruct (N.eqb x CR).
    + destruct s as [|y s]; [repeat constructor|]. simpl in Hn.
      destruct (N.eqb y LF); constructor; try reflexivity; apply IH; simpl; lia.
    + destruct (is_linebreak x) eqn:Hb.
      * constructor; [reflexivity | apply IH; lia].
      * specialize (IH s ltac:(lia)). destruct (splitlines s) as [|l ls].
        -- constructor; [simpl; rewrite Hb; reflexivity | constructor].
        -- inversion IH; subst. constructor; [simpl; rewrite Hb; assumption | assumption].
Qed.

Lemma tidy_line_app : forall l rest,
  forallb (fun c => negb (is_linebreak c)) l = true -> ends_ok l ->
  tidy rest = true -> tidy (l ++ rest) = true.
Proof.
  induction l as [|x l IH]; intros rest Hl E Hr; [exact Hr|].
  simpl in Hl. apply andb_true_iff in Hl. destruct Hl as [Hx Hl].
  simpl app. rewrite tidy_cons. destruct l as [|y l].
  - simpl app. rewrite Hr, andb_true_r. apply tidy_at_nonspace. exact E.
  - rewrite (IH rest Hl (ends_ok_tail x (y :: l) ltac:(discriminate) E) Hr), andb_true_r.
    unfold tidy_at. rewrite Hx. simpl at_eol.
    simpl in Hl. apply andb_true_iff in Hl. destruct Hl as [Hy _].
    destruct (N.eqb_spec y LF) as [->|_]; [discriminate Hy|].
    simpl. apply orb_true_r.
Qed.

Lemma tidy_join : forall L,
  Forall (fun l => forallb (fun c => negb (is_linebreak c)) l = true /\ ends_ok l) L ->
  tidy (join [LF] L) = true.
Proof.
  induction 1 as [|l ls [Hl El] _ IH]; [reflexivity|].
  destruct ls as [|l' ls].
  - simpl. rewrite <- (app_nil_r l). apply tidy_line_app; auto.
  - change (tidy (l ++ [LF] ++ join [LF] (l' :: ls)) = true).
    apply tidy_line_app; auto.
Qed.

Lemma rstrip_lines_tidy : forall s, tidy (rstrip_lines s) = true.
Proof.
  intros s. unfold rstrip_lines. apply tidy_join.
  pose proof (splitlines_no_break (length s) s (le_n _)) as H.
  induction H as [|l ls Hl _ IH]; simpl; constructor; [|exact IH].
  split.
  - destruct (rstrip_prefix l) as (w & E & _). rewrite E, forallb_app in Hl.
    apply andb_true_iff in Hl. tauto.
  - apply ends_ok_rev, rstrip_last.
Qed.

(** Collapsing line feeds keeps a text tidy. *)
Lemma tidy_lfs : forall u r, forallb is_lf u = true -> tidy (u ++ r) = tidy r.
Proof.
  induction u as [|x u IH]; intros r H; [reflexivity|].
  simpl in H. apply andb_true_iff in H. destruct H as [Hx Hu].
  simpl app. rewrite tidy_cons, (IH r Hu). unfold tidy_at. rewrite Hx. reflexivity.
Qed.

Lemma at_eol_squeeze_lf : forall n repl s, 1 <= n ->
  at_eol s = false -> at_eol (squeeze_runs is_lf n repl [] s) = false.
Proof.
  intros n repl [|y s] Hn H; [discriminate H|].
  simpl in H. simpl. unfold is_lf. rewrite H. unfold flush. simpl.
  destruct (Nat.leb_spec n 0); [lia | exact H].
Qed.

Lemma tidy_squeeze_lf : forall n repl, 1 <= n -> forallb is_lf repl = true ->
  forall s run, forallb is_lf run = true -> tidy s = true ->
  tidy (squeeze_runs is_lf n repl run s) = true.
Proof.
  intros n repl Hn Hrepl s. induction s as [|x s IH]; intros run Hrun H; simpl.
  - rewrite <- (app_nil_r (flush n repl run)), tidy_lfs by (apply flush_class; auto).
    reflexivity.
  - rewrite tidy_cons in H. apply andb_true_iff in H. destruct H as [H1 H2].
    destruct (is_lf x) eqn:Hx.
    + apply IH; [|exact H2]. rewrite forallb_app, Hrun. simpl. rewrite Hx. reflexivity.
    + rewrite tidy_lfs by (apply flush_class; auto).
      rewrite tidy_cons, (IH [] eq_refl H2), andb_true_r.
      apply (tidy_at_next x s); [exact H1 | apply at_eol_squeeze_lf; exact Hn].
Qed.

(** Collapsing spaces and tabs keeps a text tidy. *)
Lemma hspace_facts : forall h, is_hspace h = true ->
  is_lf h = false /\ isspace h = true /\ is_linebreak h = false.
Proof.
  intros h H. unfold is_hspace in H. apply orb_true_iff in H.
  destruct H as [H|H]; apply N.eqb_eq in H; subst h; repeat split.
Qed.

Lemma tidy_hrun : forall u r, forallb is_hspace u = true -> u <> [] ->
  tidy (u ++ r) = negb (at_eol r) && tidy r.
Proof.
  induction u as [|h u IH]; intros r H Hne; [congruence|].
  simpl in H. apply andb_true_iff in H. destruct H as [Hh Hu].
  destruct (hspace_facts h Hh) as (F1 & F2 & F3).
  simpl app. rewrite tidy_cons. unfold tidy_at. rewrite F1, F2, F3. simpl.
  destruct u as [|h2 u]; [reflexivity|].
  rewrite (IH r Hu ltac:(discriminate)). simpl.
  simpl in Hu. apply andb_true_iff in Hu. destruct Hu as [Hh2 _].
  destruct (hspace_facts h2 Hh2) as (G1 & _ & _). unfold is_lf in G1. rewrite G1.
  reflexivity.
Qed.

Lemma squeeze_runs_head_class : forall p n repl s run,
  run <> [] -> forallb p run = true -> forallb p repl = true -> repl <> [] ->
  exists h t, squeeze_runs p n repl run s = h :: t /\ p h = true.
Proof.
  intros p n repl s. induction s as [|x s IH]; intros run Hne Hrun Hrepl Hrne.
  - simpl. unfold flush. destruct (n <=? length run).
    + destruct repl as [|h t]; [congruence|]. simpl in Hrepl.
      apply andb_true_iff in Hrepl. exists h, t. tauto.
    + destruct run as [|h t]; [congruence|]. simpl in Hrun.
      apply andb_true_iff in Hrun. exists h, t. tauto.
  - simpl. destruct (p x) eqn:Hx.
    + apply IH; auto.
      * intros E. apply app_eq_nil in E. destruct E as [_ E]. discriminate.
      * rewrite forallb_app, Hrun. simpl. rewrite Hx. reflexivity.
    + unfold flush. destruct (n <=? length run).
      * destruct repl as [|h t]; [congruence|]. simpl in Hrepl.
        apply andb_true_iff in Hrepl. exists h, (t ++ x :: squeeze_runs p n (h :: t) [] s).
        tauto.
      * destruct run as [|h t]; [congruence|]. simpl in Hrun.
        apply andb_true_iff in Hrun. exists h, (t ++ x :: squeeze_runs p n repl [] s).
        tauto.
Qed.

Lemma at_eol_squeeze_hspace : forall n s, 1 <= n ->
  at_eol s = false -> at_eol (squeeze_runs is_hspace n [SP] [] s) = false.
Proof.
  intros n [|y s] Hn H; [discriminate H|].
  simpl in H. simpl. destruct (is_hspace y) eqn:Hy.
  - destruct (squeeze_runs_head_class is_hspace n [SP] s [y])
      as (h & t & -> & Hh); try reflexivity; try discriminate.
    + simpl. rewrite Hy. reflexivity.
    + simpl. destruct (hspace_facts h Hh) as (F & _). exact F.
  - unfold flush. simpl. destruct (Nat.leb_spec n 0); [lia | exact H].
Qed.

Lemma tidy_squeeze_hspace : forall n, 1 <= n ->
  forall s run, forallb is_hspace run = true -> tidy (run ++ s) = true ->
  tidy (squeeze_runs is_hspace n [SP] run s) = true.
Proof.
  intros n Hn s. induction s as [|x s IH]; intros run Hrun H; simpl.
  - destruct run as [|h run].
    + unfold flush. simpl. destruct (Nat.leb_spec n 0); [lia | reflexivity].
    + rewrite tidy_hrun in H by (auto; discriminate). discriminate H.
  - destruct (is_hspace x) eqn:Hx.
    + apply IH.
      * rewrite forallb_app, Hrun. simpl. rewrite Hx. reflexivity.
      * rewrite <- app_assoc. exact H.
    + assert (Hxs : tidy (x :: s) = true /\ (run <> [] -> is_lf x = false)).
      { destruct run as [|h run]; [split; [exact H | congruence]|].
        rewrite tidy_hrun in H by (auto; discriminate).
        apply andb_true_iff in H. destruct H as [H1 H2]. split; [exact H2|].
        intros _. simpl in H1. apply negb_true_iff in H1. exact H1. }
      destruct Hxs as [Hxs Hlf]. rewrite tidy_cons in Hxs.
      apply andb_true_iff in Hxs. destruct Hxs as [H1 H2].
      assert (G : tidy (x :: squeeze_runs is_hspace n [SP] [] s) = true).
      { rewrite tidy_cons, (IH [] eq_refl H2), andb_true_r.
        apply (tidy_at_next x s); [exact H1 | apply at_eol_squeeze_hspace; exact Hn]. }
      destruct run as [|h run].
      * unfold flush. simpl. destruct (Nat.leb_spec n 0); [lia | exact G].
      * rewrite tidy_hrun.
        -- rewrite G, andb_true_r. simpl. fold (is_lf x).
           rewrite Hlf by discriminate. reflexivity.
        -- apply flush_class; [reflexivity | exact Hrun].
        -- unfold flush. destruct (n <=? length (h :: run)); discriminate.
Qed.

(** ** Runs that stay short *)

Lemma runs_lt_lt : forall p n s k, runs_lt p n k s = true -> k < n.
Proof.
  intros p n s. induction s as [|x s IH]; intros k H; simpl in H.
  - apply Nat.ltb_lt. exact H.
  - destruct (p x).
    + apply IH in H. lia.
    + apply andb_true_iff in H. destruct H as [H _]. apply Nat.ltb_lt. exact H.
Qed.

Lemma runs_lt_mono : forall p n s k k',
  k' <= k -> runs_lt p n k s = true -> runs_lt p n k' s = true.
Proof.
  intros p n s. induction s as [|x s IH]; intros k k' Hk H; simpl in *.
  - apply Nat.ltb_lt in H. apply Nat.ltb_lt. lia.
  - destruct (p x).
    + apply (IH (S k)); [lia | exact H].
    + apply andb_true_iff in H. destruct H as [H1 H2]. rewrite H2, andb_true_r.
      apply Nat.ltb_lt in H1. apply Nat.ltb_lt. lia.
Qed.

Lemma runs_lt_prefix : forall p n u v k,
  runs_lt p n k (u ++ v) = true -> runs_lt p n k u = true.
Proof.
  intros p n u. induction u as [|x u IH]; intros v k H; simpl in *.
  - apply Nat.ltb_lt. exact (runs_lt_lt p n v k H).
  - destruct (p x); [eauto|].
    apply andb_true_iff in H. destruct H as [H1 H2]. rewrite H1. simpl. eauto.
Qed.

Lemma runs_lt_suffix : forall p n u v k,
  runs_lt p n k (u ++ v) = true -> runs_lt p n 0 v = true.
Proof.
  intros p n u. induction u as [|x u IH]; intros v k H; simpl in *.
  - apply (runs_lt_mono p n v k 0); [lia | exact H].
  - destruct (p x); [eauto|].
    apply andb_true_iff in H. destruct H as [_ H]. eauto.
Qed.

Lemma runs_lt_strip : forall p n s,
  runs_lt p n 0 s = true -> runs_lt p n 0 (strip s) = true.
Proof.
  intros p n s H. unfold strip.
  destruct (lstrip_suffix s) as (w & E & _). rewrite E in H. apply runs_lt_suffix in H.
  destruct (rstrip_prefix (lstrip s)) as (w' & E' & _). rewrite E' in H.
  apply runs_lt_prefix in H. exact H.
Qed.

Lemma runs_lt_other : forall p n u s k,
  forallb (fun c => negb (p c)) u = true -> u <> [] ->
  (runs_lt p n k (u ++ s) = true <-> k < n /\ runs_lt p n 0 s = true).
Proof.
  intros p n u. induction u as [|x u IH]; intros s k Hu Hne; [congruence|].
  simpl in Hu. apply andb_true_iff in Hu. destruct Hu as [Hx Hu].
  apply negb_true_iff in Hx. simpl. rewrite Hx.
  rewrite andb_true_iff, Nat.ltb_lt.
  destruct u as [|y u]; [reflexivity|].
  rewrite (IH s 0 Hu ltac:(discriminate)).
  split; [tauto|]. intros [H1 H2]. pose proof (runs_lt_lt p n s 0 H2). tauto.
Qed.

(** Collapsing the runs of one class leaves the runs of a disjoint class as
    they are. *)
Lemma runs_lt_squeeze_other : forall p n q m repl,
  (forall c, q c = true -> p c = false) ->
  forallb (fun c => negb (p c)) repl = true -> repl <> [] -> 1 <= m ->
  forall s run k, forallb q run = true ->
  runs_lt p n k (run ++ s) = true ->
  runs_lt p n k (squeeze_runs q m repl run s) = true.
Proof.
  intros p n q m repl Hpq Hrepl Hrne Hm.
  assert (Hq : forall run, forallb q run = true -> forallb (fun c => negb (p c)) run = true).
  { intros run H. eapply forallb_imp; [|exact H]. intros c Hc.
    apply negb_true_iff. auto. }
  assert (Hfl : forall run, run <> [] -> forallb q run = true ->
                forallb (fun c => negb (p c)) (flush m repl run) = true /\
                flush m repl run <> []).
  { intros run Hne H. unfold flush. destruct (m <=? length run); auto. }
  intros s. induction s as [|x s IH]; intros run k Hrun H; simpl.
  - destruct run as [|h run].
    + unfold flush. simpl. destruct (Nat.leb_spec m 0); [lia | exact H].
    + destruct (Hfl (h :: run) ltac:(discriminate) Hrun) as [F1 F2].
      rewrite <- (app_nil_r (flush m repl (h :: run))).
      apply (runs_lt_other p n _ [] k F1 F2).
      apply (runs_lt_other p n _ [] k (Hq _ Hrun) ltac:(discriminate)). exact H.
  - destruct (q x) eqn:Hx.
    + apply IH.
      * rewrite forallb_app, Hrun. simpl. rewrite Hx. reflexivity.
      * rewrite <- app_assoc. exact H.
    + assert (G : forall k0, runs_lt p n k0 (x :: s) = true ->
                  runs_lt p n k0 (x :: squeeze_runs q m repl [] s) = true).
      { intros k0 H0. simpl in *. destruct (p x).
        - apply (IH [] (S k0) eq_refl). exact H0.
        - apply andb_true_iff in H0. destruct H0 as [H1 H2]. rewrite H1. simpl.
          apply (IH [] 0 eq_refl). exact H2. }
      destruct run as [|h run].
      * unfold flush. simpl. destruct (Nat.leb_spec m 0); [lia|]. simpl app.
        apply G. exact H.
      * destruct (Hfl (h :: run) ltac:(discriminate) Hrun) as [F1 F2].
        apply (runs_lt_other p n _ _ k F1 F2).
        apply (runs_lt_other p n _ _ k (Hq _ Hrun) ltac:(discriminate)) in H.
        destruct H as [H1 H2]. split; [exact H1 | apply G; exact H2].
Qed.

(** ** The shape of a normalizer output *)

Lemma clean_normalized_shape : forall t,
  let c := clean_normalized t in
  tidy c = true /\ headed_ok c /\ headed_ok (rev c) /\
  runs_lt is_lf 4 0 c = true /\ runs_lt is_hspace 2 0 c = true.
Proof.
  intros t c. subst c. unfold clean_normalized.
  set (y1 := rstrip_lines (rejoin_hyphenation t)).
  assert (T1 : tidy y1 = true) by apply rstrip_lines_tidy.
  unfold collapse_newlines, collapse_hspaces, NEWLINES4_RE, HSPACES2_RE.
  rewrite !re_sub_rep by lia.
  set (y2 := squeeze_runs is_lf 4 [LF; LF] [] y1).
  assert (T2 : tidy y2 = true) by (apply tidy_squeeze_lf; auto; lia).
  assert (R2 : runs_lt is_lf 4 0 y2 = true) by (apply squeeze_runs_bounded; auto).
  set (y3 := squeeze_runs is_hspace 2 [SP] [] y2).
  assert (T3 : tidy y3 = true) by (apply tidy_squeeze_hspace; auto; lia).
  assert (R3 : runs_lt is_lf 4 0 y3 = true).
  { apply runs_lt_squeeze_other; auto; try discriminate; try lia.
    intros ch Hc. destruct (hspace_facts ch Hc) as (F & _). exact F. }
  assert (S3 : runs_lt is_hspace 2 0 y3 = true) by (apply squeeze_runs_bounded; auto).
  destruct (strip_ends y3) as [E1 E2].
  repeat split; auto using tidy_strip, runs_lt_strip.
Qed.

(** * C5: applying the normalizer twice *)

(** C5, as amended: a normalizer output in which no hyphen stands
    immediately before a line feed, and which NFKC leaves as it is, is a
    fixed point of the normalizer. *)
Theorem C5_fixed_point_without_hyphen_break : forall (U : Unicodedata) t,
  let c := clean_text t in
  normalize_NFKC c = c -> has_hyphen_break c = false ->
  minimal_clean (minimal_clean (Some t)) = minimal_clean (Some t).
Proof.
  intros U t c Hn Hb. simpl. f_equal. fold c.
  assert (Hnul : ~ In NUL c) by apply clean_text_no_nul.
  destruct (clean_normalized_shape (normalize_NFKC (remove_char NUL t)))
    as (T & E1 & E2 & R4 & R2).
  fold (clean_text t) in T, E1, E2, R4, R2. fold c in T, E1, E2, R4, R2.
  unfold clean_text at 1. rewrite (remove_char_fixed NUL c Hnul), Hn.
  unfold clean_normalized.
  rewrite (rejoin_no_break c Hb).
  rewrite (rstrip_lines_fixed c T (ends_ok_not_lf c (proj1 (ends_ok_rev c) E2))).
  unfold collapse_newlines, collapse_hspaces, NEWLINES4_RE, HSPACES2_RE.
  rewrite !re_sub_rep by lia.
  rewrite (squeeze_runs_fixed is_lf 4 [LF; LF] c [] R4). simpl app.
  rewrite (squeeze_runs_fixed is_hspace 2 [SP] c [] R2). simpl app.
  apply strip_fixed; assumption.
Qed.

Lemma C5_fixed_point_without_hyphen_break_witness :
  minimal_clean (U := ascii_unicodedata)
    (minimal_clean (U := ascii_unicodedata) (Some (py "  da-\n\n ri \t x \n\n\n\n\n(1)  isi -\f\n\n")))
  = minimal_clean (U := ascii_unicodedata) (Some (py "  da-\n\n ri \t x \n\n\n\n\n(1)  isi -\f\n\n")).
Proof.
  apply (C5_fixed_point_without_hyphen_break ascii_unicodedata
           (py "  da-\n\n ri \t x \n\n\n\n\n(1)  isi -\f\n\n")); reflexivity.
Defined.

(** C5, as stated, fails: in "a- \nb" the hyphen is not at the end of its
    line, so the first pass only trims the line, and the second pass finds the
    hyphen at the end of the line and rejoins; this is so whatever the
    normalization table. *)
Lemma C5_second_pass_rejoins :
  ~ (exists U : Unicodedata,
       forall t, minimal_clean (minimal_clean (Some t)) = minimal_clean (Some t)).
Proof.
  intros [U H]. specialize (H (py "a- \nb")). unfold minimal_clean in H.
  rewrite (clean_text_ascii U (py "a- \nb") eq_refl) in H.
  replace (clean_normalized (py "a- \nb")) with (py "a-\nb") in H by (vm_compute; reflexivity).
  rewrite (clean_text_ascii U (py "a-\nb") eq_refl) in H.
  vm_compute in H. discriminate H.
Qed.

(** * Headers

    The shape of what [own_header_re] and [PASAL_ANY_RE] match. *)

(** [ci_text pat c]: the text [c] is the literal [pat], letter by letter and
    case-insensitively. *)
Definition ci_text (pat c : str) : Prop := Forall2 (fun l x => ci_eq l x = true) pat c.

Lemma ci_text_length : forall pat c, ci_text pat c -> length c = length pat.
Proof. intros pat c H. symmetry. exact (Forall2_length H). Qed.

Lemma matches_eps_inv : forall pv c s', matches Eps pv c s' -> c = [].
Proof. intros pv c s' M. inversion M. reflexivity. Qed.

Lemma matches_cls_inv : forall p pv c s',
  matches (Cls p) pv c s' -> exists x, c = [x] /\ p x = true.
Proof. intros p pv c s' M. inversion M; subst. eauto. Qed.

Lemma matches_bol_inv : forall pv c s', matches Bol pv c s' -> c = [] /\ at_bol pv = true.
Proof. intros pv c s' M. inversion M; subst. auto. Qed.

Lemma matches_eol_inv : forall pv c s', matches Eol pv c s' -> c = [] /\ at_eol s' = true.
Proof. intros pv c s' M. inversion M; subst. auto. Qed.

Lemma matches_seq_inv : forall r1 r2 pv c s',
  matches (Seq r1 r2) pv c s' ->
  exists c1 c2, c = c1 ++ c2 /\ matches r1 pv c1 (c2 ++ s') /\
                matches r2 (prev_after pv c1) c2 s'.
Proof. intros r1 r2 pv c s' M. inversion M; subst. eauto. Qed.

Lemma matches_alt_inv : forall r1 r2 pv c s',
  matches (Alt r1 r2) pv c s' -> matches r1 pv c s' \/ matches r2 pv c s'.
Proof. intros r1 r2 pv c s' M. inversion M; subst; auto. Qed.

Lemma matches_rep_inv : forall p n pv c s',
  matches (Rep p n) pv c s' -> forallb p c = true /\ n <= length c.
Proof. intros p n pv c s' M. inversion M; subst. auto. Qed.

Lemma matches_grp_inv : forall n r pv c s',
  matches (Grp n r) pv c s' -> matches r pv c s'.
Proof. intros n r pv c s' M. inversion M; subst. assumption. Qed.

Lemma lit_ci_inv : forall pat pv c s', matches (lit_ci pat) pv c s' -> ci_text pat c.
Proof.
  induction pat as [|l pat IH]; intros pv c s' M; simpl in M.
  - apply matches_eps_inv in M. subst. constructor.
  - apply matches_seq_inv in M. destruct M as (c1 & c2 & -> & M1 & M2).
    apply matches_cls_inv in M1. destruct M1 as (x & -> & Hx).
    simpl. constructor; [exact Hx | exact (IH _ _ _ M2)].
Qed.

Lemma lit_ci_intro : forall pat pv c s', ci_text pat c -> matches (lit_ci pat) pv c s'.
Proof.
  induction pat as [|l pat IH]; intros pv c s' H; inversion H; subst; simpl.
  - constructor.
  - change (y :: l') with ([y] ++ l').
    constructor; [constructor; assumption | apply IH; assumption].
Qed.

(** The text of a header of the article labelled [label]: white space, the
    keyword, white space, the label, white space. *)
Definition header_text (label c : str) : Prop :=
  exists w1 kw w2 lab w3,
    c = w1 ++ kw ++ w2 ++ lab ++ w3 /\
    forallb isspace w1 = true /\ ci_text (py "Pasal") kw /\
    forallb isspace w2 = true /\ w2 <> [] /\
    ci_text label lab /\ forallb isspace w3 = true.

Lemma own_header_inv : forall label pv c s',
  matches (own_header_re label) pv c s' ->
  at_bol pv = true /\ at_eol s' = true /\ header_text label c.
Proof.
  intros label pv c s' M. unfold own_header_re in M.
  apply matches_seq_inv in M. destruct M as (c0 & c' & -> & Mb & M).
  apply matches_bol_inv in Mb. destruct Mb as [-> Hb].
  change (prev_after pv []) with pv in M. cbn [app] in *.
  apply matches_seq_inv in M. destruct M as (w1 & c'' & -> & M1 & M).
  apply matches_rep_inv in M1. destruct M1 as [Hw1 _].
  apply matches_seq_inv in M. destruct M as (kw & c3 & -> & Mk & M).
  apply lit_ci_inv in Mk.
  apply matches_seq_inv in M. destruct M as (w2 & c4 & -> & M2 & M).
  apply matches_rep_inv in M2. destruct M2 as [Hw2 Hn2].
  apply matches_seq_inv in M. destruct M as (lab & c5 & -> & Ml & M).
  apply lit_ci_inv in Ml.
  apply matches_seq_inv in M. destruct M as (w3 & c6 & -> & M3 & M).
  apply matches_rep_inv in M3. destruct M3 as [Hw3 _].
  apply matches_eol_inv in M. destruct M as [-> He].
  split; [exact Hb|]. split; [exact He|].
  exists w1, kw, w2, lab, w3. rewrite app_nil_r.
  repeat split; auto. intros ->. simpl in Hn2. lia.
Qed.

Lemma own_header_intro : forall label pv c s',
  at_bol pv = true -> at_eol s' = true -> header_text label c ->
  matches (own_header_re label) pv c s'.
Proof.
  intros label pv c s' Hb He (w1 & kw & w2 & lab & w3 & -> & Hw1 & Hk & Hw2 & Hne & Hl & Hw3).
  unfold own_header_re.
  change (w1 ++ kw ++ w2 ++ lab ++ w3) with ([] ++ w1 ++ kw ++ w2 ++ lab ++ w3).
  constructor; [constructor; exact Hb|].
  constructor; [constructor; [exact Hw1 | lia]|].
  constructor; [apply lit_ci_intro; exact Hk|].
  constructor; [constructor; [exact Hw2 | destruct w2; [congruence | simpl; lia]]|].
  constructor; [apply lit_ci_intro; exact Hl|].
  rewrite <- (app_nil_r w3).
  constructor; [constructor; [exact Hw3 | lia]|].
  constructor. exact He.
Qed.

(** ** The characters of a header *)

Definition space_values : list N :=
  [9; 10; 11; 12; 13; 28; 29; 30; 31; 32; 133; 160; 5760; 8192; 8193; 8194;
   8195; 8196; 8197; 8198; 8199; 8200; 8201; 8202; 8232; 8233; 8239; 8287;
   12288]%N.

Lemma isspace_cases : forall c, isspace c = true -> In c space_values.
Proof.
  intros c H. unfold isspace, in_range in H.
  repeat rewrite orb_true_iff in H. repeat rewrite andb_true_iff in H.
  repeat rewrite N.leb_le in H. repeat rewrite N.eqb_eq in H.
  unfold space_values. simpl. lia.
Qed.

Lemma space_values_check :
  forallb (fun x => N.eqb (fold_key x) x && negb (in_range 97 122 x)
                    && negb (isdecimal x)) space_values = true.
Proof. vm_compute. reflexivity. Qed.

Lemma isspace_plain_key : forall c, isspace c = true ->
  fold_key c = c /\ in_range 97 122 c = false /\ isdecimal c = false.
Proof.
  intros c H. apply isspace_cases in H.
  pose proof space_values_check as F. rewrite forallb_forall in F.
  specialize (F c H). repeat rewrite andb_true_iff in F.
  destruct F as [[F1 F2] F3]. apply N.eqb_eq in F1.
  apply negb_true_iff in F2, F3. auto.
Qed.

(** A digit or a letter of a pattern. *)
Definition wordy (c : char) : bool := isdecimal c || is_letter_ci c.

Lemma nd_runs_check :
  forallb (fun lo => N.eqb lo 48
                     || (N.leb 1632 lo && (N.ltb (lo + 9) 8490 || N.ltb 8490 lo)))
          nd_runs = true.
Proof. vm_compute. reflexivity. Qed.

Lemma digit_range : forall c, isdecimal c = true ->
  (48 <= c <= 57 \/ (1632 <= c /\ c <> 8490))%N.
Proof.
  intros c H. unfold isdecimal in H. apply existsb_exists in H.
  destruct H as (lo & Hin & Hr).
  pose proof nd_runs_check as F. rewrite forallb_forall in F. specialize (F lo Hin).
  unfold in_range in Hr. apply andb_true_iff in Hr. destruct Hr as [H1 H2].
  apply N.leb_le in H1, H2.
  apply orb_true_iff in F. destruct F as [F|F].
  - apply N.eqb_eq in F. subst lo. left. lia.
  - apply andb_true_iff in F. destruct F as [F1 F2]. apply N.leb_le in F1.
    apply orb_true_iff in F2. right.
    destruct F2 as [F2|F2]; apply N.ltb_lt in F2; lia.
Qed.

Lemma digit_key : forall c, isdecimal c = true -> fold_key c = c.
Proof.
  intros c H. apply digit_range in H. unfold fold_key, in_range. char_cases.
Qed.

Lemma key_is_digit : forall x d, isdecimal d = true -> fold_key x = d -> x = d.
Proof.
  intros x d H E. apply digit_range in H. unfold fold_key, in_range in E.
  revert E. char_cases.
Qed.

Lemma digit_ci : forall d x, isdecimal d = true -> ci_eq d x = true -> x = d.
Proof.
  intros d x H E. unfold ci_eq in E. apply N.eqb_eq in E.
  rewrite (digit_key d H) in E. symmetry in E. apply (key_is_digit x d H E).
Qed.

Lemma letter_ci : forall l x, is_letter_ci l = true -> ci_eq l x = true -> is_letter_ci x = true.
Proof.
  intros l x H E. unfold ci_eq in E. apply N.eqb_eq in E.
  unfold is_letter_ci in *. rewrite <- E. exact H.
Qed.

Lemma roman_ci : forall l x, is_roman_m l = true -> ci_eq l x = true -> is_roman_m x = true.
Proof.
  intros l x H E. unfold ci_eq in E. apply N.eqb_eq in E.
  unfold is_roman_m, ci_among in *. apply existsb_exists in H.
  destruct H as (r & Hr & Hrl). apply existsb_exists. exists r. split; [exact Hr|].
  unfold ci_eq in *. apply N.eqb_eq in Hrl. apply N.eqb_eq. congruence.
Qed.

Lemma roman_letter : forall c, is_roman_m c = true -> is_letter_ci c = true.
Proof.
  intros c H. unfold is_roman_m, ci_among in H. apply existsb_exists in H.
  destruct H as (r & Hr & Hrc). unfold ci_eq in Hrc. apply N.eqb_eq in Hrc.
  unfold is_letter_ci. rewrite <- Hrc.
  simpl in Hr. repeat (destruct Hr as [<-|Hr]; [reflexivity|]). contradiction.
Qed.

Lemma wordy_ci : forall l x, wordy l = true -> ci_eq l x = true -> wordy x = true.
Proof.
  intros l x H E. unfold wordy in *. apply orb_true_iff in H. destruct H as [H|H].
  - rewrite (digit_ci l x H E), H. reflexivity.
  - rewrite (letter_ci l x H E). apply orb_true_r.
Qed.

Lemma wordy_not_space : forall c, wordy c = true -> isspace c = false.
Proof.
  intros c H. destruct (isspace c) eqn:E; [|reflexivity].
  destruct (isspace_plain_key c E) as (K & R & D).
  unfold wordy, is_letter_ci in H. rewrite K, R, D in H. discriminate H.
Qed.

Lemma keyword_wordy : forallb wordy (py "Pasal") = true.
Proof. vm_compute. reflexivity. Qed.

Lemma forallb_Forall2 : forall (p q : char -> bool) (R : char -> char -> Prop) l l',
  (forall a b, R a b -> p a = true -> q b = true) ->
  Forall2 R l l' -> forallb p l = true -> forallb q l' = true.
Proof.
  intros p q R l l' H F. induction F as [|a b l l' Hab _ IH]; simpl; intros Hp; [reflexivity|].
  apply andb_true_iff in Hp. destruct Hp as [Ha Hl].
  rewrite (H a b Hab Ha), (IH Hl). reflexivity.
Qed.

Lemma ci_text_wordy : forall pat c,
  forallb wordy pat = true -> ci_text pat c -> forallb wordy c = true.
Proof.
  intros pat c H F.
  apply (forallb_Forall2 wordy wordy (fun l x => ci_eq l x = true) pat c); auto.
  intros a b E Ha. exact (wordy_ci a b Ha E).
Qed.

Lemma wordy_no_space : forall c,
  forallb wordy c = true -> forallb (fun x => negb (isspace x)) c = true.
Proof.
  intros c H. eapply forallb_imp; [|exact H]. intros x Hx.
  apply negb_true_iff, wordy_not_space. exact Hx.
Qed.

(** ** Labels *)

(** The label of a header: digits with at most one letter after them, or
    Roman numerals. *)
Definition LABEL_RE : regex :=
  Alt (Grp 2 (Seq (Rep isdecimal 1) (Alt (Cls is_letter_ci) Eps)))
      (Grp 3 (Rep is_roman_m 1)).

Definition label_like (lab : str) : Prop :=
  (exists ds l, lab = ds ++ l /\ ds <> [] /\ forallb isdecimal ds = true /\
                forallb is_letter_ci l = true /\ length l <= 1) \/
  (lab <> [] /\ forallb is_roman_m lab = true).

Lemma label_inv : forall pv c s', matches LABEL_RE pv c s' -> label_like c.
Proof.
  intros pv c s' M. unfold LABEL_RE in M.
  apply matches_alt_inv in M. destruct M as [M|M]; apply matches_grp_inv in M.
  - left. apply matches_seq_inv in M. destruct M as (ds & l & -> & M1 & M2).
    apply matches_rep_inv in M1. destruct M1 as [Hd Hn].
    exists ds, l. split; [reflexivity|]. split; [intros ->; simpl in Hn; lia|].
    split; [exact Hd|].
    apply matches_alt_inv in M2. destruct M2 as [M2|M2].
    + apply matches_cls_inv in M2. destruct M2 as (x & -> & Hx). simpl.
      rewrite Hx. auto.
    + apply matches_eps_inv in M2. subst l. auto.
  - right. apply matches_rep_inv in M. destruct M as [Hr Hn].
    split; [intros ->; simpl in Hn; lia | exact Hr].
Qed.

Lemma label_intro : forall pv c s', label_like c -> matches LABEL_RE pv c s'.
Proof.
  intros pv c s' [(ds & l & -> & Hne & Hd & Hl & Hlen)|[Hne Hr]]; unfold LABEL_RE.
  - apply m_alt_l. constructor. constructor.
    + constructor; [exact Hd | destruct ds; [congruence | simpl; lia]].
    + destruct l as [|x [|y l]]; [apply m_alt_r; constructor | | simpl in Hlen; lia].
      apply m_alt_l. constructor. simpl in Hl. apply andb_true_iff in Hl. tauto.
  - apply m_alt_r. constructor. constructor; [exact Hr|].
    destruct c; [congruence | simpl; lia].
Qed.

Lemma label_ne : forall lab, label_like lab -> lab <> [].
Proof.
  intros lab [(ds & l & -> & Hne & _)|[Hne _]]; [|exact Hne].
  intros E. apply app_eq_nil in E. tauto.
Qed.

Lemma label_wordy : forall lab, label_like lab -> forallb wordy lab = true.
Proof.
  intros lab [(ds & l & -> & _ & Hd & Hl & _)|[_ Hr]].
  - rewrite forallb_app. apply andb_true_iff. split.
    + eapply forallb_imp; [|exact Hd]. intros c Hc. unfold wordy. rewrite Hc. reflexivity.
    + eapply forallb_imp; [|exact Hl]. intros c Hc. unfold wordy. rewrite Hc. apply orb_true_r.
  - eapply forallb_imp; [|exact Hr]. intros c Hc. unfold wordy.
    rewrite (roman_letter c Hc). apply orb_true_r.
Qed.

Lemma ci_eq_refl : forall c, ci_eq c c = true.
Proof. intros c. unfold ci_eq. apply N.eqb_refl. Qed.

Lemma ci_text_refl : forall s, ci_text s s.
Proof. induction s; constructor; auto using ci_eq_refl. Qed.

Lemma label_ci : forall lab lab', label_like lab -> ci_text lab lab' -> label_like lab'.
Proof.
  intros lab lab' [(ds & l & -> & Hne & Hd & Hl & Hlen)|[Hne Hr]] F.
  - left. apply Forall2_app_inv_l in F. destruct F as (ds' & l' & F1 & F2 & ->).
    exists ds', l'. split; [reflexivity|].
    split; [intros ->; inversion F1; subst; congruence|].
    split; [|split].
    + apply (forallb_Forall2 isdecimal isdecimal (fun l x => ci_eq l x = true) ds ds'); auto.
      intros a b E Ha. rewrite (digit_ci a b Ha E). exact Ha.
    + apply (forallb_Forall2 is_letter_ci is_letter_ci (fun l x => ci_eq l x = true) l l'); auto.
      intros a b E Ha. exact (letter_ci a b Ha E).
    + rewrite <- (Forall2_length F2). exact Hlen.
  - right. split; [intros ->; inversion F; subst; congruence|].
    apply (forallb_Forall2 is_roman_m is_roman_m (fun l x => ci_eq l x = true) lab lab'); auto.
    intros a b E Ha. exact (roman_ci a b Ha E).
Qed.

(** A label does not begin like the keyword. *)
Lemma label_first : forall f lab, label_like (f :: lab) -> ci_eq 80 f = false.
Proof.
  intros f lab H.
  assert (Hf : isdecimal f = true \/ is_roman_m f = true).
  { destruct H as [(ds & l & E & Hne & Hd & _)|[_ Hr]].
    - destruct ds as [|d ds]; [congruence|]. simpl in E. inversion E; subst.
      simpl in Hd. apply andb_true_iff in Hd. tauto.
    - simpl in Hr. apply andb_true_iff in Hr. tauto. }
  unfold ci_eq. apply N.eqb_neq. change (fold_key 80) with 112%N.
  destruct Hf as [Hf|Hf].
  - rewrite (digit_key f Hf). apply digit_range in Hf. lia.
  - unfold is_roman_m, ci_among in Hf. apply existsb_exists in Hf.
    destruct Hf as (r & Hr & Hrf). unfold ci_eq in Hrf. apply N.eqb_eq in Hrf.
    rewrite <- Hrf. simpl in Hr.
    repeat (destruct Hr as [<-|Hr]; [vm_compute; discriminate|]). contradiction.
Qed.

(** ** Matches that bind no group *)

Fixpoint group_free (r : regex) : bool :=
  match r with
  | Grp _ _ => false
  | Seq a b => group_free a && group_free b
  | Alt a b => group_free a && group_free b
  | _ => true
  end.

Lemma rmatch_sound_nogroup :
  forall (A : Type) r pv s i g (k : option char -> str -> nat -> groups -> option A) x,
  group_free r = true ->
  rmatch r pv s i g k = Some x ->
  exists c s', s = c ++ s' /\ matches r pv c s' /\
               k (prev_after pv c) s' (i + length c) g = Some x.
Proof.
  intros A r. induction r as [|p| | |r1 IH1 r2 IH2|r1 IH1 r2 IH2|p n|n r IH];
    intros pv s i g k x G H; simpl in H, G.
  - exists [], s. simpl. rewrite Nat.add_0_r. auto.
  - destruct s as [|a s]; [discriminate|]. destruct (p a) eqn:Hp; [|discriminate].
    exists [a], s. simpl. rewrite Nat.add_1_r. auto.
  - destruct (at_bol pv) eqn:Hb; [|discriminate].
    exists [], s. simpl. rewrite Nat.add_0_r. auto.
  - destruct (at_eol s) eqn:He; [|discriminate].
    exists [], s. simpl. rewrite Nat.add_0_r. auto.
  - apply andb_true_iff in G. destruct G as [G1 G2].
    apply IH1 in H; [|exact G1]. destruct H as (c1 & s1 & -> & M1 & H).
    apply IH2 in H; [|exact G2]. destruct H as (c2 & s2 & -> & M2 & H).
    exists (c1 ++ c2), s2. rewrite <- app_assoc, prev_after_app, length_app.
    rewrite Nat.add_assoc. auto.
  - apply andb_true_iff in G. destruct G as [G1 G2].
    destruct (rmatch r1 pv s i g k) eqn:H1.
    + inversion H; subst a. apply IH1 in H1; [|exact G1].
      destruct H1 as (c & s' & -> & M & Hk). exists c, s'. auto.
    + apply IH2 in H; [|exact G2]. destruct H as (c & s' & -> & M & Hk).
      exists c, s'. auto.
  - apply rep_sound in H. destruct H as (c & s' & -> & Hc & Hn & Hk).
    exists c, s'. auto.
  - discriminate G.
Qed.

Lemma seq_nogroup_step :
  forall (A : Type) r1 r2 pv s i g (k : option char -> str -> nat -> groups -> option A) x,
  group_free r1 = true ->
  rmatch (Seq r1 r2) pv s i g k = Some x ->
  exists c s', s = c ++ s' /\ matches r1 pv c s' /\
               rmatch r2 (prev_after pv c) s' (i + length c) g k = Some x.
Proof.
  intros A r1 r2 pv s i g k x G H. simpl in H.
  apply rmatch_sound_nogroup in H; [exact H | exact G].
Qed.

Lemma seq_group_step :
  forall (A : Type) n r1 r2 pv s i g (k : option char -> str -> nat -> groups -> option A) x,
  rmatch (Seq (Grp n r1) r2) pv s i g k = Some x ->
  exists c s' g1, s = c ++ s' /\ matches r1 pv c s' /\
    rmatch r2 (prev_after pv c) s' (i + length c) ((n, (i, i + length c)) :: g1) k = Some x.
Proof.
  intros A n r1 r2 pv s i g k x H. simpl in H.
  apply rmatch_sound in H. exact H.
Qed.

(** ** The header of any article *)

(** What [PASAL_ANY_RE] matches, and where it binds group 1. *)
Lemma pasal_match_inv : forall pv s i m,
  match_at PASAL_ANY_RE pv s i = Some m ->
  at_bol pv = true /\
  exists w1 kw w2 lab w3 rest,
    s = w1 ++ kw ++ w2 ++ lab ++ w3 ++ rest /\
    forallb isspace w1 = true /\ ci_text (py "Pasal") kw /\
    forallb isspace w2 = true /\ w2 <> [] /\ label_like lab /\
    forallb isspace w3 = true /\ at_eol rest = true /\
    m_start m = i /\
    m_end m = i + length (w1 ++ kw ++ w2 ++ lab ++ w3) /\
    group_span 1 (m_groups m)
    = Some (i + length (w1 ++ kw ++ w2), i + length (w1 ++ kw ++ w2) + length lab).
Proof.
  intros pv s i m H. unfold match_at, PASAL_ANY_RE in H.
  apply seq_nogroup_step in H; [|reflexivity].
  destruct H as (c0 & s0 & -> & M0 & H).
  apply matches_bol_inv in M0. destruct M0 as [-> Hb].
  change (prev_after pv []) with pv in H. cbn [app length] in *. rewrite Nat.add_0_r in H.
  apply seq_nogroup_step in H; [|reflexivity].
  destruct H as (w1 & s1 & -> & M1 & H).
  apply matches_rep_inv in M1. destruct M1 as [Hw1 _].
  apply seq_nogroup_step in H; [|reflexivity].
  destruct H as (kw & s2 & -> & M2 & H). apply lit_ci_inv in M2.
  apply seq_nogroup_step in H; [|reflexivity].
  destruct H as (w2 & s3 & -> & M3 & H).
  apply matches_rep_inv in M3. destruct M3 as [Hw2 Hn2].
  apply seq_group_step in H.
  destruct H as (lab & s4 & g1 & -> & M4 & H).
  apply (label_inv _ lab s4) in M4.
  apply rmatch_sound_nogroup in H; [|reflexivity].
  destruct H as (c5 & rest & -> & M5 & H).
  apply matches_seq_inv in M5. destruct M5 as (w3 & c6 & -> & M5 & M6).
  apply matches_rep_inv in M5. destruct M5 as [Hw3 _].
  apply matches_eol_inv in M6. destruct M6 as [-> He].
  rewrite app_nil_r in *.
  inversion H; subst m; clear H. simpl.
  split; [exact Hb|].
  exists w1, kw, w2, lab, w3, rest.
  repeat rewrite <- app_assoc. repeat rewrite length_app.
  repeat split; auto; try lia.
  - intros ->. simpl in Hn2. lia.
  - f_equal. f_equal; lia.
Qed.

Lemma pasal_intro : forall pv w1 kw w2 lab w3 rest,
  at_bol pv = true -> forallb isspace w1 = true -> ci_text (py "Pasal") kw ->
  forallb isspace w2 = true -> w2 <> [] -> label_like lab ->
  forallb isspace w3 = true -> at_eol rest = true ->
  matches PASAL_ANY_RE pv (w1 ++ kw ++ w2 ++ lab ++ w3) rest.
Proof.
  intros pv w1 kw w2 lab w3 rest Hb Hw1 Hk Hw2 Hne Hl Hw3 He.
  unfold PASAL_ANY_RE.
  change (w1 ++ kw ++ w2 ++ lab ++ w3) with ([] ++ w1 ++ kw ++ w2 ++ lab ++ w3).
  constructor; [constructor; exact Hb|].
  constructor; [constructor; [exact Hw1 | lia]|].
  constructor; [apply lit_ci_intro; exact Hk|].
  constructor; [constructor; [exact Hw2 | destruct w2; [congruence | simpl; lia]]|].
  constructor; [constructor; apply (label_intro _ lab _ Hl)|].
  rewrite <- (app_nil_r w3).
  constructor; [constructor; [exact Hw3 | lia]|].
  constructor. exact He.
Qed.

(** * Where the scan finds nothing *)

Lemma match_at_none_inv : forall r pv s i, match_at r pv s i = None -> ~ can_match r pv s.
Proof.
  intros r pv s i H Hc. exact (match_at_some r pv s i Hc H).
Qed.

Lemma scan_nil_inv : forall r s pv i skip,
  scan r pv s i skip = [] ->
  forall a1 a2, s = a1 ++ a2 -> skip <= length a1 -> ~ can_match r (prev_after pv a1) a2.
Proof.
  intros r s. induction s as [|x s IH]; intros pv i skip H a1 a2 E Hs.
  - symmetry in E. apply app_eq_nil in E. destruct E as [-> ->]. simpl in Hs.
    assert (skip = 0) by lia. subst skip. simpl in H.
    destruct (match_at r pv [] i) eqn:Hm; [discriminate|].
    exact (match_at_none_inv r pv [] i Hm).
  - destruct skip as [|sk]; simpl in H.
    + destruct (match_at r pv (x :: s) i) eqn:Hm; [discriminate|].
      destruct a1 as [|y a1]; simpl in E.
      * subst a2. exact (match_at_none_inv r pv (x :: s) i Hm).
      * inversion E; subst y. rewrite prev_after_cons.
        apply (IH (Some x) (S i) 0 H a1 a2); [assumption | lia].
    + destruct a1 as [|y a1]; [simpl in Hs; lia|].
      simpl in E. inversion E; subst y. rewrite prev_after_cons.
      apply (IH (Some x) (S i) sk H a1 a2); [assumption | simpl in Hs; lia].
Qed.

Lemma scan_cons_inv : forall r s pv i skip m ms,
  scan r pv s i skip = m :: ms ->
  exists a b,
    s = a ++ b /\ skip <= length a /\
    match_at r (prev_after pv a) b (i + length a) = Some m /\
    (forall a1 a2, a = a1 ++ a2 -> skip <= length a1 -> a2 <> [] ->
                   ~ can_match r (prev_after pv a1) (a2 ++ b)) /\
    ms = match b with
         | x :: b' => scan r (Some x) b' (S (i + length a)) (m_end m - S (i + length a))
         | [] => []
         end.
Proof.
  intros r s. induction s as [|x s IH]; intros pv i skip m ms H.
  - destruct skip as [|sk]; simpl in H; [|discriminate].
    destruct (match_at r pv [] i) as [m0|] eqn:Hm; [|discriminate].
    inversion H; subst. exists [], []. simpl. rewrite Nat.add_0_r.
    repeat split; auto.
    intros a1 a2 E _ Hne. symmetry in E. apply app_eq_nil in E. tauto.
  - destruct skip as [|sk]; simpl in H.
    + destruct (match_at r pv (x :: s) i) as [m0|] eqn:Hm.
      * inversion H; subst. exists [], (x :: s). simpl. rewrite Nat.add_0_r.
        repeat split; auto.
        intros a1 a2 E _ Hne. symmetry in E. apply app_eq_nil in E. tauto.
      * destruct (IH (Some x) (S i) 0 m ms H) as (a & b & -> & _ & Hm' & Hgap & Hms).
        exists (x :: a), b. rewrite prev_after_cons. simpl length.
        replace (i + S (length a)) with (S i + length a) by lia.
        repeat split; auto; [lia|].
        intros a1 a2 E _ Hne. destruct a1 as [|y a1]; simpl in E.
        -- subst a2. simpl. exact (match_at_none_inv r pv _ i Hm).
        -- inversion E; subst. rewrite prev_after_cons.
           apply Hgap; auto. lia.
    + destruct (IH (Some x) (S i) sk m ms H) as (a & b & -> & Hsk & Hm' & Hgap & Hms).
      exists (x :: a), b. rewrite prev_after_cons. simpl length.
      replace (i + S (length a)) with (S i + length a) by lia.
      repeat split; auto; [lia|].
      intros a1 a2 E Hle Hne. destruct a1 as [|y a1]; [simpl in Hle; lia|].
      simpl in E. inversion E; subst. rewrite prev_after_cons.
      apply Hgap; auto. simpl in Hle. lia.
Qed.

Lemma prefix_split : forall (X : Type) (c r u v : list X),
  c ++ r = u ++ v -> length c <= length u -> exists mid, u = c ++ mid /\ r = mid ++ v.
Proof.
  intros X c. induction c as [|x c IH]; intros r u v E Hl.
  - exists u. auto.
  - destruct u as [|y u]; [simpl in Hl; lia|].
    simpl in E. inversion E; subst.
    destruct (IH r u v H1) as (mid & -> & ->); [simpl in Hl; lia|].
    exists mid. auto.
Qed.

(** The block of a match: the text before it, the match, the text up to the
    next match, and the rest.  Between the end of the match and the next
    match, the pattern matches nowhere. *)
Definition block_layout (r : regex) (pv : option char) (i : nat) (s : str)
           (m : Match) (stop : nat) : Prop :=
  exists a c mid post,
    s = a ++ c ++ mid ++ post /\
    match_at r (prev_after pv a) (c ++ mid ++ post) (i + length a) = Some m /\
    m_end m = i + length a + length c /\
    stop = i + length (a ++ c ++ mid) /\
    (post = [] \/ can_match r (prev_after pv (a ++ c ++ mid)) post) /\
    (forall x y, c ++ mid = x ++ y -> x <> [] -> length c <= length x -> y <> [] ->
                 ~ can_match r (prev_after pv (a ++ x)) (y ++ post)).


Lemma block_layout_intro : forall r pv i s m stop a c mid post,
  s = a ++ c ++ mid ++ post ->
  match_at r (prev_after pv a) (c ++ mid ++ post) (i + length a) = Some m ->
  m_end m = i + length a + length c ->
  stop = i + length (a ++ c ++ mid) ->
  (post = [] \/ can_match r (prev_after pv (a ++ c ++ mid)) post) ->
  (forall x y, c ++ mid = x ++ y -> x <> [] -> length c <= length x -> y <> [] ->
               ~ can_match r (prev_after pv (a ++ x)) (y ++ post)) ->
  block_layout r pv i s m stop.
Proof.
  intros r pv i s m stop a c mid post H1 H2 H3 H4 H5 H6.
  exists a, c, mid, post. auto 10.
Qed.

Lemma scan_blocks : forall r n s pv i skip m stop,
  length s <= n ->
  In (m, stop) (with_ends (scan r pv s i skip) (i + length s)) ->
  block_layout r pv i s m stop.
Proof.
  intros r n. induction n as [|n IH]; intros s pv i skip m stop Hn Hin.
  - destruct s; [|simpl in Hn; lia].
    destruct skip; simpl in Hin; [|contradiction].
    destruct (match_at r pv [] i) as [m0|] eqn:Hm; simpl in Hin; [|contradiction].
    destruct Hin as [E|[]]. inversion E; subst. clear E.
    pose proof (match_at_sound r pv [] i m Hm) as [_ (c & s' & Hcs & _ & He)].
    symmetry in Hcs. apply app_eq_nil in Hcs. destruct Hcs as [-> ->].
    apply (block_layout_intro r pv i [] m _ [] [] [] []); simpl; rewrite ?Nat.add_0_r in *; auto.
    intros x y E Hx. symmetry in E. apply app_eq_nil in E. tauto.
  - destruct (scan r pv s i skip) as [|m0 ms] eqn:Hscan; [contradiction|].
    destruct (scan_cons_inv r s pv i skip m0 ms Hscan)
      as (a0 & b & -> & Hsk & Hm0 & Hgap0 & Hms).
    pose proof (match_at_sound r _ b _ m0 Hm0) as [_ (c & rest0 & Hb & _ & He)].
    simpl in Hin. destruct Hin as [E|Hin].
    + inversion E; subst m0. clear E.
      destruct b as [|x0 b'].
      * symmetry in Hb. apply app_eq_nil in Hb. destruct Hb as [-> ->].
        subst ms. subst stop.
        apply (block_layout_intro r pv i _ m _ a0 [] [] []); simpl;
          rewrite ?app_nil_r, ?Nat.add_0_r in *; auto.
        intros x y E Hx. symmetry in E. apply app_eq_nil in E. tauto.
      * destruct ms as [|m' ms'].
        -- subst stop. symmetry in Hms.
           apply (block_layout_intro r pv i _ m _ a0 c rest0 []).
           ++ rewrite app_nil_r, <- Hb. reflexivity.
           ++ rewrite app_nil_r, <- Hb. exact Hm0.
           ++ exact He.
           ++ rewrite <- Hb. reflexivity.
           ++ left. reflexivity.
           ++ intros x y E Hx Hc Hy. rewrite app_nil_r.
              destruct x as [|x1 x]; [congruence|]. rewrite <- Hb in E. simpl in E.
              inversion E; subst x1. rewrite prev_after_app, prev_after_cons.
              apply (scan_nil_inv r b' (Some x0) _ _ Hms x y); auto.
              rewrite He. simpl in Hc. lia.
        -- symmetry in Hms.
           destruct (scan_cons_inv r b' (Some x0) _ _ m' ms' Hms)
             as (a' & b'' & -> & Hsk' & Hm' & Hgap' & _).
           pose proof (match_at_sound r _ b'' _ m' Hm') as [Hst' (c' & r' & Hb'' & M' & _)].
           change (x0 :: a' ++ b'') with ((x0 :: a') ++ b'') in Hb.
           destruct (prefix_split _ c rest0 (x0 :: a') b'' (eq_sym Hb)) as (mid & Emid & ->).
           { rewrite He in Hsk'. simpl. lia. }
           subst stop.
           assert (Eq : (x0 :: a') ++ b'' = c ++ mid ++ b'').
           { rewrite app_assoc, <- Emid. reflexivity. }
           apply (block_layout_intro r pv i _ m _ a0 c mid b'').
           ++ simpl in Eq. rewrite Eq. reflexivity.
           ++ rewrite <- Eq. exact Hm0.
           ++ exact He.
           ++ rewrite Hst'. rewrite <- Emid, !length_app. simpl. lia.
           ++ right. rewrite <- Emid, prev_after_app, prev_after_cons.
              exists c', r'. auto.
           ++ intros x y E Hx Hc Hy. rewrite <- Emid in E.
              destruct x as [|x1 x]; [congruence|]. simpl in E. inversion E; subst x1.
              rewrite prev_after_app, prev_after_cons.
              apply Hgap'; auto. rewrite He in *. simpl in Hc. lia.
    + destruct b as [|x0 b']; [subst ms; contradiction|].
      rewrite Hms in Hin.
      replace (i + length (a0 ++ x0 :: b')) with (S (i + length a0) + length b') in Hin
        by (rewrite length_app; simpl; lia).
      apply IH in Hin; [|rewrite length_app in Hn; simpl in Hn; lia].
      destruct Hin as (a & c1 & mid & post & -> & Hm1 & He1 & Hstop & Hpost & Hgap).
      assert (P : forall z, prev_after pv (a0 ++ x0 :: z) = prev_after (Some x0) z).
      { intros z. rewrite prev_after_app, prev_after_cons. reflexivity. }
      assert (L : i + length (a0 ++ x0 :: a) = S (i + length a0) + length a).
      { rewrite length_app. simpl. lia. }
      apply (block_layout_intro r pv i _ m _ (a0 ++ x0 :: a) c1 mid post).
      * rewrite <- app_assoc. reflexivity.
      * rewrite L, P. exact Hm1.
      * rewrite L. exact He1.
      * rewrite Hstop. rewrite <- app_assoc. simpl. rewrite !length_app. simpl.
        rewrite !length_app. lia.
      * destruct Hpost as [->|Hpost]; [left; reflexivity|]. right.
        rewrite <- app_assoc. simpl. rewrite P. exact Hpost.
      * intros x y E Hx Hc Hy. rewrite <- app_assoc. simpl. rewrite P. apply Hgap; auto.
Qed.

Lemma finditer_blocks : forall r text m stop,
  In (m, stop) (with_ends (finditer r text) (length text)) ->
  block_layout r None 0 text m stop.
Proof.
  intros r text m stop H. unfold finditer in H.
  apply (scan_blocks r (length text) text None 0 0 m stop (le_n _) H).
Qed.

(** * Moving a header match between texts *)

Ltac list_assoc := repeat rewrite <- app_assoc; simpl; reflexivity.

Lemma keyword_shape : forall kw, ci_text (py "Pasal") kw ->
  exists k kt, kw = k :: kt /\ isspace k = false /\ ci_eq 80 k = true /\
               forallb wordy kw = true.
Proof.
  intros kw H. pose proof (ci_text_wordy _ _ keyword_wordy H) as W.
  inversion H as [|l x pat' kt Hx Ht]; subst.
  exists x, kt. repeat split; auto.
  simpl in W. apply andb_true_iff in W. apply wordy_not_space. tauto.
Qed.

Lemma ws_prefix : forall w s w1 k t,
  forallb isspace w = true -> forallb isspace w1 = true -> isspace k = false ->
  w ++ s = w1 ++ k :: t ->
  exists w1', w1 = w ++ w1' /\ s = w1' ++ k :: t.
Proof.
  induction w as [|x w IH]; intros s w1 k t Hw Hw1 Hk E.
  - exists w1. auto.
  - simpl in Hw. apply andb_true_iff in Hw. destruct Hw as [Hx Hw].
    destruct w1 as [|y w1]; simpl in E; inversion E; subst; [congruence|].
    simpl in Hw1. apply andb_true_iff in Hw1. destruct Hw1 as [_ Hw1].
    destruct (IH s w1 k t Hw Hw1 Hk H1) as (w1' & -> & ->).
    exists w1'. auto.
Qed.

Lemma prev_after_ne : forall a pv pv', a <> [] -> prev_after pv a = prev_after pv' a.
Proof.
  intros [|x a] pv pv' H; [congruence|]. rewrite !prev_after_cons. reflexivity.
Qed.

Lemma prev_after_last : forall a z pv, prev_after pv (a ++ [z]) = Some z.
Proof. intros a z pv. rewrite prev_after_app. reflexivity. Qed.

Section OwnHeader.
Variable label : str.
Let own := own_header_re label.

Lemma own_prepend_ws : forall pv pv' wl b,
  at_bol pv = true -> forallb isspace wl = true ->
  can_match own pv' b -> can_match own pv (wl ++ b).
Proof.
  intros pv pv' wl b Hb Hwl (c & s' & -> & M).
  apply own_header_inv in M. destruct M as (_ & He & (w1 & kw & w2 & lab & w3 & -> & H1 & Hk & H2 & Hne & Hl & H3)).
  exists (wl ++ w1 ++ kw ++ w2 ++ lab ++ w3), s'. split; [list_assoc|].
  apply own_header_intro; auto.
  exists (wl ++ w1), kw, w2, lab, w3.
  repeat split; auto; [list_assoc|]. rewrite forallb_app, Hwl, H1. reflexivity.
Qed.

Lemma own_append_ws : forall pv b wr,
  forallb isspace wr = true -> can_match own pv b -> can_match own pv (b ++ wr).
Proof.
  intros pv b wr Hwr (c & s' & -> & M).
  apply own_header_inv in M. destruct M as (Hb & He & (w1 & kw & w2 & lab & w3 & -> & H1 & Hk & H2 & Hne & Hl & H3)).
  destruct s' as [|y s'].
  - exists (w1 ++ kw ++ w2 ++ lab ++ w3 ++ wr), []. split.
    + rewrite !app_nil_r. list_assoc.
    + apply own_header_intro; auto.
      exists w1, kw, w2, lab, (w3 ++ wr). repeat split; auto.
      rewrite forallb_app, H3, Hwr. reflexivity.
  - exists (w1 ++ kw ++ w2 ++ lab ++ w3), ((y :: s') ++ wr). split.
    + list_assoc.
    + apply own_header_intro; auto.
      exists w1, kw, w2, lab, w3. repeat split; auto.
Qed.

Lemma own_drop_ws : forall pv pv' w s,
  forallb isspace w = true -> at_bol pv' = true ->
  can_match own pv (w ++ s) -> can_match own pv' s.
Proof.
  intros pv pv' w s Hw Hb' (c & s' & E & M).
  apply own_header_inv in M. destruct M as (_ & He & (w1 & kw & w2 & lab & w3 & -> & H1 & Hk & H2 & Hne & Hl & H3)).
  destruct (keyword_shape kw Hk) as (k & kt & -> & Hks & _).
  rewrite <- !app_assoc in E. simpl in E.
  destruct (ws_prefix w s w1 k _ Hw H1 Hks E) as (w1' & -> & ->).
  rewrite forallb_app in H1. apply andb_true_iff in H1. destruct H1 as [_ H1].
  exists (w1' ++ (k :: kt) ++ w2 ++ lab ++ w3), s'. split.
  - list_assoc.
  - apply own_header_intro; auto.
    exists w1', (k :: kt), w2, lab, w3. repeat split; auto.
Qed.

(** No header of the label anywhere in [s]. *)
Definition own_free (s : str) : Prop :=
  forall a b, s = a ++ b -> ~ can_match own (prev_after None a) b.

Lemma own_free_strip : forall s, own_free s -> own_free (strip s).
Proof.
  intros s H a b E Hc. unfold strip in E.
  destruct (lstrip_suffix s) as (wl & Es & Hwl).
  destruct (rstrip_prefix (lstrip s)) as (wr & Er & Hwr).
  rewrite E in Er. rewrite Er in Es.
  apply (own_append_ws _ b wr Hwr) in Hc.
  destruct a as [|x a].
  - apply (H [] s eq_refl). rewrite Es. simpl.
    apply (own_prepend_ws None _ wl (b ++ wr) eq_refl Hwl Hc).
  - apply (H (wl ++ x :: a) (b ++ wr)).
    + rewrite Es. list_assoc.
    + rewrite prev_after_app, (prev_after_ne (x :: a) _ None ltac:(discriminate)). exact Hc.
Qed.
End OwnHeader.

(** ** Before the spaces and tabs were squeezed *)

Lemma squeeze_hspace_split : forall s run u v,
  forallb is_hspace run = true -> (run = [] \/ u <> []) ->
  squeeze_runs is_hspace 1 [SP] run s = u ++ v ->
  exists s1 s2, s = s1 ++ s2 /\
                squeeze_runs is_hspace 1 [SP] run s1 = u /\
                squeeze_runs is_hspace 1 [SP] [] s2 = v.
Proof.
  assert (F0 : flush 1 [SP] [] = []) by reflexivity.
  assert (F1 : forall run, run <> [] -> flush 1 [SP] run = [SP]).
  { intros [|h run] H; [congruence | reflexivity]. }
  induction s as [|x s IH]; intros run u v Hrun Hu E; simpl in E.
  - exists [], []. simpl. split; [reflexivity|].
    destruct run as [|h run].
    + rewrite F0 in *. symmetry in E. apply app_eq_nil in E. destruct E as [-> ->]. auto.
    + rewrite F1 in * by discriminate.
      destruct Hu as [Hu|Hu]; [discriminate|].
      destruct u as [|y u]; [congruence|]. simpl in E. inversion E; subst.
      symmetry in H1. apply app_eq_nil in H1. destruct H1 as [-> ->]. auto.
  - destruct (is_hspace x) eqn:Hx.
    + destruct u as [|y u].
      * destruct Hu as [->|Hu]; [|congruence].
        exists [], (x :: s). simpl. rewrite Hx. auto.
      * destruct (IH (run ++ [x]) (y :: u) v) as (s1 & s2 & -> & E1 & E2); auto.
        -- rewrite forallb_app, Hrun. simpl. rewrite Hx. reflexivity.
        -- right. discriminate.
        -- exists (x :: s1), s2. simpl. rewrite Hx. auto.
    + destruct run as [|h run].
      * rewrite F0 in E. simpl in E.
        destruct u as [|y u].
        -- exists [], (x :: s). simpl. rewrite Hx, ?F0. auto.
        -- simpl in E. inversion E; subst y.
           destruct (IH [] u v eq_refl (or_introl eq_refl) H1) as (s1 & s2 & -> & E1 & E2).
           exists (x :: s1), s2. simpl. rewrite Hx, ?F0, E1. auto.
      * rewrite F1 in E by discriminate. simpl in E.
        destruct Hu as [Hu|Hu]; [discriminate|].
        destruct u as [|y u]; [congruence|]. simpl in E. inversion E; subst y.
        destruct u as [|y u].
        -- exists [], (x :: s). simpl. rewrite Hx, ?F0. simpl in H1. rewrite H1. auto.
        -- simpl in H1. inversion H1; subst y.
           destruct (IH [] u v eq_refl (or_introl eq_refl) H2) as (s1 & s2 & -> & E1 & E2).
           exists (x :: s1), s2. simpl. rewrite Hx, E1. auto.
Qed.

Lemma squeeze_hspace_app_inv : forall s u v,
  squeeze_hspace s = u ++ v ->
  exists s1 s2, s = s1 ++ s2 /\ squeeze_hspace s1 = u /\ squeeze_hspace s2 = v.
Proof.
  intros s u v E. apply (squeeze_hspace_split s [] u v eq_refl (or_introl eq_refl) E).
Qed.

Lemma squeeze_has_sp : forall s run,
  (run <> [] \/ existsb is_hspace s = true) ->
  In SP (squeeze_runs is_hspace 1 [SP] run s).
Proof.
  induction s as [|x s IH]; intros run H; simpl.
  - destruct H as [H|H]; [|discriminate]. destruct run; [congruence | left; reflexivity].
  - destruct (is_hspace x) eqn:Hx.
    + apply IH. left. intros E. apply app_eq_nil in E. destruct E as [_ E]. discriminate.
    + apply in_or_app. destruct run as [|h run].
      * right. right. apply IH. right. destruct H as [H|H]; [congruence|].
        simpl in H. rewrite Hx in H. exact H.
      * left. left. reflexivity.
Qed.

Lemma squeeze_keeps : forall s run x,
  In x s -> is_hspace x = true \/ In x (squeeze_runs is_hspace 1 [SP] run s).
Proof.
  induction s as [|y s IH]; intros run x H; [contradiction|].
  simpl. destruct H as [->|H].
  - destruct (is_hspace x) eqn:Hx; [auto|]. right. apply in_or_app. right. left. reflexivity.
  - destruct (is_hspace y).
    + apply IH. exact H.
    + destruct (IH [] x H) as [Hh|Hin]; [auto|]. right. apply in_or_app. right. right. exact Hin.
Qed.

Lemma squeeze_hspace_plain_inv : forall s u,
  forallb (fun c => negb (is_hspace c)) u = true -> squeeze_hspace s = u -> s = u.
Proof.
  intros s u Hu E.
  assert (Hs : existsb is_hspace s = false).
  { destruct (existsb is_hspace s) eqn:Ex; [|reflexivity].
    pose proof (squeeze_has_sp s [] (or_intror Ex)) as Hin.
    fold (squeeze_hspace s) in Hin. rewrite E in Hin.
    rewrite forallb_forall in Hu. apply Hu in Hin. discriminate Hin. }
  rewrite <- E. symmetry. unfold squeeze_hspace.
  apply (squeeze_runs_fixed is_hspace 1 [SP] s []).
  apply runs_lt_none; [lia|].
  apply forallb_forall. intros x Hx. apply negb_true_iff.
  destruct (is_hspace x) eqn:Hh; [|reflexivity].
  assert (existsb is_hspace s = true) by (apply existsb_exists; eauto). congruence.
Qed.

Lemma squeeze_hspace_ws_inv : forall s,
  forallb isspace (squeeze_hspace s) = true -> forallb isspace s = true.
Proof.
  intros s H. apply forallb_forall. intros x Hx.
  destruct (squeeze_keeps s [] x Hx) as [Hh|Hin].
  - apply hspace_isspace. exact Hh.
  - rewrite forallb_forall in H. apply H. exact Hin.
Qed.

Lemma squeeze_hspace_nil_inv : forall s, squeeze_hspace s = [] -> s = [].
Proof.
  intros [|x s] H; [reflexivity|]. exfalso. unfold squeeze_hspace in H. simpl in H.
  destruct (is_hspace x) eqn:Hx.
  - destruct (squeeze_runs_head_class is_hspace 1 [SP] s [x])
      as (h & t & E & _); try reflexivity; try discriminate.
    + simpl. rewrite Hx. reflexivity.
    + simpl in E. rewrite E in H. discriminate.
  - discriminate H.
Qed.

Lemma squeeze_hspace_eol_inv : forall s,
  at_eol (squeeze_hspace s) = true -> at_eol s = true.
Proof.
  intros [|x s] H; [reflexivity|]. unfold squeeze_hspace in H. simpl in H. simpl.
  destruct (is_hspace x) eqn:Hx.
  - destruct (squeeze_runs_head_class is_hspace 1 [SP] s [x])
      as (h & t & E & Hh); try reflexivity; try discriminate.
    + simpl. rewrite Hx. reflexivity.
    + simpl in E. rewrite E in H. simpl in H.
      destruct (hspace_facts h Hh) as (F & _). unfold is_lf in F. congruence.
  - exact H.
Qed.

Lemma squeeze_hspace_bol_inv : forall s a,
  squeeze_hspace s = a -> at_bol (prev_after None a) = true ->
  at_bol (prev_after None s) = true.
Proof.
  intros s a E Hb. destruct (rev a) as [|z r] eqn:Er.
  - apply (f_equal (@rev char)) in Er. rewrite rev_involutive in Er. simpl in Er. subst a.
    apply squeeze_hspace_nil_inv in Er. subst s. reflexivity.
  - apply (f_equal (@rev char)) in Er. rewrite rev_involutive in Er. simpl in Er. subst a.
    rewrite Er, prev_after_last in Hb. simpl in Hb. apply N.eqb_eq in Hb. subst z.
    apply squeeze_hspace_app_inv in Er. destruct Er as (s1 & s2 & -> & _ & E2).
    apply (squeeze_hspace_plain_inv s2 [LF] eq_refl) in E2. subst s2.
    rewrite prev_after_last. reflexivity.
Qed.

Lemma wordy_no_hspace : forall c,
  forallb wordy c = true -> forallb (fun x => negb (is_hspace x)) c = true.
Proof.
  intros c H. eapply forallb_imp; [|exact H]. intros x Hx.
  apply negb_true_iff. destruct (is_hspace x) eqn:E; [|reflexivity].
  apply hspace_isspace in E. rewrite (wordy_not_space x Hx) in E. discriminate.
Qed.

Lemma own_free_squeeze : forall label s,
  forallb wordy label = true ->
  own_free label s -> own_free label (squeeze_hspace s).
Proof.
  intros label s Hlab H a b E (c & s' & -> & M).
  apply own_header_inv in M.
  destruct M as (Hb & He & (w1 & kw & w2 & lab & w3 & -> & H1 & Hk & H2 & Hne & Hl & H3)).
  apply squeeze_hspace_app_inv in E. destruct E as (a2 & b2 & -> & Ea & Eb).
  rewrite <- !app_assoc in Eb.
  apply squeeze_hspace_app_inv in Eb. destruct Eb as (W1 & t1 & -> & E1 & Eb).
  apply squeeze_hspace_app_inv in Eb. destruct Eb as (K & t2 & -> & EK & Eb).
  apply squeeze_hspace_app_inv in Eb. destruct Eb as (W2 & t3 & -> & E2 & Eb).
  apply squeeze_hspace_app_inv in Eb. destruct Eb as (Lb & t4 & -> & EL & Eb).
  apply squeeze_hspace_app_inv in Eb. destruct Eb as (W3 & R & -> & E3 & ER).
  destruct (keyword_shape kw Hk) as (_ & _ & _ & _ & _ & Wk).
  apply (squeeze_hspace_plain_inv K kw (wordy_no_hspace kw Wk)) in EK. subst K.
  pose proof (ci_text_wordy label lab Hlab Hl) as Wl.
  apply (squeeze_hspace_plain_inv Lb lab (wordy_no_hspace lab Wl)) in EL. subst Lb.
  apply (H a2 (W1 ++ kw ++ W2 ++ lab ++ W3 ++ R) eq_refl).
  exists (W1 ++ kw ++ W2 ++ lab ++ W3), R. split; [list_assoc|].
  apply own_header_intro.
  - apply (squeeze_hspace_bol_inv a2 _ Ea Hb).
  - apply squeeze_hspace_eol_inv. rewrite ER. exact He.
  - exists W1, kw, W2, lab, W3. repeat split; auto.
    + apply squeeze_hspace_ws_inv. rewrite E1. exact H1.
    + apply squeeze_hspace_ws_inv. rewrite E2. exact H2.
    + intros ->. apply Hne. rewrite <- E2. reflexivity.
    + apply squeeze_hspace_ws_inv. rewrite E3. exact H3.
Qed.

(** * C6: the header of a block *)

Lemma app_split : forall (X : Type) (a b u v : list X),
  a ++ b = u ++ v ->
  (exists t, u = a ++ t /\ b = t ++ v) \/
  (exists t, t <> [] /\ a = u ++ t /\ v = t ++ b).
Proof.
  intros X a. induction a as [|x a IH]; intros b u v E.
  - left. exists u. auto.
  - destruct u as [|y u].
    + right. exists (x :: a). split; [discriminate | auto].
    + simpl in E. inversion E; subst y.
      destruct (IH b u v H1) as [(t & -> & ->)|(t & Hne & -> & ->)].
      * left. exists t. auto.
      * right. exists t. auto.
Qed.

Lemma app_same_length : forall (X : Type) (a b a' b' : list X),
  a ++ b = a' ++ b' -> length a = length a' -> a = a' /\ b = b'.
Proof.
  intros X a. induction a as [|x a IH]; intros b a' b' E L;
    destruct a' as [|y a']; simpl in L; try lia; [auto|].
  simpl in E. inversion E; subst. destruct (IH b a' b' H1) as [-> ->]; [lia | auto].
Qed.

Lemma lstrip_ws_app : forall w s, forallb isspace w = true -> lstrip (w ++ s) = lstrip s.
Proof.
  induction w as [|x w IH]; intros s H; [reflexivity|].
  simpl in H. apply andb_true_iff in H. destruct H as [Hx Hw].
  simpl. rewrite Hx. apply IH. exact Hw.
Qed.

Lemma rstrip_app_keep : forall u z, u <> [] -> ends_ok u -> rstrip (u ++ z) = u ++ rstrip z.
Proof.
  intros u z Hne He. unfold rstrip. rewrite rev_app_distr, lstrip_app.
  destruct (lstrip (rev z)) as [|y t] eqn:E.
  - rewrite lstrip_fixed by (apply ends_ok_rev; exact He).
    rewrite rev_involutive. simpl. symmetry. apply app_nil_r.
  - rewrite rev_app_distr, rev_involutive. reflexivity.
Qed.

Lemma nospace_ends : forall s,
  forallb (fun x => negb (isspace x)) s = true -> headed_ok s /\ ends_ok s.
Proof.
  intros s H. split.
  - destruct s as [|x s]; [exact I|]. simpl in H. apply andb_true_iff in H.
    simpl. apply negb_true_iff. tauto.
  - apply ends_ok_rev. destruct (rev s) as [|z r] eqn:E; [exact I|].
    simpl. rewrite forallb_forall in H. apply negb_true_iff. apply H.
    apply in_rev. rewrite E. left. reflexivity.
Qed.

Lemma ends_ok_app : forall u v, v <> [] -> ends_ok v -> ends_ok (u ++ v).
Proof.
  intros u v Hne H. unfold ends_ok in *. rewrite last_app_nonempty by exact Hne. exact H.
Qed.

Lemma last_wordy_not_bol : forall pv s,
  s <> [] -> forallb wordy s = true -> at_bol (prev_after pv s) = false.
Proof.
  intros pv s Hne H. destruct (rev s) as [|z r] eqn:E.
  - apply (f_equal (@rev char)) in E. rewrite rev_involutive in E. simpl in E. congruence.
  - apply (f_equal (@rev char)) in E. rewrite rev_involutive in E. simpl in E. subst s.
    rewrite prev_after_last. simpl.
    rewrite forallb_app in H. apply andb_true_iff in H. destruct H as [_ H].
    simpl in H. rewrite andb_true_r in H. apply wordy_not_space in H.
    destruct (N.eqb_spec z LF) as [->|]; [discriminate H | reflexivity].
Qed.

Lemma pasal_bol : forall pv c s', matches PASAL_ANY_RE pv c s' -> at_bol pv = true.
Proof.
  intros pv c s' M. unfold PASAL_ANY_RE in M.
  apply matches_seq_inv in M. destruct M as (c1 & c2 & _ & M & _).
  apply matches_bol_inv in M. tauto.
Qed.

(** A header of the label, found where the text goes on with white space
    [tw] and then [post], is a header for [PASAL_ANY_RE] too. *)
Lemma pasal_of_own : forall label pv pv1 cb rb tw post,
  label_like label -> at_bol pv = true ->
  header_text label cb -> at_eol rb = true -> forallb isspace tw = true ->
  (post = [] \/ at_bol (prev_after pv1 (cb ++ rb ++ tw)) = true) ->
  can_match PASAL_ANY_RE pv (cb ++ rb ++ tw ++ post).
Proof.
  intros label pv pv1 cb rb tw post Hlab Hb
         (w1 & kw & w2 & lab & w3 & -> & H1 & Hk & H2 & Hne & Hl & H3) He Htw Hpost.
  pose proof (label_ci label lab Hlab Hl) as Hlab'.
  destruct rb as [|y rb].
  - destruct post as [|p post].
    + exists (w1 ++ kw ++ w2 ++ lab ++ w3 ++ tw), []. split; [rewrite !app_nil_r; list_assoc|].
      apply pasal_intro; auto. rewrite forallb_app, H3, Htw. reflexivity.
    + destruct Hpost as [Hpost|Hpost]; [discriminate|].
      assert (E0 : (w1 ++ kw ++ w2 ++ lab ++ w3) ++ [] ++ tw
                   = (w1 ++ kw ++ w2) ++ lab ++ (w3 ++ tw)) by list_assoc.
      rewrite E0, prev_after_app in Hpost. clear E0.
      destruct (rev (w3 ++ tw)) as [|z r] eqn:E.
      * apply (f_equal (@rev char)) in E. rewrite rev_involutive in E. simpl in E.
        rewrite E, app_nil_r in Hpost.
        rewrite (last_wordy_not_bol _ lab (label_ne lab Hlab') (label_wordy lab Hlab')) in Hpost.
        discriminate.
      * apply (f_equal (@rev char)) in E. rewrite rev_involutive in E. simpl in E.
        rewrite E, (app_assoc lab (rev r) [z]), prev_after_last in Hpost. simpl in Hpost.
        apply N.eqb_eq in Hpost. subst z.
        exists (w1 ++ kw ++ w2 ++ lab ++ rev r), (LF :: p :: post). split.
        -- simpl. repeat rewrite <- app_assoc. do 4 f_equal.
           rewrite (app_assoc w3), E. list_assoc.
        -- apply pasal_intro; auto.
           assert (F : forallb isspace (w3 ++ tw) = true) by (rewrite forallb_app, H3, Htw; reflexivity).
           rewrite E, forallb_app in F. apply andb_true_iff in F. tauto.
  - exists (w1 ++ kw ++ w2 ++ lab ++ w3), ((y :: rb) ++ tw ++ post). split; [list_assoc|].
    apply pasal_intro; auto.
Qed.

(** ** One block

    A block that begins with the header [w1 ++ kw ++ w2 ++ lab ++ w3], goes
    on with [mid], and is followed by [post], where [post] is empty or
    begins with the next header and no header begins inside [mid]. *)

Lemma header_text_ne : forall label c, header_text label c -> c <> [].
Proof.
  intros label c (w1 & kw & w2 & lab & w3 & -> & _ & Hk & _) F.
  destruct (keyword_shape kw Hk) as (k & kt & -> & _).
  destruct (app_eq_nil _ _ F) as [_ F1]. discriminate.
Qed.

Lemma scan_nil_intro : forall r s pv i,
  (forall a b, s = a ++ b -> ~ can_match r (prev_after pv a) b) ->
  scan r pv s i 0 = [].
Proof.
  intros r s. induction s as [|x s IH]; intros pv i H; simpl.
  - rewrite match_at_none; [reflexivity | exact (H [] [] eq_refl)].
  - rewrite match_at_none by exact (H [] (x :: s) eq_refl).
    apply IH. intros a b E. rewrite <- (prev_after_cons pv x a). apply H. rewrite E. reflexivity.
Qed.

Lemma slice_at : forall (p x q : str) i j,
  i = length p -> j = i + length x -> slice (p ++ x ++ q) i j = x.
Proof.
  intros p x q i j -> ->. unfold slice.
  rewrite skipn_app, skipn_all, Nat.sub_diag. simpl.
  replace (length p + length x - length p) with (length x + 0) by lia.
  rewrite firstn_app_2. simpl. apply app_nil_r.
Qed.

Ltac list_norm := repeat (progress (repeat rewrite <- app_assoc; cbn [app])); reflexivity.

Section Block.
Variables (pv0 : option char) (w1 kw w2 lab w3 mid post : str).
Hypothesis Hw1 : forallb isspace w1 = true.
Hypothesis Hkw : ci_text (py "Pasal") kw.
Hypothesis Hw2 : forallb isspace w2 = true.
Hypothesis Hw2ne : w2 <> [].
Hypothesis Hlab : label_like lab.
Hypothesis Hw3 : forallb isspace w3 = true.
Hypothesis Heol : at_eol (mid ++ post) = true.
Hypothesis Hpost :
  post = [] \/ at_bol (prev_after pv0 ((w1 ++ kw ++ w2 ++ lab ++ w3) ++ mid)) = true.
Hypothesis Hgap : forall x y,
  (w1 ++ kw ++ w2 ++ lab ++ w3) ++ mid = x ++ y -> x <> [] ->
  length (w1 ++ kw ++ w2 ++ lab ++ w3) <= length x -> y <> [] ->
  ~ can_match PASAL_ANY_RE (prev_after pv0 x) (y ++ post).

Lemma strip_span :
  strip ((w1 ++ kw ++ w2 ++ lab ++ w3) ++ mid) = kw ++ w2 ++ lab ++ rstrip (w3 ++ mid).
Proof.
  destruct (keyword_shape kw Hkw) as (k & kt & Ek & Hk & _ & _).
  unfold strip. rewrite <- app_assoc, lstrip_ws_app by exact Hw1.
  rewrite lstrip_fixed by (rewrite Ek; simpl; exact Hk).
  assert (E : (kw ++ w2 ++ lab ++ w3) ++ mid = (kw ++ w2 ++ lab) ++ w3 ++ mid) by list_assoc.
  rewrite E, rstrip_app_keep; [list_assoc | |].
  - rewrite Ek. discriminate.
  - rewrite app_assoc. apply ends_ok_app; [apply label_ne; exact Hlab|].
    apply nospace_ends, wordy_no_space, label_wordy. exact Hlab.
Qed.

Lemma tail_shape : exists w rest,
  rstrip (w3 ++ mid) = w ++ rest /\ forallb isspace w = true /\ at_eol rest = true.
Proof.
  destruct (rstrip_prefix (w3 ++ mid)) as (tw & Etw & Htw).
  destruct (app_split _ _ _ _ _ (eq_sym Etw)) as [(t & E1 & E2)|(t & Hne & E1 & E2)].
  - exists (rstrip (w3 ++ mid)), []. rewrite app_nil_r. repeat split.
    rewrite E1, forallb_app in Hw3. apply andb_true_iff in Hw3. tauto.
  - exists w3, t. repeat split; [exact E1 | exact Hw3 |].
    destruct t as [|z t]; [reflexivity|]. rewrite E2 in Heol. exact Heol.
Qed.

Lemma header_first : can_match (own_header_re lab) None (kw ++ w2 ++ lab ++ rstrip (w3 ++ mid)).
Proof.
  destruct tail_shape as (w & rest & E & Hw & He).
  exists (kw ++ w2 ++ lab ++ w), rest. split; [rewrite E; list_assoc|].
  apply own_header_intro; [reflexivity | exact He |].
  exists [], kw, w2, lab, w. repeat split; auto. apply ci_text_refl.
Qed.

(** After the header of the block, no header of the block's label begins
    in the stripped span: it would be a header for [PASAL_ANY_RE] inside the
    block, or it would begin inside the header line. *)
Lemma no_later_header : forall a b,
  kw ++ w2 ++ lab ++ rstrip (w3 ++ mid) = a ++ b -> a <> [] ->
  ~ can_match (own_header_re lab) (prev_after None a) b.
Proof.
  intros a b E Hne (cb & rb & Eb & M).
  apply own_header_inv in M. destruct M as (Hb & He & Hh).
  destruct (rstrip_prefix (w3 ++ mid)) as (tw & Etw & Htw).
  assert (E1 : a ++ b ++ tw = kw ++ w2 ++ lab ++ w3 ++ mid).
  { rewrite app_assoc, <- E. repeat rewrite <- app_assoc. do 3 f_equal.
    symmetry. exact Etw. }
  destruct (keyword_shape kw Hkw) as (k0 & kt0 & Ek0 & Hk0 & _ & Hkwordy).
  pose proof (label_wordy lab Hlab) as Hlw.
  destruct (app_split _ _ _ _ _ E1) as [(t & Ek & _)|(t1 & Ht1 & Ea & E2)].
  { (* the position is inside the keyword *)
    rewrite Ek, forallb_app in Hkwordy. apply andb_true_iff in Hkwordy.
    rewrite (last_wordy_not_bol None a Hne) in Hb by tauto. discriminate. }
  destruct (app_split _ _ _ _ _ (eq_sym E2)) as [(t & E3 & E4)|(t2 & Ht2 & Et1 & E4)].
  { (* inside the white space before the label *)
    destruct Hh as (w1' & kw' & w2' & lab' & w3' & Ecb & H1 & Hk & _).
    destruct (keyword_shape kw' Hk) as (k & kt & Ek & Hks & Hkc & _).
    destruct lab as [|l0 lt] eqn:El; [exfalso; exact (label_ne [] Hlab eq_refl)|].
    assert (Ht : forallb isspace t = true).
    { rewrite E3, forallb_app in Hw2. apply andb_true_iff in Hw2. tauto. }
    assert (E5 : t ++ l0 :: lt ++ w3 ++ mid
                 = w1' ++ k :: kt ++ w2' ++ lab' ++ w3' ++ rb ++ tw).
    { change (t ++ l0 :: lt ++ w3 ++ mid) with (t ++ (l0 :: lt) ++ w3 ++ mid).
      rewrite <- E4, Eb, Ecb, Ek. list_assoc. }
    destruct (ws_prefix _ _ _ _ _ Ht H1 Hks E5) as (w1'' & Ew & Es).
    destruct w1'' as [|x w1'']; simpl in Es; inversion Es; subst.
    - rewrite (label_first _ _ Hlab) in Hkc. discriminate.
    - rewrite forallb_app in H1. apply andb_true_iff in H1. destruct H1 as [_ H1].
      simpl in H1. apply andb_true_iff in H1. destruct H1 as [H1 _].
      simpl in Hlw. apply andb_true_iff in Hlw. destruct Hlw as [Hlw _].
      apply wordy_not_space in Hlw. congruence. }
  destruct (app_split _ _ _ _ _ (eq_sym E4)) as [(t & E5 & _)|(t3 & Ht3 & Et2 & E6)].
  { (* inside the label *)
    rewrite E5, forallb_app in Hlw. apply andb_true_iff in Hlw.
    rewrite Ea, Et1, !app_assoc, prev_after_app in Hb.
    rewrite (last_wordy_not_bol _ t2 Ht2) in Hb by tauto. discriminate. }
  destruct Hh as (w1' & kw' & w2' & lab' & w3' & Ecb & H1 & Hk & H2 & H2ne & Hl & H3).
  destruct (keyword_shape kw' Hk) as (k & kt & Ek & Hks & Hkc & _).
  destruct (app_split _ _ _ _ _ (eq_sym E6)) as [(t & E7 & E8)|(t4 & Ht4 & Et3 & E8)].
  - (* inside the white space that ends the header line *)
    assert (Ht : forallb isspace t = true).
    { rewrite E7, forallb_app in Hw3. apply andb_true_iff in Hw3. tauto. }
    destruct mid as [|m0 mid1] eqn:Em.
    + assert (E9 : t ++ [] = w1' ++ k :: kt ++ w2' ++ lab' ++ w3' ++ rb ++ tw).
      { rewrite <- E8, Eb, Ecb, Ek. list_assoc. }
      destruct (ws_prefix _ _ _ _ _ Ht H1 Hks E9) as (w1'' & _ & Es).
      destruct w1''; discriminate.
    + assert (m0 = LF) by (simpl in Heol; apply N.eqb_eq; exact Heol). subst m0.
      assert (Ht' : forallb isspace (t ++ [LF]) = true)
        by (rewrite forallb_app, Ht; reflexivity).
      assert (E9 : (t ++ [LF]) ++ mid1
                   = w1' ++ k :: kt ++ w2' ++ lab' ++ w3' ++ rb ++ tw).
      { rewrite <- app_assoc. simpl. rewrite <- E8, Eb, Ecb, Ek. list_assoc. }
      destruct (ws_prefix _ _ _ _ _ Ht' H1 Hks E9) as (w1'' & Ew & Es).
      assert (Hw'' : forallb isspace w1'' = true).
      { rewrite Ew, forallb_app in H1. apply andb_true_iff in H1. tauto. }
      apply (Hgap ((w1 ++ kw ++ w2 ++ lab ++ w3) ++ [LF]) mid1).
      * list_assoc.
      * intro F. destruct (app_eq_nil _ _ F). discriminate.
      * rewrite !length_app. simpl. lia.
      * rewrite Es. intro F. destruct (app_eq_nil _ _ F). discriminate.
      * rewrite prev_after_last.
        assert (E10 : mid1 ++ post
                      = (w1'' ++ kw' ++ w2' ++ lab' ++ w3') ++ rb ++ tw ++ post).
        { rewrite Es, Ek. list_norm. }
        rewrite E10.
        apply (pasal_of_own lab (Some LF) (Some LF)); auto.
        -- exists w1'', kw', w2', lab', w3'. repeat split; auto.
        -- destruct Hpost as [Hp|Hp]; [left; exact Hp | right].
           assert (E11 : (w1 ++ kw ++ w2 ++ lab ++ w3) ++ LF :: mid1
                         = ((w1 ++ kw ++ w2 ++ lab ++ w3) ++ [LF])
                           ++ (w1'' ++ kw' ++ w2' ++ lab' ++ w3') ++ rb ++ tw).
           { rewrite Es, Ek. list_norm. }
           rewrite E11, prev_after_app, prev_after_last in Hp. exact Hp.
  - (* after the header line *)
    assert (Hbne : b <> []).
    { rewrite Eb, Ecb, Ek. intro F. destruct (app_eq_nil _ _ F) as [F1 _].
      destruct (app_eq_nil _ _ F1) as [_ F2]. discriminate. }
    apply (Hgap ((w1 ++ kw ++ w2 ++ lab ++ w3) ++ t4) (b ++ tw)).
    + rewrite E8. list_assoc.
    + intro F. destruct (app_eq_nil _ _ F). contradiction.
    + rewrite !length_app. simpl. lia.
    + intro F. destruct (app_eq_nil _ _ F). contradiction.
    + rewrite prev_after_app, (prev_after_ne t4 _ None Ht4).
      assert (Ep : prev_after None a = prev_after None t4).
      { rewrite Ea, Et1, Et2, Et3, !app_assoc, prev_after_app.
        apply prev_after_ne. exact Ht4. }
      rewrite Ep in Hb.
      assert (E10 : (b ++ tw) ++ post = cb ++ rb ++ tw ++ post) by (rewrite Eb; list_assoc).
      rewrite E10.
      apply (pasal_of_own lab _ (prev_after pv0 ((w1 ++ kw ++ w2 ++ lab ++ w3) ++ t4)));
        auto.
      * exists w1', kw', w2', lab', w3'. repeat split; auto.
      * destruct Hpost as [Hp|Hp]; [left; exact Hp | right].
        rewrite E8, Eb in Hp.
        assert (E11 : (w1 ++ kw ++ w2 ++ lab ++ w3) ++ t4 ++ (cb ++ rb) ++ tw
                      = ((w1 ++ kw ++ w2 ++ lab ++ w3) ++ t4) ++ cb ++ rb ++ tw)
          by list_assoc.
        rewrite E11, prev_after_app in Hp. exact Hp.
Qed.

(** Removing the header lines of the label from the stripped span removes
    the header of the block and nothing else, and what is left has no header
    line of the label. *)
Lemma header_removed : exists header rest,
  strip ((w1 ++ kw ++ w2 ++ lab ++ w3) ++ mid) = header ++ rest /\
  header_text lab header /\ at_eol rest = true /\
  re_sub (own_header_re lab) [] (header ++ rest) = rest /\
  own_free lab rest.
Proof.
  rewrite strip_span.
  destruct (match_at (own_header_re lab) None (kw ++ w2 ++ lab ++ rstrip (w3 ++ mid)) 0)
    as [m0|] eqn:Em; [|exfalso; exact (match_at_some _ _ _ 0 header_first Em)].
  destruct (match_at_sound _ _ _ _ _ Em) as (_ & c0 & r0 & E0 & M & Hend).
  destruct (own_header_inv _ _ _ _ M) as (_ & He0 & Hh).
  pose proof (header_text_ne _ _ Hh) as Hc0.
  assert (F : forall a b, r0 = a ++ b ->
                ~ can_match (own_header_re lab) (prev_after None (c0 ++ a)) b).
  { intros a b E. apply no_later_header.
    - rewrite E0, E. apply app_assoc.
    - intro N. destruct (app_eq_nil _ _ N). contradiction. }
  exists c0, r0. repeat split; auto.
  - rewrite re_sub_rewrite. rewrite E0 in Em.
    rewrite (rewrite_scan_match _ _ _ _ _ _ _ Em Hend Hc0). simpl.
    apply rewrite_scan_none. intros a1 a2 E. rewrite <- prev_after_app. apply F. exact E.
  - intros a b E. destruct a as [|x a].
    + simpl in E. subst b. intro Hc. simpl in Hc.
      destruct r0 as [|z r0].
      * destruct Hc as (c & s' & Ec & Mc). symmetry in Ec.
        destruct (app_eq_nil _ _ Ec) as [-> _].
        apply own_header_inv in Mc. destruct Mc as (_ & _ & Hc).
        exact (header_text_ne _ _ Hc eq_refl).
      * simpl in He0. apply N.eqb_eq in He0. subst z.
        apply (F [LF] r0 eq_refl). rewrite prev_after_last.
        apply (own_drop_ws lab None (Some LF) [LF] r0); auto.
    + rewrite (prev_after_ne (x :: a) None (prev_after None c0)) by discriminate.
      rewrite <- prev_after_app. apply F. exact E.
Qed.

End Block.

(** ** The blocks of a text *)

Lemma label_strip : forall lab, label_like lab -> strip lab = lab.
Proof.
  intros lab H.
  destruct (nospace_ends lab (wordy_no_space lab (label_wordy lab H))) as [H1 H2].
  apply strip_fixed; [exact H1 | apply ends_ok_rev; exact H2].
Qed.

Lemma block_header_removed : forall full_text m stop,
  In (m, stop) (with_ends (finditer PASAL_ANY_RE full_text) (length full_text)) ->
  label_like (pasal_number (block_of full_text (m, stop))) /\
  exists header rest,
    strip (slice full_text (m_start m) stop) = header ++ rest /\
    header_text (pasal_number (block_of full_text (m, stop))) header /\
    at_eol rest = true /\
    own_free (pasal_number (block_of full_text (m, stop))) rest /\
    text (block_of full_text (m, stop)) = squeeze_hspace (strip rest).
Proof.
  intros full_text m stop Hin.
  destruct (finditer_blocks _ _ _ _ Hin)
    as (a & c & mid & post & ET & Hm & Hend & Hstop & Hp & Hg).
  destruct (pasal_match_inv _ _ _ _ Hm)
    as (_ & w1 & kw & w2 & lab & w3 & rest & Es & Hw1 & Hk & Hw2 & Hne & Hl & Hw3 & He
        & Hst & Hen & Hgs).
  assert (Es' : c ++ (mid ++ post) = (w1 ++ kw ++ w2 ++ lab ++ w3) ++ rest)
    by (rewrite Es; list_assoc).
  destruct (app_same_length _ _ _ _ _ Es') as [Ec Er]; [lia|].
  subst rest.
  assert (Elab : strip (or_empty (group full_text m 1)) = lab).
  { unfold group. rewrite Hgs. simpl or_empty.
    assert (E1 : full_text = (a ++ w1 ++ kw ++ w2) ++ lab ++ (w3 ++ mid ++ post))
      by (rewrite ET, Ec; list_assoc).
    rewrite E1 at 1. rewrite slice_at.
    - apply label_strip. exact Hl.
    - rewrite !length_app. simpl. lia.
    - reflexivity. }
  assert (Espan : slice full_text (m_start m) stop = c ++ mid).
  { assert (E1 : full_text = a ++ (c ++ mid) ++ post) by (rewrite ET; list_assoc).
    rewrite E1 at 1. apply slice_at; [lia|].
    rewrite Hstop, Hst, !length_app. simpl. lia. }
  cbn [block_of pasal_number text]. rewrite Elab. split; [exact Hl|].
  unfold block_body. rewrite Espan, Ec.
  destruct (header_removed (prev_after None a) w1 kw w2 lab w3 mid post)
    as (header & rest & E1 & Hh & Hr & Hsub & Hfree); auto.
  - destruct Hp as [Hp|(c' & s' & _ & M)]; [left; exact Hp | right].
    apply pasal_bol in M. rewrite <- prev_after_app, <- Ec. exact M.
  - intros x y E Hx Hlen Hy. rewrite <- prev_after_app. rewrite <- Ec in E, Hlen.
    apply Hg; assumption.
  - exists header, rest. repeat split; auto.
    rewrite E1, Hsub. apply re_sub_rep. lia.
Qed.

Lemma own_free_finditer : forall label s,
  own_free label s -> finditer (own_header_re label) s = [].
Proof.
  intros label s H. apply scan_nil_intro. exact H.
Qed.

(** C6, as amended: in every block that [detect_structure] returns, the body
    holds no line that is the keyword and the block's own label (in any
    letter case, with white space around them); and the body is the stripped
    span of the block without its first line, the header of the block,
    stripped again and with its runs of spaces and tabs made one space: no
    other text of the span is removed.  The statement is about the body of
    the block, before [minimal_clean]. *)
Theorem C6_body_has_no_own_header : forall full_text,
  Forall (fun blk => finditer (own_header_re (pasal_number blk)) (text blk) = [])
         (detect_structure full_text) /\
  Forall (fun me =>
            exists header rest,
              strip (slice full_text (m_start (fst me)) (snd me)) = header ++ rest /\
              header_text (pasal_number (block_of full_text me)) header /\
              at_eol rest = true /\
              text (block_of full_text me) = squeeze_hspace (strip rest))
         (with_ends (finditer PASAL_ANY_RE full_text) (length full_text)).
Proof.
  intro full_text. split.
  - unfold detect_structure. apply Forall_map, Forall_forall. intros [m stop] Hin.
    destruct (block_header_removed full_text m stop Hin)
      as (Hl & header & rest & _ & _ & _ & Hfree & ->).
    apply own_free_finditer, own_free_squeeze; [apply label_wordy; exact Hl|].
    apply own_free_strip. exact Hfree.
  - apply Forall_forall. intros [m stop] Hin.
    destruct (block_header_removed full_text m stop Hin)
      as (_ & header & rest & E & Hh & He & _ & Et).
    exists header, rest. auto.
Qed.

(** C6, as the specification has it, for the cleaned body: the normalizer
    rejoins a word broken by a hyphen at the end of a line, and so it can
    make a header line of the block's own label.  In the text below the
    body of the one block is [Pa-], [sal 1], [foo], and its cleaned body
    begins with the line [Pasal 1]. *)
Lemma C6_cleaned_body_can_hold_own_header :
  ~ (exists U : Unicodedata, forall full_text,
       Forall (fun blk =>
                 finditer (own_header_re (pasal_number blk)) (clean_text (text blk)) = [])
              (detect_structure full_text)).
Proof.
  intros (U & H). specialize (H (py "Pasal 1\nPa-\nsal 1\nfoo")).
  assert (E : detect_structure (py "Pasal 1\nPa-\nsal 1\nfoo")
              = [ {| pasal_number := py "1"; text := py "Pa-\nsal 1\nfoo";
                     buku := None; bab := None; bagian := None |} ])
    by (vm_compute; reflexivity).
  rewrite E in H. inversion H as [|x l Hx _]; subst. cbn [pasal_number text] in Hx.
  rewrite clean_text_ascii in Hx by (vm_compute; reflexivity).
  vm_compute in Hx. discriminate Hx.
Qed.

(** * Further properties

    ** Reading the text of a document *)

Lemma join_not_in : forall (c : char) sep parts,
  ~ In c sep -> Forall (fun l => ~ In c l) parts -> ~ In c (join sep parts).
Proof.
  intros c sep parts Hs Hp Hin. apply join_in in Hin.
  destruct Hin as [Hin|(l & Hl & Hin)]; [exact (Hs Hin)|].
  rewrite Forall_forall in Hp. exact (Hp l Hl Hin).
Qed.

(** X1: the text that [read_pdf_text] returns holds no carriage return,
    whichever extractor it comes from and whether or not an extractor
    raises. *)
Theorem X1_read_pdf_text_has_no_carriage_return : forall (w : World) pdf_path,
  ~ In CR (read_pdf_text w pdf_path).
Proof.
  intros w p.
  assert (H1 : forall t, _extract_with_pypdf w p = Ok t -> ~ In CR t).
  { unfold _extract_with_pypdf. intros t E.
    destruct (pypdf_pages w p) as [pages|e]; [|discriminate]. inversion E; subst t.
    apply join_not_in.
    - simpl. intros [F|[]]. discriminate F.
    - apply Forall_map, Forall_forall. intros pg _. apply remove_char_not_in. }
  assert (H2 : forall t, _extract_with_pdfminer w p = Ok t -> ~ In CR t).
  { unfold _extract_with_pdfminer. intros t E.
    destruct (pdfminer_extract_text w p) as [txt|e]; [|discriminate]. inversion E; subst t.
    apply remove_char_not_in. }
  unfold read_pdf_text.
  destruct (_extract_with_pypdf w p) as [t|e].
  - specialize (H1 t eq_refl).
    destruct (length t <? 500); [|exact H1].
    destruct (_extract_with_pdfminer w p) as [alt|e']; [|exact H1].
    destruct (length t <? length alt); [exact (H2 alt eq_refl) | exact H1].
  - cbn [length]. change (0 <? 500) with true. cbv iota.
    destruct (_extract_with_pdfminer w p) as [alt|e']; [|intros []].
    destruct (0 <? length alt); [exact (H2 alt eq_refl) | intros []].
Qed.

(** The text of the first extractor, empty when it raises. *)
Definition pypdf_text (w : World) (pdf_path : str) : str :=
  match _extract_with_pypdf w pdf_path with
  | Ok t => t
  | Raise _ => []
  end.

(** X2: [read_pdf_text] returns the first extractor's text when it has 500
    characters or more, and then the second extractor plays no part; the
    text returned is never shorter than the first extractor's; and it is
    the second extractor's text only when that text is strictly longer than
    a first text of fewer than 500 characters. *)
Theorem X2_read_pdf_text_fallback : forall (w : World) pdf_path,
  let txt := pypdf_text w pdf_path in
  let r := read_pdf_text w pdf_path in
  (500 <= length txt -> r = txt) /\
  length txt <= length r /\
  (r = txt \/
   (_extract_with_pdfminer w pdf_path = Ok r /\ length txt < 500 /\ length txt < length r)) /\
  (forall e, _extract_with_pdfminer w pdf_path = Raise e -> r = txt).
Proof.
  intros w p. unfold read_pdf_text, pypdf_text.
  set (txt := match _extract_with_pypdf w p with Ok t => t | Raise _ => [] end).
  cbv zeta.
  destruct (Nat.ltb_spec (length txt) 500) as [Hlt|Hge].
  - destruct (_extract_with_pdfminer w p) as [alt|e'].
    + destruct (Nat.ltb_spec (length txt) (length alt)) as [Hl|Hl].
      * split; [lia|]. split; [lia|]. split; [right; auto|]. intros e F. discriminate F.
      * split; [reflexivity|]. split; [lia|]. split; [left; reflexivity|]. reflexivity.
    + split; [reflexivity|]. split; [lia|]. split; [left; reflexivity|]. reflexivity.
  - split; [reflexivity|]. split; [lia|]. split; [left; reflexivity|]. reflexivity.
Qed.

(** ** Line starts

    [line_starts] adds [len(ln) + 1] per line: it counts every line
    boundary as one character.  [str.splitlines] takes a carriage return and
    the line feed after it as one boundary, so the offsets are the offsets
    in the text when the text holds no carriage return, which is so for the
    text that [read_pdf_text] returns. *)

(** [ln] is the line of [s] that begins at offset [p]. *)
Definition line_at (s : str) (p : nat) (ln : str) : Prop :=
  exists pre post,
    s = pre ++ ln ++ post /\ p = length pre /\
    (pre = [] \/ exists pre' b, pre = pre' ++ [b] /\ is_linebreak b = true) /\
    (post = [] \/ exists b post', post = b :: post' /\ is_linebreak b = true).

Lemma line_starts_from_lower : forall lines pos,
  Forall (fun p => pos <= p) (line_starts_from pos lines).
Proof.
  induction lines as [|ln lines IH]; intro pos; simpl; constructor; [lia|].
  eapply Forall_impl; [|apply IH]. simpl. intros p H. lia.
Qed.

Lemma Forall2_with : forall (X Y : Type) (P R : X -> Y -> Prop) (Q : X -> Prop) l1 l2,
  (forall a b, P a b -> Q a -> R a b) ->
  Forall2 P l1 l2 -> Forall Q l1 -> Forall2 R l1 l2.
Proof.
  intros X Y P R Q l1 l2 H F. induction F as [|a b l1 l2 Hab F IH]; intro HQ.
  - constructor.
  - inversion HQ; subst. constructor; auto.
Qed.

Lemma line_at_shift : forall x s p ln,
  line_at s p ln -> (p = 0 -> is_linebreak x = true) -> line_at (x :: s) (S p) ln.
Proof.
  intros x s p ln (pre & post & E & Hp & Hpre & Hpost) Hx.
  exists (x :: pre), post. split; [rewrite E; reflexivity|].
  split; [simpl; lia|]. split; [right | exact Hpost].
  destruct Hpre as [->|(pre' & b & -> & Hb)].
  - exists [], x. split; [reflexivity | apply Hx; exact Hp].
  - exists (x :: pre'), b. split; [reflexivity | exact Hb].
Qed.

Lemma line_starts_are_offsets : forall s pos,
  ~ In CR s ->
  Forall2 (fun p ln => pos <= p /\ line_at s (p - pos) ln)
          (line_starts_from pos (splitlines s)) (splitlines s).
Proof.
  induction s as [|x s IH]; intros pos Hcr; [constructor|].
  assert (Hx : N.eqb x CR = false).
  { destruct (N.eqb_spec x CR) as [->|]; [|reflexivity]. exfalso. apply Hcr. left. reflexivity. }
  assert (Hs : ~ In CR s) by (intro F; apply Hcr; right; exact F).
  cbn [splitlines]. rewrite Hx.
  destruct (is_linebreak x) eqn:Hb.
  - cbn [line_starts_from length]. constructor.
    + split; [lia|]. rewrite Nat.sub_diag. exists [], (x :: s).
      split; [reflexivity|]. split; [reflexivity|]. split; [left; reflexivity|].
      right. exists x, s. auto.
    + eapply Forall2_impl; [|apply (IH (pos + (0 + 1)) Hs)].
      intros p ln [Hp Hl]. split; [lia|].
      replace (p - pos) with (S (p - (pos + (0 + 1)))) by lia.
      apply line_at_shift; auto.
  - pose proof (IH (pos + 1) Hs) as H.
    destruct (splitlines s) as [|l ls] eqn:El.
    + apply splitlines_nil in El. subst s. cbn [line_starts_from]. constructor; [|constructor].
      split; [lia|]. rewrite Nat.sub_diag. exists [], []. repeat split; auto.
    + cbn [line_starts_from] in *. inversion H as [|a b l1 l2 [_ Hl] Ht]; subst.
      constructor.
      * split; [lia|]. rewrite Nat.sub_diag.
        replace (pos + 1 - (pos + 1)) with 0 in Hl by lia.
        destruct Hl as (pre & post & E & Hp & _ & Hpost).
        destruct pre; [|discriminate]. exists [], post.
        split; [rewrite E; reflexivity|]. repeat split; auto.
      * replace (pos + (length (x :: l) + 1)) with (pos + 1 + (length l + 1))
          by (simpl; lia).
        eapply Forall2_with; [|exact Ht | apply line_starts_from_lower].
        intros p ln [Hp Hl'] Hq. cbv beta in Hq. split; [lia|].
        replace (p - pos) with (S (p - (pos + 1))) by lia.
        apply line_at_shift; [exact Hl' | lia].
Qed.

Lemma marks_of_lines : forall (P : nat -> str -> Prop) re kind starts lines p tag,
  Forall2 P starts lines -> In (p, tag) (marks_of re kind starts lines) ->
  exists ln m, P p ln /\ re_match re ln = Some m /\
    tag = mkTag kind (strip (or_empty (group ln m 1))) (strip (or_empty (group ln m 2))).
Proof.
  intros P re kind starts lines p tag F. induction F as [|st ln starts lines Hst F IH];
    intro Hin; [destruct Hin|].
  cbn [marks_of] in Hin. apply in_app_or in Hin. destruct Hin as [Hin|Hin]; [|auto].
  unfold mark_of in Hin. destruct (re_match re ln) as [m|] eqn:Em; [|destruct Hin].
  destruct Hin as [Hin|[]]. inversion Hin; subst. exists ln, m. auto.
Qed.

(** A marker of a family: its offset is the offset of a line of the text,
    the family's pattern matches the line, and the tag is read from the
    groups of the match. *)
Definition marker_at (re : regex) (kind : string) (full_text : str) (mark : nat * Tag)
  : Prop :=
  exists ln m,
    line_at full_text (fst mark) ln /\ re_match re ln = Some m /\
    snd mark = mkTag kind (strip (or_empty (group ln m 1)))
                          (strip (or_empty (group ln m 2))).

Lemma marks_of_markers : forall re kind full_text,
  ~ In CR full_text ->
  Forall (marker_at re kind full_text)
         (marks_of re kind (line_starts_from 0 (splitlines full_text))
                   (splitlines full_text)).
Proof.
  intros re kind full_text Hcr. apply Forall_forall. intros [p tag] Hin.
  destruct (marks_of_lines _ re kind _ _ p tag (line_starts_are_offsets full_text 0 Hcr) Hin)
    as (ln & m & [_ Hl] & Hm & Ht).
  rewrite Nat.sub_0_r in Hl. exists ln, m. auto.
Qed.

(** X3: in a text without carriage return, the offset recorded with every
    book, chapter and section marker is the offset in the text of the line
    that the marker's pattern matched: the text holds that line at that
    offset, between two line boundaries or the ends of the text. *)
Theorem X3_marker_offsets_are_line_offsets : forall full_text,
  ~ In CR full_text ->
  Forall (marker_at BUKU_RE "BUKU" full_text) (buku_marks full_text) /\
  Forall (marker_at BAB_RE "BAB" full_text) (bab_marks full_text) /\
  Forall (marker_at BAGIAN_RE "BAGIAN" full_text) (bagian_marks full_text).
Proof.
  intros full_text Hcr. unfold buku_marks, bab_marks, bagian_marks.
  repeat split; apply marks_of_markers; exact Hcr.
Qed.

Lemma X3_marker_offsets_are_line_offsets_witness :
  ~ In CR (py "BUKU I\nBAB II Umum\nPasal 1") /\
  Forall (marker_at BAB_RE "BAB" (py "BUKU I\nBAB II Umum\nPasal 1"))
         (bab_marks (py "BUKU I\nBAB II Umum\nPasal 1")).
Proof.
  assert (H : ~ In CR (py "BUKU I\nBAB II Umum\nPasal 1")).
  { intro F. vm_compute in F. repeat (destruct F as [F|F]; [discriminate F|]). exact F. }
  split; [exact H|].
  exact (proj1 (proj2 (X3_marker_offsets_are_line_offsets _ H))).
Defined.

(** ** Where the blocks begin *)

(** An article header stands after [pv], at the head of [s]: a line start,
    white space, the keyword in any letter case, white space, a label and
    white space up to the end of a line. *)
Definition header_here (pv : option char) (s : str) : Prop :=
  at_bol pv = true /\
  exists w1 kw w2 lab w3 rest,
    s = w1 ++ kw ++ w2 ++ lab ++ w3 ++ rest /\
    forallb isspace w1 = true /\ ci_text (py "Pasal") kw /\
    forallb isspace w2 = true /\ w2 <> [] /\ label_like lab /\
    forallb isspace w3 = true /\ at_eol rest = true.

Lemma header_here_match : forall pv s, can_match PASAL_ANY_RE pv s <-> header_here pv s.
Proof.
  intros pv s. split.
  - intro Hc. destruct (match_at PASAL_ANY_RE pv s 0) as [m|] eqn:Em;
      [|exfalso; exact (match_at_some _ _ _ 0 Hc Em)].
    destruct (pasal_match_inv _ _ _ _ Em)
      as (Hb & w1 & kw & w2 & lab & w3 & rest & E & H1 & Hk & H2 & Hne & Hl & H3 & He & _).
    split; [exact Hb|]. exists w1, kw, w2, lab, w3, rest. repeat split; auto.
  - intros (Hb & w1 & kw & w2 & lab & w3 & rest & E & H1 & Hk & H2 & Hne & Hl & H3 & He).
    exists (w1 ++ kw ++ w2 ++ lab ++ w3), rest. split; [rewrite E; list_assoc|].
    apply pasal_intro; auto.
Qed.

Lemma pasal_match_proper : forall pv s i m,
  match_at PASAL_ANY_RE pv s i = Some m -> i < m_end m.
Proof.
  intros pv s i m H.
  destruct (pasal_match_inv _ _ _ _ H)
    as (_ & w1 & kw & w2 & lab & w3 & rest & _ & _ & Hk & _ & _ & _ & _ & _ & _ & Hen & _).
  destruct (keyword_shape kw Hk) as (k & kt & -> & _).
  rewrite Hen, !length_app. simpl. lia.
Qed.

(** Every position at which the pattern can match lies in one of the matches
    that the scan returns. *)
Lemma scan_covers : forall r,
  (forall pv s i m, match_at r pv s i = Some m -> i < m_end m) ->
  forall s pv i skip a b,
  s = a ++ b -> skip <= length a -> can_match r (prev_after pv a) b ->
  Exists (fun m => m_start m <= i + length a < m_end m) (scan r pv s i skip).
Proof.
  intros r Hr s. induction s as [|x s IH]; intros pv i skip a b E Hs Hc.
  - symmetry in E. apply app_eq_nil in E. destruct E as [-> ->]. simpl in Hs.
    assert (skip = 0) by lia. subst skip. cbn [scan].
    destruct (match_at r pv [] i) as [m|] eqn:Em;
      [|exfalso; exact (match_at_some _ _ _ i Hc Em)].
    apply Exists_cons_hd. destruct (match_at_sound _ _ _ _ _ Em) as (Hst & _).
    pose proof (Hr _ _ _ _ Em). simpl. lia.
  - destruct skip as [|sk]; cbn [scan].
    + destruct (match_at r pv (x :: s) i) as [m|] eqn:Em.
      * destruct (match_at_sound _ _ _ _ _ Em) as (Hst & _).
        destruct (Nat.lt_ge_cases (i + length a) (m_end m)) as [Hin|Hout].
        -- apply Exists_cons_hd. lia.
        -- apply Exists_cons_tl. pose proof (Hr _ _ _ _ Em) as Hp.
           destruct a as [|y a]; [simpl in Hout; lia|].
           simpl in E. injection E as Ey Es. subst y.
           rewrite prev_after_cons in Hc.
           replace (i + length (x :: a)) with (S i + length a) by (simpl; lia).
           apply (IH (Some x) (S i) (m_end m - S i) a b); [exact Es | | assumption].
           simpl in Hout. lia.
      * destruct a as [|y a].
        -- simpl in E. subst b. exfalso. exact (match_at_some _ _ _ i Hc Em).
        -- simpl in E. injection E as Ey Es. subst y. rewrite prev_after_cons in Hc.
           replace (i + length (x :: a)) with (S i + length a) by (simpl; lia).
           apply (IH (Some x) (S i) 0 a b); [exact Es | lia | assumption].
    + destruct a as [|y a]; [simpl in Hs; lia|].
      simpl in E. injection E as Ey Es. subst y. rewrite prev_after_cons in Hc.
      replace (i + length (x :: a)) with (S i + length a) by (simpl; lia).
      apply (IH (Some x) (S i) sk a b); [exact Es | simpl in Hs; lia | assumption].
Qed.

(** The parts of a block: the text before it, its header, the rest of its
    span and the text after it. *)
Lemma block_parts : forall full_text m stop,
  In (m, stop) (with_ends (finditer PASAL_ANY_RE full_text) (length full_text)) ->
  exists a w1 kw w2 lab w3 mid post,
    full_text = a ++ (w1 ++ kw ++ w2 ++ lab ++ w3) ++ mid ++ post /\
    m_start m = length a /\
    m_end m = length a + length (w1 ++ kw ++ w2 ++ lab ++ w3) /\
    stop = length a + length ((w1 ++ kw ++ w2 ++ lab ++ w3) ++ mid) /\
    at_bol (prev_after None a) = true /\
    forallb isspace w1 = true /\ ci_text (py "Pasal") kw /\
    forallb isspace w2 = true /\ w2 <> [] /\ label_like lab /\
    forallb isspace w3 = true /\ at_eol (mid ++ post) = true /\
    (post = [] \/
     can_match PASAL_ANY_RE
       (prev_after None (a ++ (w1 ++ kw ++ w2 ++ lab ++ w3) ++ mid)) post) /\
    (forall x y, (w1 ++ kw ++ w2 ++ lab ++ w3) ++ mid = x ++ y -> x <> [] ->
       length (w1 ++ kw ++ w2 ++ lab ++ w3) <= length x -> y <> [] ->
       ~ can_match PASAL_ANY_RE (prev_after None (a ++ x)) (y ++ post)) /\
    pasal_number (block_of full_text (m, stop)) = lab.
Proof.
  intros full_text m stop Hin.
  destruct (finditer_blocks _ _ _ _ Hin)
    as (a & c & mid & post & ET & Hm & Hend & Hstop & Hp & Hg).
  destruct (pasal_match_inv _ _ _ _ Hm)
    as (Hb & w1 & kw & w2 & lab & w3 & rest & Es & Hw1 & Hk & Hw2 & Hne & Hl & Hw3 & He
        & Hst & Hen & Hgs).
  assert (Es' : c ++ (mid ++ post) = (w1 ++ kw ++ w2 ++ lab ++ w3) ++ rest)
    by (rewrite Es; list_assoc).
  destruct (app_same_length _ _ _ _ _ Es') as [Ec Er]; [lia|].
  subst rest c.
  exists a, w1, kw, w2, lab, w3, mid, post.
  split; [exact ET|]. split; [lia|]. split; [lia|].
  split; [rewrite Hstop; repeat rewrite length_app; simpl; lia|].
  repeat (split; [assumption|]).
  cbn [block_of pasal_number]. unfold group. rewrite Hgs. simpl or_empty.
  assert (E1 : full_text = (a ++ w1 ++ kw ++ w2) ++ lab ++ (w3 ++ mid ++ post))
    by (rewrite ET; list_assoc).
  rewrite E1 at 1. rewrite slice_at.
  - apply label_strip. exact Hl.
  - rewrite !length_app. simpl. lia.
  - reflexivity.
Qed.

Lemma nil_or_last : forall (X : Type) (l : list X),
  l = [] \/ exists l' z, l = l' ++ [z].
Proof.
  intros X l. induction l as [|z l' _] using rev_ind; [left; reflexivity | right].
  exists l', z. reflexivity.
Qed.

(** X4: the label of every block is a run of decimal digits with at most
    one letter after it, or a run of roman numeral letters; it is not empty
    and holds no white space; and the stripped span of the block begins with
    the keyword, white space and that very label, after which the span ends or
    white space follows. *)
Theorem X4_block_labels : forall full_text,
  Forall (fun blk => label_like (pasal_number blk) /\
                     forallb (fun c => negb (isspace c)) (pasal_number blk) = true)
         (detect_structure full_text) /\
  Forall (fun me =>
            exists kw w rest,
              strip (slice full_text (m_start (fst me)) (snd me))
              = kw ++ w ++ pasal_number (block_of full_text me) ++ rest /\
              ci_text (py "Pasal") kw /\ forallb isspace w = true /\ w <> [] /\
              (rest = [] \/ headed_by isspace rest = true))
         (with_ends (finditer PASAL_ANY_RE full_text) (length full_text)).
Proof.
  intro full_text. split.
  - unfold detect_structure. apply Forall_map, Forall_forall. intros [m stop] Hin.
    destruct (block_parts full_text m stop Hin)
      as (a & w1 & kw & w2 & lab & w3 & mid & post & _ & _ & _ & _ & _ & _ & _ & _ & _
          & Hl & _ & _ & _ & _ & ->).
    split; [exact Hl | apply wordy_no_space, label_wordy; exact Hl].
  - apply Forall_forall. intros [m stop] Hin.
    destruct (block_parts full_text m stop Hin)
      as (a & w1 & kw & w2 & lab & w3 & mid & post & ET & Hst & _ & Hstop & _ & Hw1 & Hk
          & Hw2 & Hne & Hl & Hw3 & He & Hp & _ & ->).
    cbn [fst snd]. exists kw, w2, (rstrip (w3 ++ mid)).
    assert (Espan : slice full_text (m_start m) stop = (w1 ++ kw ++ w2 ++ lab ++ w3) ++ mid).
    { assert (E1 : full_text = a ++ ((w1 ++ kw ++ w2 ++ lab ++ w3) ++ mid) ++ post)
        by (rewrite ET; list_assoc).
      rewrite E1 at 1. apply slice_at; lia. }
    rewrite Espan, (strip_span w1 kw w2 lab w3 mid Hw1 Hk Hl).
    repeat split; auto.
    destruct (tail_shape (prev_after None a) w1 kw w2 lab w3 mid post Hw3 He)
      as (w & r & -> & Hw & Hr).
    { destruct Hp as [Hp|(c' & s' & _ & M)]; [left; exact Hp | right].
      apply pasal_bol in M. rewrite <- prev_after_app. exact M. }
    destruct w as [|z w].
    + destruct r as [|z r]; [left; reflexivity | right].
      simpl in Hr. apply N.eqb_eq in Hr. subst z. reflexivity.
    + right. simpl in Hw. apply andb_true_iff in Hw. simpl. tauto.
Qed.

(** X5: no block is empty, no block goes beyond the end of the text, and
    every block begins at the start of a line: at offset 0 or just after a
    line feed. *)
Theorem X5_blocks_begin_at_line_starts : forall full_text,
  Forall (fun se => fst se < snd se /\ snd se <= length full_text /\
                    (fst se = 0 \/ nth_error full_text (fst se - 1) = Some LF))
         (block_spans full_text).
Proof.
  intro full_text. unfold block_spans. apply Forall_map, Forall_forall.
  intros [m stop] Hin. cbn [fst snd].
  destruct (block_parts full_text m stop Hin)
    as (a & w1 & kw & w2 & lab & w3 & mid & post & ET & Hst & _ & Hstop & Hb & _ & Hk & _).
  destruct (keyword_shape kw Hk) as (k & kt & Ek & _).
  assert (Hlen : length full_text
                 = length a + length ((w1 ++ kw ++ w2 ++ lab ++ w3) ++ mid) + length post).
  { rewrite ET at 1. rewrite app_assoc, !length_app. lia. }
  split; [|split].
  - rewrite Hst, Hstop, Ek. repeat rewrite length_app. simpl. lia.
  - lia.
  - destruct (nil_or_last _ a) as [Ea|(a' & z & Ea)]; [left; rewrite Hst, Ea; reflexivity|].
    right. rewrite Ea, prev_after_last in Hb. simpl in Hb. apply N.eqb_eq in Hb. subst z.
    rewrite Hst, ET, Ea, length_app. simpl.
    replace (length a' + 1 - 1) with (length a' + 0) by lia.
    rewrite <- !app_assoc. rewrite nth_error_app2 by lia.
    replace (length a' + 0 - length a') with 0 by lia. reflexivity.
Qed.

(** A header stands at offset [p] of the text. *)
Definition header_at (full_text : str) (p : nat) : Prop :=
  header_here (prev_after None (firstn p full_text)) (skipn p full_text).

Lemma firstn_skipn_at : forall (X : Type) (a b : list X),
  firstn (length a) (a ++ b) = a /\ skipn (length a) (a ++ b) = b.
Proof.
  intros X a b. induction a as [|x a [IH1 IH2]]; [split; reflexivity|].
  simpl. rewrite IH1, IH2. split; reflexivity.
Qed.

Lemma header_at_split : forall a b,
  header_at (a ++ b) (length a) <-> can_match PASAL_ANY_RE (prev_after None a) b.
Proof.
  intros a b. unfold header_at.
  destruct (firstn_skipn_at _ a b) as [-> ->]. symmetry. apply header_here_match.
Qed.

Lemma increasing_from_all : forall ms lo,
  increasing_from lo ms -> Forall (fun m => lo <= m_start m) ms.
Proof.
  induction ms as [|m ms IH]; intros lo H; constructor.
  - destruct H as [H _]. exact H.
  - destruct H as [H1 H2]. eapply Forall_impl; [|apply (IH _ H2)].
    simpl. intros m' H'. lia.
Qed.

Lemma header_is_found : forall full_text p,
  header_at full_text p ->
  Exists (fun m => m_start m <= p) (finditer PASAL_ANY_RE full_text).
Proof.
  intros full_text p H. unfold header_at in H. apply header_here_match in H.
  pose proof (scan_covers PASAL_ANY_RE pasal_match_proper full_text None 0 0
                (firstn p full_text) (skipn p full_text)
                (eq_sym (firstn_skipn p full_text)) (Nat.le_0_l _) H) as Hc.
  apply Exists_exists in Hc. destruct Hc as (m & Hin & Hm).
  apply Exists_exists. exists m. split; [exact Hin|].
  pose proof (length_firstn p full_text) as Hl. simpl in Hm. lia.
Qed.

(** X6: the blocks are cut at the headers of the text.  Every block begins
    at a header; no header begins between the end of a block's header and
    the end of the block; no header begins before the first block; and a text
    gives no block exactly when no header stands anywhere in it. *)
Theorem X6_blocks_are_cut_at_headers : forall full_text,
  Forall (fun me =>
            header_at full_text (m_start (fst me)) /\
            forall p, m_end (fst me) <= p < snd me -> ~ header_at full_text p)
         (with_ends (finditer PASAL_ANY_RE full_text) (length full_text)) /\
  (forall p, p < hd (length full_text) (map fst (block_spans full_text)) ->
             ~ header_at full_text p) /\
  (detect_structure full_text = [] <-> forall p, ~ header_at full_text p).
Proof.
  intro full_text. split; [|split].
  - apply Forall_forall. intros [m stop] Hin. cbn [fst snd].
    destruct (block_parts full_text m stop Hin)
      as (a & w1 & kw & w2 & lab & w3 & mid & post & ET & Hst & Hen & Hstop & Hb & Hw1 & Hk
          & Hw2 & Hne & Hl & Hw3 & He & _ & Hg & _).
    split.
    + rewrite Hst, ET. apply header_at_split, header_here_match.
      split; [exact Hb|]. exists w1, kw, w2, lab, w3, (mid ++ post).
      repeat split; auto. list_assoc.
    + intros p [Hp1 Hp2] H.
      set (c := w1 ++ kw ++ w2 ++ lab ++ w3) in *.
      pose proof (firstn_skipn (p - length a) (c ++ mid)) as Exy.
      assert (Hx : length (firstn (p - length a) (c ++ mid)) = p - length a)
        by (rewrite length_firstn; lia).
      assert (Hy : length (skipn (p - length a) (c ++ mid)) = stop - p)
        by (rewrite length_skipn; lia).
      revert Exy Hx Hy.
      generalize (firstn (p - length a) (c ++ mid)), (skipn (p - length a) (c ++ mid)).
      intros x y Exy Hx Hy.
      apply (Hg x y).
      * symmetry. exact Exy.
      * intro F. rewrite F in Hx. simpl in Hx.
        destruct (keyword_shape kw Hk) as (k & kt & Ek & _).
        unfold c in Hen. rewrite Ek in Hen. repeat rewrite length_app in Hen.
        simpl in Hen. lia.
      * lia.
      * intro F. rewrite F in Hy. simpl in Hy. lia.
      * apply header_at_split.
        replace (length (a ++ x)) with p by (rewrite length_app; lia).
        replace ((a ++ x) ++ y ++ post) with full_text; [exact H|].
        rewrite ET, <- (app_assoc a x), (app_assoc x y post), Exy. list_assoc.
  - intros p Hp H. apply header_is_found in H. rewrite block_spans_starts in Hp.
    pose proof (scan_increasing PASAL_ANY_RE full_text None 0 0) as Hi.
    fold (finditer PASAL_ANY_RE full_text) in Hi.
    destruct (finditer PASAL_ANY_RE full_text) as [|m0 ms]; [inversion H|].
    simpl in Hp, Hi. destruct Hi as [_ Hi]. apply increasing_from_all in Hi.
    apply Exists_exists in H. destruct H as (m & [<-|Hin] & Hm); [lia|].
    rewrite Forall_forall in Hi. specialize (Hi m Hin). simpl in Hi. lia.
  - split.
    + intros E p H. apply header_is_found in H. unfold detect_structure in E.
      destruct (finditer PASAL_ANY_RE full_text) as [|m0 ms]; [inversion H|].
      discriminate E.
    + intro H. unfold detect_structure.
      replace (finditer PASAL_ANY_RE full_text) with (@nil Match); [reflexivity|].
      symmetry. apply scan_nil_intro. intros a b E Hc.
      apply (H (length a)). rewrite E. apply header_at_split. exact Hc.
Qed.

(** ** The shape of a cleaned text *)

Lemma tidy_in : forall a x b,
  tidy (a ++ x :: b) = true ->
  is_lf x = true \/ (is_linebreak x = false /\ (isspace x = false \/ at_eol b = false)).
Proof.
  intros a x b H. apply tidy_suffix in H. apply tidy_head. exact H.
Qed.

Lemma runs_lt_no_run : forall p n a run b,
  runs_lt p n 0 (a ++ run ++ b) = true -> forallb p run = true -> length run < n.
Proof.
  intros p n a run b H Hr. apply runs_lt_suffix in H.
  rewrite (runs_lt_run p n run 0 b Hr) in H. apply runs_lt_lt in H. simpl in H. exact H.
Qed.

(** X7: whatever the text, the text that [minimal_clean] returns holds no
    U+0000; its only line boundary is the line feed; it neither begins nor
    ends with white space; no white space stands before a line feed, so no
    line ends in white space; it has no four line feeds in a row; and it has
    no two spaces or tabs in a row. *)
Theorem X7_cleaned_text_shape : forall (U : Unicodedata) t,
  let c := clean_text t in
  ~ In NUL c /\
  (forall x, In x c -> is_linebreak x = true -> x = LF) /\
  headed_by isspace c = false /\
  headed_by isspace (rev c) = false /\
  (forall a x b, c = a ++ x :: LF :: b -> isspace x = true -> x = LF) /\
  (forall a b, c <> a ++ [LF; LF; LF; LF] ++ b) /\
  (forall a x y b, c = a ++ x :: y :: b -> is_hspace x = true -> is_hspace y = false).
Proof.
  intros U t c.
  destruct (clean_normalized_shape (normalize_NFKC (remove_char NUL t)))
    as (Ht & Hh & Hr & Hl & Hs).
  fold (clean_text t) in Ht, Hh, Hr, Hl, Hs. fold c in Ht, Hh, Hr, Hl, Hs.
  split; [apply clean_text_no_nul|].
  split; [|split; [|split; [|split; [|split]]]].
  - intros x Hin Hb. apply in_split in Hin. destruct Hin as (a & b & E).
    rewrite E in Ht. destruct (tidy_in a x b Ht) as [H|[H _]].
    + apply N.eqb_eq. exact H.
    + congruence.
  - destruct c as [|x c']; [reflexivity | exact Hh].
  - destruct (rev c) as [|x c']; [reflexivity | exact Hr].
  - intros a x b E Hx. rewrite E in Ht. destruct (tidy_in a x (LF :: b) Ht) as [H|[_ [H|H]]].
    + apply N.eqb_eq. exact H.
    + congruence.
    + discriminate H.
  - intros a b E. rewrite E in Hl.
    pose proof (runs_lt_no_run is_lf 4 a [LF; LF; LF; LF] b Hl eq_refl) as H.
    simpl in H. lia.
  - intros a x y b E Hx. destruct (is_hspace y) eqn:Hy; [exfalso | reflexivity].
    rewrite E in Hs. change (a ++ x :: y :: b) with (a ++ [x; y] ++ b) in Hs.
    assert (F : forallb is_hspace [x; y] = true) by (simpl; rewrite Hx, Hy; reflexivity).
    pose proof (runs_lt_no_run is_hspace 2 a [x; y] b Hs F) as H. simpl in H. lia.
Qed.

(** ** What cleaning keeps *)

(** The characters of a text that are not white space, in order. *)
Definition content (s : str) : str := filter (fun c => negb (isspace c)) s.

(** The text without the hyphens that stand immediately before a line
    feed. *)
Fixpoint drop_break_hyphens (s : str) : str :=
  match s with
  | [] => []
  | x :: s' =>
      if is_hyphen x && headed_by is_lf s' then drop_break_hyphens s'
      else x :: drop_break_hyphens s'
  end.

Lemma content_app : forall a b, content (a ++ b) = content a ++ content b.
Proof. intros a b. apply filter_app. Qed.

Lemma content_blank : forall w, forallb isspace w = true -> content w = [].
Proof.
  induction w as [|x w IH]; intro H; [reflexivity|].
  simpl in H. apply andb_true_iff in H. destruct H as [Hx Hw].
  simpl. rewrite Hx. simpl. auto.
Qed.

Lemma content_lstrip : forall s, content (lstrip s) = content s.
Proof.
  intro s. destruct (lstrip_suffix s) as (w & E & Hw).
  rewrite E at 2. rewrite content_app, (content_blank w Hw). reflexivity.
Qed.

Lemma content_rstrip : forall s, content (rstrip s) = content s.
Proof.
  intro s. destruct (rstrip_prefix s) as (w & E & Hw).
  rewrite E at 2. rewrite content_app, (content_blank w Hw). symmetry. apply app_nil_r.
Qed.

Lemma content_strip : forall s, content (strip s) = content s.
Proof. intro s. unfold strip. rewrite content_rstrip. apply content_lstrip. Qed.

Lemma content_squeeze_runs : forall p n repl,
  (forall c, p c = true -> isspace c = true) -> forallb isspace repl = true ->
  forall s run, forallb isspace run = true ->
  content (squeeze_runs p n repl run s) = content s.
Proof.
  intros p n repl Hp Hrepl. 
  assert (Hf : forall run, forallb isspace run = true -> content (flush n repl run) = []).
  { intros run Hrun. unfold flush. destruct (n <=? length run); apply content_blank; assumption. }
  induction s as [|x s IH]; intros run Hrun; cbn [squeeze_runs].
  - apply Hf. exact Hrun.
  - destruct (p x) eqn:Hx.
    + rewrite IH by (rewrite forallb_app, Hrun; simpl; rewrite (Hp x Hx); reflexivity).
      simpl. rewrite (Hp x Hx). reflexivity.
    + rewrite content_app, (Hf run Hrun). simpl.
      rewrite (IH [] eq_refl). reflexivity.
Qed.

Lemma content_join_rstrip : forall lines,
  content (join [LF] (map rstrip lines)) = content (concat lines).
Proof.
  induction lines as [|l lines IH]; [reflexivity|].
  destruct lines as [|l' lines].
  - simpl. rewrite app_nil_r. apply content_rstrip.
  - change (map rstrip (l :: l' :: lines)) with (rstrip l :: map rstrip (l' :: lines)).
    change (join [LF] (rstrip l :: map rstrip (l' :: lines)))
      with (rstrip l ++ [LF] ++ join [LF] (map rstrip (l' :: lines))).
    rewrite !content_app, IH, content_rstrip. cbn [concat].
    rewrite (content_app l). reflexivity.
Qed.

Lemma content_splitlines : forall s, content (concat (splitlines s)) = content s.
Proof.
  assert (H : forall n s, length s <= n -> content (concat (splitlines s)) = content s).
  { induction n as [|n IH]; intros s Hn.
    - destruct s; [reflexivity | simpl in Hn; lia].
    - destruct s as [|x s]; [reflexivity|]. simpl in Hn. cbn [splitlines].
      destruct (N.eqb_spec x CR) as [->|Hx].
      + destruct s as [|y s]; [reflexivity|].
        destruct (N.eqb_spec y LF) as [->|Hy].
        * cbn [concat app]. rewrite IH by (simpl in Hn; lia). reflexivity.
        * cbn [concat app]. rewrite IH by lia. reflexivity.
      + destruct (is_linebreak x) eqn:Hb.
        * cbn [concat app]. rewrite IH by lia. simpl.
          rewrite (linebreak_isspace x Hb). reflexivity.
        * specialize (IH s ltac:(lia)).
          destruct (splitlines s) as [|l ls] eqn:El.
          -- apply splitlines_nil in El. subst s. reflexivity.
          -- cbn [concat] in *. change ((x :: l) ++ concat ls) with (x :: (l ++ concat ls)).
             simpl. simpl in IH. rewrite IH. reflexivity. }
  intro s. apply (H (length s)). lia.
Qed.

Lemma content_drop_blank : forall w s,
  forallb isspace w = true ->
  content (drop_break_hyphens (w ++ s)) = content (drop_break_hyphens s).
Proof.
  induction w as [|x w IH]; intros s H; [reflexivity|].
  simpl in H. apply andb_true_iff in H. destruct H as [Hx Hw].
  cbn [app drop_break_hyphens].
  assert (Hh : is_hyphen x = false).
  { unfold is_hyphen. destruct (N.eqb_spec x HYPHEN) as [->|]; [discriminate Hx | reflexivity]. }
  rewrite Hh. simpl. rewrite Hx. simpl. apply IH. exact Hw.
Qed.

Lemma content_rejoin_scan : forall n s pv i,
  length s <= n ->
  content (rewrite_scan HYPHEN_BREAK_RE [] pv s i 0) = content (drop_break_hyphens s).
Proof.
  induction n as [|n IH]; intros s pv i Hn.
  - destruct s; [|simpl in Hn; lia]. cbn [rewrite_scan].
    rewrite match_at_none; [reflexivity|].
    intro Hc. apply can_match_hyphen_break in Hc. destruct Hc as (s' & F). discriminate F.
  - destruct s as [|x s].
    + cbn [rewrite_scan]. rewrite match_at_none; [reflexivity|].
      intro Hc. apply can_match_hyphen_break in Hc. destruct Hc as (s' & F). discriminate F.
    + simpl in Hn. cbn [drop_break_hyphens].
      destruct (is_hyphen x && headed_by is_lf s) eqn:Hb.
      * apply andb_true_iff in Hb. destruct Hb as [Hx Hs].
        apply N.eqb_eq in Hx. subst x.
        destruct s as [|y s]; [discriminate Hs|]. simpl in Hs. apply N.eqb_eq in Hs. subst y.
        destruct (max_run isspace s) as (ws & b & E & Hws & Hnb). subst s.
        pose proof (match_at_hyphen_break ws b pv i Hws Hnb) as Hm.
        change (HYPHEN :: LF :: ws ++ b) with ((HYPHEN :: LF :: ws) ++ b) in Hm |- *.
        rewrite (rewrite_scan_match _ _ _ _ _ _ _ Hm eq_refl) by discriminate.
        cbn [app]. rewrite IH by (simpl in Hn; rewrite length_app in Hn; lia).
        change (drop_break_hyphens (LF :: ws ++ b))
          with (drop_break_hyphens ((LF :: ws) ++ b)).
        symmetry. apply content_drop_blank. simpl. exact Hws.
      * cbn [rewrite_scan]. rewrite match_at_none.
        -- change (content (x :: ?t)) with (content ([x] ++ t)).
           simpl. rewrite (IH s (Some x) (S i)) by lia. reflexivity.
        -- intro Hc. apply can_match_hyphen_break in Hc. destruct Hc as (s' & F).
           inversion F; subst. discriminate Hb.
Qed.

Lemma content_rejoin : forall t,
  content (rejoin_hyphenation t) = content (drop_break_hyphens t).
Proof.
  intro t. unfold rejoin_hyphenation. rewrite re_sub_rewrite.
  apply (content_rejoin_scan (length t)). lia.
Qed.

Lemma drop_no_break : forall s, has_hyphen_break s = false -> drop_break_hyphens s = s.
Proof.
  induction s as [|x s IH]; intro H; [reflexivity|].
  simpl in H. apply orb_false_iff in H. destruct H as [H1 H2].
  cbn [drop_break_hyphens]. rewrite H1, (IH H2). reflexivity.
Qed.

Lemma content_clean_normalized : forall t,
  content (clean_normalized t) = content (drop_break_hyphens t).
Proof.
  intro t. unfold clean_normalized, collapse_hspaces, collapse_newlines, rstrip_lines.
  rewrite content_strip.
  unfold HSPACES2_RE, NEWLINES4_RE. rewrite !re_sub_rep by lia.
  rewrite content_squeeze_runs; auto using hspace_isspace.
  rewrite content_squeeze_runs; auto using lf_isspace.
  rewrite content_join_rstrip, content_splitlines. apply content_rejoin.
Qed.

(** X8: after the U+0000 characters are removed and the text is put in NFKC
    form, [minimal_clean] removes only white space and the hyphens that stand
    immediately before a line feed: every other character is kept, in order.
    Where no hyphen stands before a line feed only white space changes, and
    a text of white space only is cleaned to the empty text. *)
Theorem X8_cleaning_keeps_the_content : forall (U : Unicodedata) t,
  let n := normalize_NFKC (remove_char NUL t) in
  content (clean_text t) = content (drop_break_hyphens n) /\
  (has_hyphen_break n = false -> content (clean_text t) = content n) /\
  (forallb isspace n = true -> clean_text t = []).
Proof.
  intros U t n. unfold clean_text. fold n.
  pose proof (content_clean_normalized n) as H.
  split; [exact H|]. split.
  - intro Hb. rewrite H, (drop_no_break n Hb). reflexivity.
  - intro Hn.
    assert (Hb : has_hyphen_break n = false).
    { clear H. induction n as [|x n' IH]; [reflexivity|].
      simpl in Hn. apply andb_true_iff in Hn. destruct Hn as [Hx Hn'].
      simpl. rewrite (IH Hn'), orb_false_r.
      unfold is_hyphen. destruct (N.eqb_spec x HYPHEN) as [->|]; [discriminate Hx | reflexivity]. }
    rewrite (drop_no_break n Hb), (content_blank n Hn) in H.
    destruct (clean_normalized_shape n) as (_ & Hh & _).
    destruct (clean_normalized n) as [|x c]; [reflexivity|].
    simpl in Hh. simpl in H. rewrite Hh in H. discriminate H.
Qed.

(** ** What structure detection keeps *)

Lemma content_nospace : forall s,
  forallb (fun c => negb (isspace c)) s = true -> content s = s.
Proof.
  induction s as [|x s IH]; intro H; [reflexivity|].
  simpl in H. apply andb_true_iff in H. destruct H as [Hx Hs].
  simpl. rewrite Hx, (IH Hs). reflexivity.
Qed.

Lemma content_squeeze_hspace : forall s, content (squeeze_hspace s) = content s.
Proof.
  intro s. unfold squeeze_hspace.
  apply content_squeeze_runs; auto using hspace_isspace.
Qed.

(** X9: the characters of a block's span that are not white space are the
    keyword, the label of the block and the characters of the body that are
    not white space, in that order: between the span and the body of a block,
    structure detection takes out the keyword and the label of the header,
    once, and white space, and nothing else. *)
Theorem X9_block_keeps_the_content : forall full_text,
  Forall (fun me =>
            exists kw,
              ci_text (py "Pasal") kw /\
              content (slice full_text (m_start (fst me)) (snd me))
              = kw ++ pasal_number (block_of full_text me)
                   ++ content (text (block_of full_text me)))
         (with_ends (finditer PASAL_ANY_RE full_text) (length full_text)).
Proof.
  intro full_text. apply Forall_forall. intros [m stop] Hin. cbn [fst snd].
  destruct (block_header_removed full_text m stop Hin)
    as (Hl & header & rest & E & Hh & _ & _ & Et).
  destruct Hh as (w1 & kw & w2 & lab & w3 & -> & H1 & Hk & H2 & _ & Hc & H3).
  destruct (block_parts full_text m stop Hin)
    as (a & v1 & k & v2 & l & v3 & mid & post & ET & Hst & _ & Hstop & _ & Hv1 & Hk'
        & Hv2 & _ & Hl' & Hv3 & _ & _ & _ & El).
  rewrite El in *.
  pose proof (ci_text_wordy _ _ keyword_wordy Hk) as Hkw.
  pose proof (ci_text_wordy _ _ keyword_wordy Hk') as Hkw'.
  pose proof (ci_text_wordy _ _ (label_wordy _ Hl) Hc) as Hlw.
  pose proof (label_wordy _ Hl) as Hlw'.
  (* the stripped span, read from the header that was removed *)
  assert (A : content (strip (slice full_text (m_start m) stop))
              = kw ++ lab ++ content rest).
  { rewrite E. repeat rewrite content_app.
    rewrite (content_blank w1 H1), (content_blank w2 H2), (content_blank w3 H3).
    rewrite (content_nospace kw (wordy_no_space kw Hkw)).
    rewrite (content_nospace lab (wordy_no_space lab Hlw)).
    list_norm. }
  (* the stripped span, read from the match of the header *)
  assert (B : content (strip (slice full_text (m_start m) stop))
              = k ++ l ++ content (rstrip (v3 ++ mid))).
  { assert (E1 : full_text = a ++ ((v1 ++ k ++ v2 ++ l ++ v3) ++ mid) ++ post)
      by (rewrite ET; list_assoc).
    rewrite E1 at 1. rewrite slice_at by lia.
    rewrite (strip_span v1 k v2 l v3 mid Hv1 Hk' Hl'). repeat rewrite content_app.
    rewrite (content_blank v2 Hv2).
    rewrite (content_nospace k (wordy_no_space k Hkw')).
    rewrite (content_nospace l (wordy_no_space l Hlw')).
    list_norm. }
  rewrite A in B.
  pose proof (ci_text_length _ _ Hk) as L1. pose proof (ci_text_length _ _ Hk') as L2.
  pose proof (ci_text_length _ _ Hc) as L3.
  destruct (app_same_length _ _ _ _ _ B) as [_ B']; [lia|].
  destruct (app_same_length _ _ _ _ _ B') as [Elab _]; [lia|].
  exists kw. split; [exact Hk|].
  rewrite Et, content_squeeze_hspace, content_strip.
  rewrite <- (content_strip (slice full_text (m_start m) stop)), A, Elab. reflexivity.
Qed.

(** * Writing the records

    [write_jsonl] appends to the output file, for each record, the text
    [json.dumps(r, ensure_ascii=False)] and a line feed.  The file is taken
    as the text written to it. *)

(** The hexadecimal digit of [n < 16], in lower case. *)
Definition hex_digit (n : N) : char := if (n <? 10)%N then (48 + n)%N else (87 + n)%N.

(** The escape of one character in a JSON string when [ensure_ascii] is
    false: the double quote, the backslash and the characters below U+0020
    are escaped, every other character is itself. *)
Definition escape_char (c : char) : str :=
  if N.eqb c 34 then py "\\" ++ [34%N]
  else if N.eqb c 92 then py "\\\\"
  else if N.eqb c 10 then py "\\n"
  else if N.eqb c 13 then py "\\r"
  else if N.eqb c 9 then py "\\t"
  else if N.eqb c 8 then py "\\b"
  else if N.eqb c 12 then py "\\f"
  else if (c <? 32)%N then py "\\u00" ++ [hex_digit (c / 16); hex_digit (c mod 16)]
  else [c].

Definition json_string (s : str) : str := [34%N] ++ flat_map escape_char s ++ [34%N].

(** [int.__repr__]: the decimal digits, after a minus sign for a negative
    number. *)
Fixpoint uint_chars (d : Decimal.uint) : str :=
  match d with
  | Decimal.Nil => []
  | Decimal.D0 d' => 48%N :: uint_chars d'
  | Decimal.D1 d' => 49%N :: uint_chars d'
  | Decimal.D2 d' => 50%N :: uint_chars d'
  | Decimal.D3 d' => 51%N :: uint_chars d'
  | Decimal.D4 d' => 52%N :: uint_chars d'
  | Decimal.D5 d' => 53%N :: uint_chars d'
  | Decimal.D6 d' => 54%N :: uint_chars d'
  | Decimal.D7 d' => 55%N :: uint_chars d'
  | Decimal.D8 d' => 56%N :: uint_chars d'
  | Decimal.D9 d' => 57%N :: uint_chars d'
  end.

Definition int_repr (z : Z) : str :=
  match z with
  | Z0 => [48%N]
  | Zpos p => uint_chars (Pos.to_uint p)
  | Zneg p => HYPHEN :: uint_chars (Pos.to_uint p)
  end.

Definition json_value (v : json) : str :=
  match v with
  | JNull => py "null"
  | JStr s => json_string s
  | JInt z => int_repr z
  end.

(** A dict is written with its items in insertion order, [", "] between the
    items and [": "] between a key and its value. *)
Definition json_item (kv : string * json) : str :=
  json_string (py (fst kv)) ++ py ": " ++ json_value (snd kv).

Definition json_dumps (r : OutputRecord) : str :=
  py "{" ++ join (py ", ") (map json_item r) ++ py "}".

(** [write_jsonl(records, out_path)], on the text of the file: the file is
    opened for appending. *)
Definition write_jsonl (records : list OutputRecord) (file : str) : str :=
  file ++ flat_map (fun r => json_dumps r ++ [LF]) records.

(** The lines of a file in which every line ends with a line feed. *)
Fixpoint lines_from (cur : str) (s : str) : list str :=
  match s with
  | [] => match cur with [] => [] | _ :: _ => [cur] end
  | x :: s' => if N.eqb x LF then cur :: lines_from [] s' else lines_from (cur ++ [x]) s'
  end.

Definition file_lines (file : str) : list str := lines_from [] file.

Lemma int_repr_check :
  int_repr 2023 = py "2023" /\ int_repr 0 = py "0" /\ int_repr (-17) = py "-17".
Proof. vm_compute. auto. Qed.

Lemma json_dumps_check :
  json_dumps [("year"%string, JInt 1999); ("title"%string, JStr (py "Pasal 1\n(1) a\\b"));
              ("bab"%string, JNull)]
  = py "{" ++ [34%N] ++ py "year" ++ [34%N] ++ py ": 1999, " ++ [34%N] ++ py "title"
       ++ [34%N] ++ py ": " ++ [34%N] ++ py "Pasal 1" ++ [92%N; 110%N] ++ py "(1) a"
       ++ [92%N; 92%N] ++ py "b" ++ [34%N] ++ py ", " ++ [34%N] ++ py "bab" ++ [34%N]
       ++ py ": null}".
Proof. vm_compute. reflexivity. Qed.

Definition printable (c : char) : bool := (32 <=? c)%N.

Lemma hex_digit_printable : forall n, printable (hex_digit n) = true.
Proof.
  intro n. unfold printable, hex_digit. destruct (n <? 10)%N; apply N.leb_le; lia.
Qed.

Lemma escape_char_printable : forall c, forallb printable (escape_char c) = true.
Proof.
  intro c. unfold escape_char.
  repeat match goal with
         | |- context [N.eqb c ?k] => destruct (N.eqb c k); [reflexivity|]
         end.
  destruct (N.ltb_spec c 32).
  - cbn [py app forallb]. rewrite !hex_digit_printable. reflexivity.
  - simpl. rewrite andb_true_r. apply N.leb_le. assumption.
Qed.

Lemma json_string_printable : forall s, forallb printable (json_string s) = true.
Proof.
  intro s. unfold json_string. rewrite !forallb_app. simpl. rewrite andb_true_r.
  induction s as [|x s IH]; [reflexivity|].
  simpl. rewrite forallb_app, escape_char_printable, IH. reflexivity.
Qed.

Lemma uint_chars_printable : forall d, forallb printable (uint_chars d) = true.
Proof. induction d; simpl; auto. Qed.

Lemma json_value_printable : forall v, forallb printable (json_value v) = true.
Proof.
  intros [|s|z]; [reflexivity | apply json_string_printable |].
  destruct z; simpl; auto using uint_chars_printable.
Qed.

Lemma join_forallb : forall (p : char -> bool) sep parts,
  forallb p sep = true -> Forall (fun l => forallb p l = true) parts ->
  forallb p (join sep parts) = true.
Proof.
  intros p sep parts Hs H. induction H as [|l parts Hl H IH]; [reflexivity|].
  destruct parts as [|l' parts]; [exact Hl|].
  change (join sep (l :: l' :: parts)) with (l ++ sep ++ join sep (l' :: parts)).
  rewrite !forallb_app, Hl, Hs, IH. reflexivity.
Qed.

Lemma json_dumps_printable : forall r, forallb printable (json_dumps r) = true.
Proof.
  intro r. unfold json_dumps. rewrite !forallb_app.
  rewrite join_forallb; [reflexivity | reflexivity |].
  apply Forall_map, Forall_forall. intros kv _. unfold json_item.
  rewrite !forallb_app, json_string_printable, json_value_printable. reflexivity.
Qed.

Lemma lines_from_line : forall u cur s,
  forallb printable u = true ->
  lines_from cur (u ++ LF :: s) = (cur ++ u) :: lines_from [] s.
Proof.
  induction u as [|x u IH]; intros cur s H.
  - simpl. rewrite app_nil_r. reflexivity.
  - simpl in H. apply andb_true_iff in H. destruct H as [Hx Hu].
    cbn [app lines_from].
    assert (E : N.eqb x LF = false).
    { destruct (N.eqb_spec x LF) as [->|]; [discriminate Hx | reflexivity]. }
    rewrite E, (IH _ _ Hu), <- app_assoc. reflexivity.
Qed.

Lemma file_lines_written : forall records,
  file_lines (write_jsonl records []) = map json_dumps records.
Proof.
  intro records. unfold file_lines, write_jsonl. cbn [app].
  induction records as [|r records IH]; [reflexivity|].
  cbn [flat_map map]. rewrite <- app_assoc. cbn [app].
  rewrite (lines_from_line _ [] _ (json_dumps_printable r)), IH. reflexivity.
Qed.

Lemma write_jsonl_app : forall r1 r2 file,
  write_jsonl r2 (write_jsonl r1 file) = write_jsonl (r1 ++ r2) file.
Proof.
  intros r1 r2 file. unfold write_jsonl. rewrite flat_map_app. symmetry. apply app_assoc.
Qed.

(** X10: the JSON text of a record holds no character below U+0020, so no
    line feed and no carriage return: every record is one line of the file.
    The lines of a file written from empty are the JSON texts of the records,
    in order, one per record; writing in two calls gives the file that one
    call with all the records gives; and writing no record leaves the file as
    it is. *)
Theorem X10_one_line_per_record : forall (r1 r2 : list OutputRecord) (file : str),
  Forall (fun r => forallb printable (json_dumps r) = true /\ ~ In LF (json_dumps r))
         (r1 ++ r2) /\
  file_lines (write_jsonl r1 []) = map json_dumps r1 /\
  write_jsonl r2 (write_jsonl r1 file) = write_jsonl (r1 ++ r2) file /\
  file_lines (write_jsonl r2 (write_jsonl r1 [])) = map json_dumps (r1 ++ r2) /\
  write_jsonl [] file = file.
Proof.
  intros r1 r2 file. split; [|split; [|split; [|split]]].
  - apply Forall_forall. intros r _. split; [apply json_dumps_printable|].
    intro Hin. pose proof (json_dumps_printable r) as H.
    rewrite forallb_forall in H. specialize (H LF Hin). discriminate H.
  - apply file_lines_written.
  - apply write_jsonl_app.
  - rewrite write_jsonl_app. apply file_lines_written.
  - unfold write_jsonl. simpl. apply app_nil_r.
Qed.

(** ** The file that [main] writes *)

Section MainFile.
Variable w : World.
Variable build : DocumentConfig -> result (list OutputRecord).

(** The text of the output file along the loop of [main]: the file is
    cleared first, and [write_jsonl] is called for each entry whose file
    exists and whose build returns. *)
Definition main_step_file (file : str) (cfg : DocumentConfig) : str :=
  if negb (Path_exists w (pdf cfg)) then file
  else match build cfg with
       | Raise _ => file
       | Ok recs => write_jsonl recs file
       end.

Definition main_file (catalog : list DocumentConfig) : str :=
  fold_left main_step_file catalog [].

Lemma main_file_steps : forall catalog file,
  fold_left main_step_file catalog file
  = write_jsonl (flat_map (contribution w build) catalog) file.
Proof.
  induction catalog as [|cfg catalog IH]; intro file.
  - unfold write_jsonl. simpl. symmetry. apply app_nil_r.
  - cbn [fold_left flat_map]. rewrite IH, <- write_jsonl_app. f_equal.
    unfold main_step_file, contribution.
    destruct (Path_exists w (pdf cfg)); cbn [negb].
    + destruct (build cfg); [reflexivity|]. unfold write_jsonl. simpl. symmetry. apply app_nil_r.
    + unfold write_jsonl. simpl. symmetry. apply app_nil_r.
Qed.

(** X11: when [main] ends, the lines of the output file are the JSON texts
    of the records of the run, in catalog order, and nothing else: what an
    earlier run left in the file is gone, and the total that [main] prints
    last is the number of lines of the file. *)
Theorem X11_main_file_lines : forall catalog,
  let run := main_loop w build catalog in
  file_lines (main_file catalog) = map json_dumps (out_file run) /\
  length (file_lines (main_file catalog)) = total run /\
  last (stdout run) (WroteTotal 0) = WroteTotal (length (file_lines (main_file catalog))).
Proof.
  intro catalog. cbv zeta. unfold main_file. rewrite main_file_steps, file_lines_written.
  unfold main_loop. cbn [out_file total stdout].
  destruct (main_steps w build catalog (mkRun [] 0 [])) as (Ho & Ht & _).
  cbn [out_file total] in Ho, Ht. cbn [app] in Ho.
  rewrite Ho, Ht, length_map, last_last. cbn [Nat.add].
  split; [reflexivity|]. split; reflexivity.
Qed.
End MainFile.

(** ** Reading a JSON string back

    A reader of the strings that [json.dumps] writes.  It is not part of
    the program; it serves to show that the text written determines the
    string. *)

Definition hex_value (c : char) : option N :=
  if in_range 48 57 c then Some (c - 48)%N
  else if in_range 97 102 c then Some (c - 87)%N
  else None.

Definition unescape_letter (e : char) : option char :=
  if N.eqb e 34 then Some 34%N
  else if N.eqb e 92 then Some 92%N
  else if N.eqb e 110 then Some LF
  else if N.eqb e 114 then Some CR
  else if N.eqb e 116 then Some TAB
  else if N.eqb e 98 then Some 8%N
  else if N.eqb e 102 then Some 12%N
  else None.

Definition push (c : option char) (r : option (str * str)) : option (str * str) :=
  match c, r with
  | Some c, Some (t, rest) => Some (c :: t, rest)
  | _, _ => None
  end.

Definition hex4 (a b c d : char) : option char :=
  match hex_value a, hex_value b, hex_value c, hex_value d with
  | Some a, Some b, Some c, Some d => Some (((a * 16 + b) * 16 + c) * 16 + d)%N
  | _, _, _, _ => None
  end.

(** [read_string s] reads a string from the text after its opening double
    quote: the string, and the text after its closing double quote, which is
    the first double quote that no backslash escapes. *)
Fixpoint read_string (s : str) : option (str * str) :=
  match s with
  | [] => None
  | c :: s' =>
      if N.eqb c 34 then Some ([], s')
      else if N.eqb c 92 then
        match s' with
        | [] => None
        | e :: s'' =>
            if N.eqb e 117 then
              match s'' with
              | a :: b :: h :: l :: s3 => push (hex4 a b h l) (read_string s3)
              | _ => None
              end
            else push (unescape_letter e) (read_string s'')
        end
      else push (Some c) (read_string s')
  end.

Lemma below_32 : forall c : N, (c < 32)%N ->
  In c [0; 1; 2; 3; 4; 5; 6; 7; 8; 9; 10; 11; 12; 13; 14; 15; 16; 17; 18; 19; 20;
        21; 22; 23; 24; 25; 26; 27; 28; 29; 30; 31]%N.
Proof.
  intros c H. rewrite <- (N2Nat.id c).
  assert (Hn : N.to_nat c < 32) by lia.
  revert Hn. generalize (N.to_nat c). intros n Hn.
  do 32 (destruct n as [|n]; [vm_compute; tauto|]). lia.
Qed.

Lemma read_escape_char : forall c rest,
  read_string (escape_char c ++ rest) = push (Some c) (read_string rest).
Proof.
  intros c rest. destruct (N.ltb_spec c 32) as [Hlt|Hge].
  - apply below_32 in Hlt.
    repeat (destruct Hlt as [<-|Hlt]; [reflexivity|]). destruct Hlt.
  - unfold escape_char.
    destruct (N.eqb_spec c 34) as [->|H34]; [reflexivity|].
    destruct (N.eqb_spec c 92) as [->|H92]; [reflexivity|].
    destruct (N.eqb_spec c 10) as [->|_]; [lia|].
    destruct (N.eqb_spec c 13) as [->|_]; [lia|].
    destruct (N.eqb_spec c 9) as [->|_]; [lia|].
    destruct (N.eqb_spec c 8) as [->|_]; [lia|].
    destruct (N.eqb_spec c 12) as [->|_]; [lia|].
    destruct (N.ltb_spec c 32) as [F|_]; [lia|].
    cbn [app read_string].
    destruct (N.eqb_spec c 34) as [F|_]; [contradiction|].
    destruct (N.eqb_spec c 92) as [F|_]; [contradiction|]. reflexivity.
Qed.

Lemma read_escaped : forall s rest,
  read_string (flat_map escape_char s ++ 34%N :: rest) = Some (s, rest).
Proof.
  induction s as [|c s IH]; intro rest; [reflexivity|].
  cbn [flat_map]. rewrite <- app_assoc, read_escape_char, IH. reflexivity.
Qed.

(** X12: the JSON text of a string loses nothing.  Read from after its
    opening double quote, the text gives the string back and stops at its
    closing double quote, whatever follows: no double quote inside the text
    is taken for the closing one.  So two strings with the same JSON text
    are the same string. *)
Theorem X12_json_string_reads_back : forall s rest : str,
  read_string (flat_map escape_char s ++ [34%N] ++ rest) = Some (s, rest) /\
  (forall s', json_string s = json_string s' -> s = s').
Proof.
  intros s rest. split; [apply read_escaped|].
  intros s' E. unfold json_string in E. cbn [app] in E. injection E as E.
  pose proof (read_escaped s []) as H. cbn [app] in E. 
  change (flat_map escape_char s ++ [34%N]) with (flat_map escape_char s ++ 34%N :: []) in E.
  rewrite E, read_escaped in H. injection H as H. symmetry. exact H.
Qed.

(** * The hierarchy markers

    What [BUKU_RE], [BAB_RE] and [BAGIAN_RE] take from a line. *)

Lemma rmatch_lit_ci :
  forall (A : Type) pat c, ci_text pat c ->
  forall s' pv i g (k : option char -> str -> nat -> groups -> option A),
  rmatch (lit_ci pat) pv (c ++ s') i g k = k (prev_after pv c) s' (i + length c) g.
Proof.
  intros A pat c H. induction H as [|l x pat c Hx H IH]; intros s' pv i g k.
  - simpl. rewrite Nat.add_0_r. reflexivity.
  - cbn [lit_ci rmatch app]. rewrite Hx, IH, prev_after_cons. cbn [length].
    replace (S i + length c) with (i + S (length c)) by lia. reflexivity.
Qed.

Lemma not_dot_at_eol : forall s, not_headed_by is_dot s -> at_eol s = true.
Proof.
  intros [|x s] H; [reflexivity|]. simpl in H. unfold is_dot in H.
  apply negb_false_iff in H. exact H.
Qed.

Section Marker.
Variable keyword : string.
Variable label : char -> bool.
Hypothesis keyword_head : forall kw,
  ci_text (py keyword) kw -> exists k kt, kw = k :: kt /\ isspace k = false.
Hypothesis label_nospace : forall c, label c = true -> isspace c = false.

(** A line that begins with white space, the keyword in any letter case,
    white space and a label: [lab] is the longest run of label characters
    there, and [after] is what follows it. *)
Definition marker_shape (ln lab after : str) : Prop :=
  exists w1 kw w2,
    ln = w1 ++ kw ++ w2 ++ lab ++ after /\
    forallb isspace w1 = true /\ ci_text (py keyword) kw /\
    forallb isspace w2 = true /\ w2 <> [] /\
    lab <> [] /\ forallb label lab = true /\ not_headed_by label after.

(** The match on a text of that shape: the label is group 1, and group 2 is
    the rest of the line after the white space that follows the label. *)
Lemma marker_match_exact : forall pv w1 kw w2 lab w3 t rest i,
  at_bol pv = true ->
  forallb isspace w1 = true -> ci_text (py keyword) kw ->
  forallb isspace w2 = true -> w2 <> [] ->
  lab <> [] -> forallb label lab = true -> not_headed_by label (w3 ++ t ++ rest) ->
  forallb isspace w3 = true -> not_headed_by isspace (t ++ rest) ->
  forallb is_dot t = true -> not_headed_by is_dot rest ->
  match_at (marker_re keyword label) pv (w1 ++ kw ++ w2 ++ lab ++ w3 ++ t ++ rest) i
  = Some (mkMatch i (i + length (w1 ++ kw ++ w2 ++ lab ++ w3 ++ t))
            [(2, (i + length (w1 ++ kw ++ w2 ++ lab ++ w3),
                  i + length (w1 ++ kw ++ w2 ++ lab ++ w3 ++ t)));
             (1, (i + length (w1 ++ kw ++ w2),
                  i + length (w1 ++ kw ++ w2 ++ lab)))]).
Proof.
  intros pv w1 kw w2 lab w3 t rest i Hb H1 Hk H2 Hne Hlne Hl Hmax H3 Ht Hd Hr.
  destruct (keyword_head kw Hk) as (k0 & kt & Ek & Hk0).
  destruct lab as [|l0 lt] eqn:El; [contradiction|]. rewrite <- El in *.
  assert (Hl0 : isspace l0 = false).
  { apply label_nospace. rewrite El in Hl. simpl in Hl. apply andb_true_iff in Hl. tauto. }
  unfold match_at, marker_re. cbn [rmatch]. rewrite Hb.
  apply rep_max; [exact H1 | rewrite Ek; exact Hk0 | lia |].
  rewrite rmatch_lit_ci by exact Hk.
  apply rep_max; [exact H2 | rewrite El; exact Hl0 | destruct w2; [contradiction | simpl; lia] |].
  apply rep_max; [exact Hl | exact Hmax | rewrite El; simpl; lia |].
  apply rep_max; [exact H3 | exact Ht | lia |].
  apply rep_max; [exact Hd | exact Hr | lia |].
  rewrite (not_dot_at_eol rest Hr).
  f_equal. repeat rewrite length_app.
  f_equal; [lia|]. f_equal; [f_equal; f_equal; lia|]. f_equal. f_equal; f_equal; lia.
Qed.

Lemma marker_shape_match : forall pv s lab after i,
  at_bol pv = true -> marker_shape s lab after ->
  exists w1 kw w2 w3 t rest,
    s = w1 ++ kw ++ w2 ++ lab ++ w3 ++ t ++ rest /\ after = w3 ++ t ++ rest /\
    forallb isspace w3 = true /\ not_headed_by isspace (t ++ rest) /\
    not_headed_by is_dot rest /\
    match_at (marker_re keyword label) pv s i
    = Some (mkMatch i (i + length (w1 ++ kw ++ w2 ++ lab ++ w3 ++ t))
              [(2, (i + length (w1 ++ kw ++ w2 ++ lab ++ w3),
                    i + length (w1 ++ kw ++ w2 ++ lab ++ w3 ++ t)));
               (1, (i + length (w1 ++ kw ++ w2),
                    i + length (w1 ++ kw ++ w2 ++ lab)))]).
Proof.
  intros pv s lab after i Hb (w1 & kw & w2 & E & H1 & Hk & H2 & Hne & Hlne & Hl & Hmax).
  destruct (max_run isspace after) as (w3 & r2 & Ea & H3 & Hr2).
  destruct (max_run is_dot r2) as (t & rest & Er & Ht & Hrest).
  subst r2. exists w1, kw, w2, w3, t, rest.
  split; [rewrite E, Ea; reflexivity|]. split; [exact Ea|].
  split; [exact H3|]. split; [exact Hr2|]. split; [exact Hrest|].
  rewrite E, Ea. rewrite Ea in Hmax. apply marker_match_exact; assumption.
Qed.

Lemma marker_match_inv : forall pv s i m,
  match_at (marker_re keyword label) pv s i = Some m ->
  at_bol pv = true /\ exists lab after, marker_shape s lab after.
Proof.
  intros pv s i m H.
  destruct (match_at_sound _ _ _ _ _ H) as (_ & c & s' & E & M & _).
  unfold marker_re in M.
  apply matches_seq_inv in M. destruct M as (c0 & c1 & -> & M0 & M).
  apply matches_bol_inv in M0. destruct M0 as [-> Hb].
  change (prev_after pv []) with pv in M. cbn [app] in *.
  apply matches_seq_inv in M. destruct M as (w1 & c2 & -> & M1 & M).
  apply matches_rep_inv in M1. destruct M1 as [H1 _].
  apply matches_seq_inv in M. destruct M as (kw & c3 & -> & M2 & M).
  apply lit_ci_inv in M2.
  apply matches_seq_inv in M. destruct M as (w2 & c4 & -> & M3 & M).
  apply matches_rep_inv in M3. destruct M3 as [H2 Hn2].
  apply matches_seq_inv in M. destruct M as (lab0 & c5 & -> & M4 & _).
  apply matches_grp_inv, matches_rep_inv in M4. destruct M4 as [Hl Hn].
  split; [exact Hb|].
  destruct (max_run label (c5 ++ s')) as (ext & after & Ea & Hext & Hmax).
  exists (lab0 ++ ext), after. exists w1, kw, w2.
  split. { rewrite E. repeat rewrite <- app_assoc. rewrite Ea. reflexivity. }
  repeat split; auto.
  - intros ->. simpl in Hn2. lia.
  - intro F. apply app_eq_nil in F. destruct F as [-> _]. simpl in Hn. lia.
  - rewrite forallb_app, Hl, Hext. reflexivity.
Qed.

Lemma class_strip : forall lab, forallb label lab = true -> strip lab = lab.
Proof.
  intros lab H.
  assert (Hn : forallb (fun c => negb (isspace c)) lab = true).
  { apply forallb_forall. intros c Hc. rewrite forallb_forall in H.
    rewrite (label_nospace c (H c Hc)). reflexivity. }
  destruct (nospace_ends lab Hn) as [Ha Hb].
  apply strip_fixed; [exact Ha | apply ends_ok_rev; exact Hb].
Qed.

(** The mark of a line: none when the line has not the shape, and otherwise
    the label and the stripped rest of the line. *)
Lemma mark_of_shape : forall kind st ln lab after,
  ~ In LF ln -> marker_shape ln lab after ->
  mark_of (marker_re keyword label) kind st ln = [(st, mkTag kind lab (strip after))].
Proof.
  intros kind st ln lab after Hlf Hs.
  destruct (marker_shape_match None ln lab after 0 eq_refl Hs)
    as (w1 & kw & w2 & w3 & t & rest & E & Ea & H3 & _ & Hrest & Hm).
  assert (rest = []).
  { destruct rest as [|x rest]; [reflexivity|]. exfalso. simpl in Hrest.
    unfold is_dot in Hrest. apply negb_false_iff, N.eqb_eq in Hrest. subst x.
    apply Hlf. rewrite E. repeat (apply in_or_app; right). left. reflexivity. }
  subst rest. rewrite (app_nil_r t) in E, Ea.
  destruct Hs as (_ & _ & _ & _ & _ & _ & _ & _ & _ & Hl & _).
  unfold mark_of, re_match. rewrite Hm. unfold group. cbn [m_groups group_span Nat.eqb or_empty].
  f_equal. f_equal. f_equal.
  - assert (E1 : ln = (w1 ++ kw ++ w2) ++ lab ++ (w3 ++ t)) by (rewrite E; list_assoc).
    rewrite E1 at 1. rewrite slice_at.
    + apply class_strip. exact Hl.
    + reflexivity.
    + repeat rewrite length_app. lia.
  - assert (E1 : ln = (w1 ++ kw ++ w2 ++ lab ++ w3) ++ t ++ [])
      by (rewrite E, (app_nil_r t); list_assoc).
    rewrite E1 at 1. rewrite slice_at.
    + rewrite Ea. unfold strip. rewrite lstrip_ws_app by exact H3. reflexivity.
    + reflexivity.
    + repeat rewrite length_app. lia.
Qed.

Lemma mark_of_inv : forall kind st ln p tag,
  ~ In LF ln -> In (p, tag) (mark_of (marker_re keyword label) kind st ln) ->
  p = st /\ exists lab after, marker_shape ln lab after /\ tag = mkTag kind lab (strip after).
Proof.
  intros kind st ln p tag Hlf Hin.
  assert (Hs : exists lab after, marker_shape ln lab after).
  { unfold mark_of in Hin. destruct (re_match (marker_re keyword label) ln) as [m|] eqn:Em;
      [|destruct Hin].
    exact (proj2 (marker_match_inv None ln 0 m Em)). }
  destruct Hs as (lab & after & Hs).
  rewrite (mark_of_shape kind st ln lab after Hlf Hs) in Hin.
  destruct Hin as [Hin|[]]. inversion Hin; subst. split; [reflexivity|].
  exists lab, after. auto.
Qed.

(** The marks of a family in a text. *)
Definition tags_of_lines (kind : string) (full_text : str) (marks : list (nat * Tag))
  : Prop :=
  Forall (fun mk => exists ln lab after,
                      In ln (splitlines full_text) /\ marker_shape ln lab after /\
                      snd mk = mkTag kind lab (strip after)) marks /\
  (forall ln lab after,
     In ln (splitlines full_text) -> marker_shape ln lab after ->
     exists p, In (p, mkTag kind lab (strip after)) marks).

Lemma marks_of_in : forall re kind lines starts p tag,
  In (p, tag) (marks_of re kind starts lines) ->
  exists st ln, In ln lines /\ In (p, tag) (mark_of re kind st ln).
Proof.
  induction lines as [|ln lines IH]; intros starts p tag Hin.
  - destruct starts; destruct Hin.
  - destruct starts as [|st starts]; [destruct Hin|].
    cbn [marks_of] in Hin. apply in_app_or in Hin. destruct Hin as [Hin|Hin].
    + exists st, ln. split; [left; reflexivity | exact Hin].
    + destruct (IH starts p tag Hin) as (st' & ln' & Hl & Hm).
      exists st', ln'. split; [right; exact Hl | exact Hm].
Qed.

Lemma marks_of_line : forall re kind lines pos ln,
  In ln lines ->
  exists st, incl (mark_of re kind st ln)
                  (marks_of re kind (line_starts_from pos lines) lines).
Proof.
  induction lines as [|l lines IH]; intros pos ln Hin; [destruct Hin|].
  cbn [line_starts_from marks_of]. destruct Hin as [->|Hin].
  - exists pos. apply incl_appl, incl_refl.
  - destruct (IH (pos + (length l + 1)) ln Hin) as (st & Hst).
    exists st. apply incl_appr. exact Hst.
Qed.

Lemma line_no_lf : forall full_text ln, In ln (splitlines full_text) -> ~ In LF ln.
Proof.
  intros full_text ln Hin Hlf.
  pose proof (splitlines_no_break (length full_text) full_text (le_n _)) as H.
  rewrite Forall_forall in H. specialize (H ln Hin).
  rewrite forallb_forall in H. specialize (H LF Hlf). discriminate H.
Qed.

Lemma family_tags : forall kind full_text,
  tags_of_lines kind full_text
    (marks_of (marker_re keyword label) kind
              (line_starts_from 0 (splitlines full_text)) (splitlines full_text)).
Proof.
  intros kind full_text. split.
  - apply Forall_forall. intros [p tag] Hin.
    destruct (marks_of_in _ _ _ _ _ _ Hin) as (st & ln & Hl & Hm).
    destruct (mark_of_inv kind st ln p tag (line_no_lf _ _ Hl) Hm) as (_ & lab & after & Hs & ->).
    exists ln, lab, after. auto.
  - intros ln lab after Hl Hs.
    destruct (marks_of_line (marker_re keyword label) kind _ 0 ln Hl) as (st & Hst).
    exists st. apply Hst.
    rewrite (mark_of_shape kind st ln lab after (line_no_lf _ _ Hl) Hs). left. reflexivity.
Qed.
End Marker.

Lemma wordy_head : forall pat l kw,
  wordy l = true -> ci_text (l :: pat) kw -> exists k kt, kw = k :: kt /\ isspace k = false.
Proof.
  intros pat l kw Hl H. inversion H as [|l' k pat' kt Hk _]; subst.
  exists k, kt. split; [reflexivity|]. apply wordy_not_space. exact (wordy_ci l k Hl Hk).
Qed.

Lemma roman_nospace : forall c, is_roman c = true -> isspace c = false.
Proof.
  intros c H. unfold is_roman, ci_among in H. apply existsb_exists in H.
  destruct H as (l & Hin & Hc). apply wordy_not_space. apply (wordy_ci l c); [|exact Hc].
  vm_compute in Hin. repeat (destruct Hin as [<-|Hin]; [reflexivity|]). destruct Hin.
Qed.

Lemma digit_or_roman_nospace : forall c, is_digit_or_roman c = true -> isspace c = false.
Proof.
  intros c H. unfold is_digit_or_roman in H. apply orb_true_iff in H.
  destruct H as [H|H]; [|apply roman_nospace; exact H].
  apply wordy_not_space. unfold wordy. apply orb_true_iff. left.
  unfold isdecimal. apply existsb_exists. exists 48%N. split; [left; reflexivity | exact H].
Qed.

(** X13: the marks of a family are read from the lines of the text, one
    mark for every line that begins with white space, the keyword in any
    letter case, white space and at least one label character.  The label of
    the tag is the longest run of label characters there, whether or not a
    word ends after it, and the title is the rest of the line, stripped.  A
    line of any other shape gives no mark. *)
Theorem X13_marker_tags : forall full_text,
  tags_of_lines "BUKU" is_roman "BUKU" full_text (buku_marks full_text) /\
  tags_of_lines "BAB" is_roman "BAB" full_text (bab_marks full_text) /\
  tags_of_lines "Bagian" is_digit_or_roman "BAGIAN" full_text (bagian_marks full_text).
Proof.
  intro full_text. unfold buku_marks, bab_marks, bagian_marks, BUKU_RE, BAB_RE, BAGIAN_RE.
  split; [|split]; apply family_tags;
    try exact roman_nospace; try exact digit_or_roman_nospace; intros kw H.
  - apply (wordy_head (tl (py "BUKU")) (hd 0%N (py "BUKU")) kw); [reflexivity | exact H].
  - apply (wordy_head (tl (py "BAB")) (hd 0%N (py "BAB")) kw); [reflexivity | exact H].
  - apply (wordy_head (tl (py "Bagian")) (hd 0%N (py "Bagian")) kw); [reflexivity | exact H].
Qed.

(** The label does not have to be a word: in a line that begins with "Bab
    ini", the chapter label is "i" and the title is what follows it. *)
Lemma marker_label_within_a_word :
  bab_marks (py "Bab ini mengatur\nPasal 1")
  = [(0, mkTag "BAB" (py "i") (py "ni mengatur"))].
Proof. vm_compute. reflexivity. Qed.

(** * No header in a body

    The argument that no header of the block's own label begins in the
    stripped span after the block's header holds for the header of any
    label. *)

Section BlockAny.
Variables (pv0 : option char) (w1 kw w2 lab w3 mid post : str).
Variable other : str.
Hypothesis Hw1 : forallb isspace w1 = true.
Hypothesis Hkw : ci_text (py "Pasal") kw.
Hypothesis Hw2 : forallb isspace w2 = true.
Hypothesis Hw2ne : w2 <> [].
Hypothesis Hlab : label_like lab.
Hypothesis Hw3 : forallb isspace w3 = true.
Hypothesis Heol : at_eol (mid ++ post) = true.
Hypothesis Hpost :
  post = [] \/ at_bol (prev_after pv0 ((w1 ++ kw ++ w2 ++ lab ++ w3) ++ mid)) = true.
Hypothesis Hgap : forall x y,
  (w1 ++ kw ++ w2 ++ lab ++ w3) ++ mid = x ++ y -> x <> [] ->
  length (w1 ++ kw ++ w2 ++ lab ++ w3) <= length x -> y <> [] ->
  ~ can_match PASAL_ANY_RE (prev_after pv0 x) (y ++ post).
Hypothesis Hother : label_like other.

Lemma no_later_header_any : forall a b,
  kw ++ w2 ++ lab ++ rstrip (w3 ++ mid) = a ++ b -> a <> [] ->
  ~ can_match (own_header_re other) (prev_after None a) b.
Proof.
  intros a b E Hne (cb & rb & Eb & M).
  apply own_header_inv in M. destruct M as (Hb & He & Hh).
  destruct (rstrip_prefix (w3 ++ mid)) as (tw & Etw & Htw).
  assert (E1 : a ++ b ++ tw = kw ++ w2 ++ lab ++ w3 ++ mid).
  { rewrite app_assoc, <- E. repeat rewrite <- app_assoc. do 3 f_equal.
    symmetry. exact Etw. }
  destruct (keyword_shape kw Hkw) as (k0 & kt0 & Ek0 & Hk0 & _ & Hkwordy).
  pose proof (label_wordy lab Hlab) as Hlw.
  destruct (app_split _ _ _ _ _ E1) as [(t & Ek & _)|(t1 & Ht1 & Ea & E2)].
  { (* the position is inside the keyword *)
    rewrite Ek, forallb_app in Hkwordy. apply andb_true_iff in Hkwordy.
    rewrite (last_wordy_not_bol None a Hne) in Hb by tauto. discriminate. }
  destruct (app_split _ _ _ _ _ (eq_sym E2)) as [(t & E3 & E4)|(t2 & Ht2 & Et1 & E4)].
  { (* inside the white space before the label *)
    destruct Hh as (w1' & kw' & w2' & lab' & w3' & Ecb & H1 & Hk & _).
    destruct (keyword_shape kw' Hk) as (k & kt & Ek & Hks & Hkc & _).
    destruct lab as [|l0 lt] eqn:El; [exfalso; exact (label_ne [] Hlab eq_refl)|].
    assert (Ht : forallb isspace t = true).
    { rewrite E3, forallb_app in Hw2. apply andb_true_iff in Hw2. tauto. }
    assert (E5 : t ++ l0 :: lt ++ w3 ++ mid
                 = w1' ++ k :: kt ++ w2' ++ lab' ++ w3' ++ rb ++ tw).
    { change (t ++ l0 :: lt ++ w3 ++ mid) with (t ++ (l0 :: lt) ++ w3 ++ mid).
      rewrite <- E4, Eb, Ecb, Ek. list_assoc. }
    destruct (ws_prefix _ _ _ _ _ Ht H1 Hks E5) as (w1'' & Ew & Es).
    destruct w1'' as [|x w1'']; simpl in Es; inversion Es; subst.
    - rewrite (label_first _ _ Hlab) in Hkc. discriminate.
    - rewrite forallb_app in H1. apply andb_true_iff in H1. destruct H1 as [_ H1].
      simpl in H1. apply andb_true_iff in H1. destruct H1 as [H1 _].
      simpl in Hlw. apply andb_true_iff in Hlw. destruct Hlw as [Hlw _].
      apply wordy_not_space in Hlw. congruence. }
  destruct (app_split _ _ _ _ _ (eq_sym E4)) as [(t & E5 & _)|(t3 & Ht3 & Et2 & E6)].
  { (* inside the label *)
    rewrite E5, forallb_app in Hlw. apply andb_true_iff in Hlw.
    rewrite Ea, Et1, !app_assoc, prev_after_app in Hb.
    rewrite (last_wordy_not_bol _ t2 Ht2) in Hb by tauto. discriminate. }
  destruct Hh as (w1' & kw' & w2' & lab' & w3' & Ecb & H1 & Hk & H2 & H2ne & Hl & H3).
  destruct (keyword_shape kw' Hk) as (k & kt & Ek & Hks & Hkc & _).
  destruct (app_split _ _ _ _ _ (eq_sym E6)) as [(t & E7 & E8)|(t4 & Ht4 & Et3 & E8)].
  - (* inside the white space that ends the header line *)
    assert (Ht : forallb isspace t = true).
    { rewrite E7, forallb_app in Hw3. apply andb_true_iff in Hw3. tauto. }
    destruct mid as [|m0 mid1] eqn:Em.
    + assert (E9 : t ++ [] = w1' ++ k :: kt ++ w2' ++ lab' ++ w3' ++ rb ++ tw).
      { rewrite <- E8, Eb, Ecb, Ek. list_assoc. }
      destruct (ws_prefix _ _ _ _ _ Ht H1 Hks E9) as (w1'' & _ & Es).
      destruct w1''; discriminate.
    + assert (m0 = LF) by (simpl in Heol; apply N.eqb_eq; exact Heol). subst m0.
      assert (Ht' : forallb isspace (t ++ [LF]) = true)
        by (rewrite forallb_app, Ht; reflexivity).
      assert (E9 : (t ++ [LF]) ++ mid1
                   = w1' ++ k :: kt ++ w2' ++ lab' ++ w3' ++ rb ++ tw).
      { rewrite <- app_assoc. simpl. rewrite <- E8, Eb, Ecb, Ek. list_assoc. }
      destruct (ws_prefix _ _ _ _ _ Ht' H1 Hks E9) as (w1'' & Ew & Es).
      assert (Hw'' : forallb isspace w1'' = true).
      { rewrite Ew, forallb_app in H1. apply andb_true_iff in H1. tauto. }
      apply (Hgap ((w1 ++ kw ++ w2 ++ lab ++ w3) ++ [LF]) mid1).
      * list_assoc.
      * intro F. destruct (app_eq_nil _ _ F). discriminate.
      * rewrite !length_app. simpl. lia.
      * rewrite Es. intro F. destruct (app_eq_nil _ _ F). discriminate.
      * rewrite prev_after_last.
        assert (E10 : mid1 ++ post
                      = (w1'' ++ kw' ++ w2' ++ lab' ++ w3') ++ rb ++ tw ++ post).
        { rewrite Es, Ek. list_norm. }
        rewrite E10.
        apply (pasal_of_own other (Some LF) (Some LF)); auto.
        -- exists w1'', kw', w2', lab', w3'. repeat split; auto.
        -- destruct Hpost as [Hp|Hp]; [left; exact Hp | right].
           assert (E11 : (w1 ++ kw ++ w2 ++ lab ++ w3) ++ LF :: mid1
                         = ((w1 ++ kw ++ w2 ++ lab ++ w3) ++ [LF])
                           ++ (w1'' ++ kw' ++ w2' ++ lab' ++ w3') ++ rb ++ tw).
           { rewrite Es, Ek. list_norm. }
           rewrite E11, prev_after_app, prev_after_last in Hp. exact Hp.
  - (* after the header line *)
    assert (Hbne : b <> []).
    { rewrite Eb, Ecb, Ek. intro F. destruct (app_eq_nil _ _ F) as [F1 _].
      destruct (app_eq_nil _ _ F1) as [_ F2]. discriminate. }
    apply (Hgap ((w1 ++ kw ++ w2 ++ lab ++ w3) ++ t4) (b ++ tw)).
    + rewrite E8. list_assoc.
    + intro F. destruct (app_eq_nil _ _ F). contradiction.
    + rewrite !length_app. simpl. lia.
    + intro F. destruct (app_eq_nil _ _ F). contradiction.
    + rewrite prev_after_app, (prev_after_ne t4 _ None Ht4).
      assert (Ep : prev_after None a = prev_after None t4).
      { rewrite Ea, Et1, Et2, Et3, !app_assoc, prev_after_app.
        apply prev_after_ne. exact Ht4. }
      rewrite Ep in Hb.
      assert (E10 : (b ++ tw) ++ post = cb ++ rb ++ tw ++ post) by (rewrite Eb; list_assoc).
      rewrite E10.
      apply (pasal_of_own other _ (prev_after pv0 ((w1 ++ kw ++ w2 ++ lab ++ w3) ++ t4)));
        auto.
      * exists w1', kw', w2', lab', w3'. repeat split; auto.
      * destruct Hpost as [Hp|Hp]; [left; exact Hp | right].
        rewrite E8, Eb in Hp.
        assert (E11 : (w1 ++ kw ++ w2 ++ lab ++ w3) ++ t4 ++ (cb ++ rb) ++ tw
                      = ((w1 ++ kw ++ w2 ++ lab ++ w3) ++ t4) ++ cb ++ rb ++ tw)
          by list_assoc.
        rewrite E11, prev_after_app in Hp. exact Hp.
Qed.

Lemma rest_free_any : forall header rest,
  kw ++ w2 ++ lab ++ rstrip (w3 ++ mid) = header ++ rest ->
  header <> [] -> at_eol rest = true -> own_free other rest.
Proof.
  intros header rest E0 Hne He0.
  assert (F : forall a b, rest = a ++ b ->
                ~ can_match (own_header_re other) (prev_after None (header ++ a)) b).
  { intros a b E. apply no_later_header_any.
    - rewrite E0, E. apply app_assoc.
    - intro N. destruct (app_eq_nil _ _ N). contradiction. }
  intros a b E. destruct a as [|x a].
  - simpl in E. subst b. intro Hc. simpl in Hc.
    destruct rest as [|z rest].
    + destruct Hc as (c & s' & Ec & Mc). symmetry in Ec.
      destruct (app_eq_nil _ _ Ec) as [-> _].
      apply own_header_inv in Mc. destruct Mc as (_ & _ & Hc).
      exact (header_text_ne _ _ Hc eq_refl).
    + simpl in He0. apply N.eqb_eq in He0. subst z.
      apply (F [LF] rest eq_refl). rewrite prev_after_last.
      apply (own_drop_ws other None (Some LF) [LF] rest); auto.
  - rewrite (prev_after_ne (x :: a) None (prev_after None header)) by discriminate.
    rewrite <- prev_after_app. apply F. exact E.
Qed.
End BlockAny.

(** No header of any label stands anywhere in [s]. *)
Definition pasal_free (s : str) : Prop :=
  forall a b, s = a ++ b -> ~ can_match PASAL_ANY_RE (prev_after None a) b.

Lemma pasal_free_labels : forall s,
  (forall lab, label_like lab -> own_free lab s) -> pasal_free s.
Proof.
  intros s H a b E Hc. apply header_here_match in Hc.
  destruct Hc as (Hb & w1 & kw & w2 & lab & w3 & rest & Eb & H1 & Hk & H2 & Hne & Hl & H3 & He).
  apply (H lab Hl a b E).
  exists (w1 ++ kw ++ w2 ++ lab ++ w3), rest. split; [rewrite Eb; list_assoc|].
  apply own_header_intro; auto.
  exists w1, kw, w2, lab, w3. repeat split; auto. apply ci_text_refl.
Qed.

Lemma block_body_free : forall full_text m stop,
  In (m, stop) (with_ends (finditer PASAL_ANY_RE full_text) (length full_text)) ->
  pasal_free (text (block_of full_text (m, stop))).
Proof.
  intros full_text m stop Hin.
  destruct (block_header_removed full_text m stop Hin)
    as (_ & header & rest & E & Hh & He & _ & ->).
  destruct (block_parts full_text m stop Hin)
    as (a & w1 & kw & w2 & lab & w3 & mid & post & ET & Hst & _ & Hstop & _ & Hw1 & Hk
        & Hw2 & Hne & Hl & Hw3 & Heol & Hp & Hg & _).
  assert (Espan : slice full_text (m_start m) stop = (w1 ++ kw ++ w2 ++ lab ++ w3) ++ mid).
  { assert (E1 : full_text = a ++ ((w1 ++ kw ++ w2 ++ lab ++ w3) ++ mid) ++ post)
      by (rewrite ET; list_assoc).
    rewrite E1 at 1. apply slice_at; lia. }
  rewrite Espan, (strip_span w1 kw w2 lab w3 mid Hw1 Hk Hl) in E.
  apply pasal_free_labels. intros other Ho.
  apply own_free_squeeze; [apply label_wordy; exact Ho|].
  apply own_free_strip.
  apply (rest_free_any (prev_after None a) w1 kw w2 lab w3 mid post other) with (header := header);
    auto.
  - destruct Hp as [Hp|(c' & s' & _ & M)]; [left; exact Hp | right].
    apply pasal_bol in M. rewrite <- prev_after_app. exact M.
  - intros x y Exy Hx Hlen Hy. rewrite <- prev_after_app. apply Hg; assumption.
  - exact (header_text_ne _ _ Hh).
Qed.

(** X14: the body of a block holds no article header, of the block's own
    label or of any other: no line of a body is the keyword and a label.  So
    structure detection finds no block in the body of a block. *)
Theorem X14_body_holds_no_header : forall full_text,
  Forall (fun blk => (forall p, ~ header_at (text blk) p) /\
                     finditer PASAL_ANY_RE (text blk) = [] /\
                     detect_structure (text blk) = [])
         (detect_structure full_text).
Proof.
  intro full_text. unfold detect_structure at 2. apply Forall_map, Forall_forall.
  intros [m stop] Hin. pose proof (block_body_free full_text m stop Hin) as H.
  assert (Hf : finditer PASAL_ANY_RE (text (block_of full_text (m, stop))) = []).
  { apply scan_nil_intro. exact H. }
  split; [|split].
  - intros p Hp. unfold header_at in Hp. apply header_here_match in Hp.
    exact (H _ _ (eq_sym (firstn_skipn p _)) Hp).
  - exact Hf.
  - unfold detect_structure. rewrite Hf. reflexivity.
Qed.

(** * The records of a document *)

Lemma block_label_like : forall full_text blk,
  In blk (detect_structure full_text) -> label_like (pasal_number blk).
Proof.
  intros full_text blk Hin. unfold detect_structure in Hin. apply in_map_iff in Hin.
  destruct Hin as ([m stop] & <- & Hin).
  exact (proj1 (block_header_removed full_text m stop Hin)).
Qed.

(** X15: in every record of a document the label is a well-formed article
    label, the title is "Pasal " and the label, and the text is a string,
    never null: the cleaned body of a block of the text read, which holds no
    U+0000 and neither begins nor ends with white space.  The records are
    those of the blocks of the text read, one per block, in order. *)
Theorem X15_records_are_well_formed : forall (U : Unicodedata) (w : World) cfg,
  let raw_text := read_pdf_text w (pdf cfg) in
  let recs := build_records_per_pdf w cfg in
  (recs = [] \/ recs = map (record_of w cfg) (detect_structure raw_text)) /\
  Forall (fun rec =>
            exists blk,
              In blk (detect_structure raw_text) /\
              label_like (pasal_number blk) /\
              get "pasal_number" rec = Some (JStr (pasal_number blk)) /\
              get "title" rec = Some (JStr (py "Pasal " ++ pasal_number blk)) /\
              get "text" rec = Some (JStr (clean_text (text blk))) /\
              ~ In NUL (clean_text (text blk)) /\
              headed_by isspace (clean_text (text blk)) = false /\
              headed_by isspace (rev (clean_text (text blk))) = false)
         recs.
Proof.
  intros U w cfg raw_text recs. unfold recs, build_records_per_pdf, records_of_text.
  fold raw_text.
  destruct raw_text as [|c t] eqn:Er; [split; [left; reflexivity | constructor]|].
  rewrite <- Er. destruct (strip raw_text); [split; [left; reflexivity | constructor]|].
  split; [right; reflexivity|].
  apply Forall_map, Forall_forall. intros blk Hin. exists blk.
  destruct (clean_normalized_shape (normalize_NFKC (remove_char NUL (text blk))))
    as (_ & Hh & Hr & _).
  fold (clean_text (text blk)) in Hh, Hr.
  split; [exact Hin|]. split; [exact (block_label_like _ _ Hin)|].
  split; [reflexivity|]. split; [reflexivity|]. split; [reflexivity|].
  split; [apply clean_text_no_nul|]. split.
  - destruct (clean_text (text blk)); [reflexivity | exact Hh].
  - destruct (rev (clean_text (text blk))); [reflexivity | exact Hr].
Qed.

(** * Inherited markers *)

Lemma nearest_tag_from_some : forall marks t idx,
  nearest_tag_from (Some t) idx marks <> None.
Proof.
  induction marks as [|[p tag] marks IH]; intros t idx; simpl; [discriminate|].
  destruct (p <=? idx); [apply IH | discriminate].
Qed.

Lemma nearest_tag_later : forall marks idx idx',
  idx <= idx' -> nearest_tag idx marks <> None -> nearest_tag idx' marks <> None.
Proof.
  intros marks idx idx' Hle H. unfold nearest_tag in *.
  destruct marks as [|[p tag] marks]; [exact H|]. simpl in *.
  destruct (Nat.leb_spec p idx) as [Hp|Hp]; [|contradiction].
  destruct (Nat.leb_spec p idx') as [_|Hp']; [apply nearest_tag_from_some | lia].
Qed.

Lemma increasing_from_app : forall l1 m1 l2 m2 l3 lo,
  increasing_from lo (l1 ++ m1 :: l2 ++ m2 :: l3) -> m_start m1 < m_start m2.
Proof.
  induction l1 as [|m l1 IH]; intros m1 l2 m2 l3 lo H.
  - simpl in H. destruct H as [_ H]. apply increasing_from_all in H.
    rewrite Forall_forall in H. apply (H m2). apply in_or_app. right. left. reflexivity.
  - simpl in H. destruct H as [_ H]. exact (IH _ _ _ _ _ H).
Qed.

Lemma with_ends_firsts : forall ms len, map fst (with_ends ms len) = ms.
Proof.
  induction ms as [|m ms IH]; intro len; [reflexivity|].
  cbn [with_ends map fst]. rewrite IH. reflexivity.
Qed.

(** X16: a marker is inherited by all the blocks after it.  When a block has
    a book, a chapter or a section, every later block of the text has one
    too: a block's marker is null only when no marker of the family stands at
    or before it.  (A later chapter does not take the section away: each
    family is looked up by itself.) *)
Theorem X16_markers_are_inherited : forall full_text l1 b1 l2 b2 l3,
  detect_structure full_text = l1 ++ b1 :: l2 ++ b2 :: l3 ->
  (buku b1 <> None -> buku b2 <> None) /\
  (bab b1 <> None -> bab b2 <> None) /\
  (bagian b1 <> None -> bagian b2 <> None).
Proof.
  intros full_text l1 b1 l2 b2 l3 E. unfold detect_structure in E.
  apply map_eq_app in E. destruct E as (L1 & R1 & E & _ & E1).
  apply map_eq_cons in E1. destruct E1 as (e1 & R2 & -> & <- & E2).
  apply map_eq_app in E2. destruct E2 as (L2 & R3 & -> & _ & E3).
  apply map_eq_cons in E3. destruct E3 as (e2 & L3 & -> & <- & _).
  pose proof (scan_increasing PASAL_ANY_RE full_text None 0 0) as Hi.
  fold (finditer PASAL_ANY_RE full_text) in Hi.
  rewrite <- (with_ends_firsts (finditer PASAL_ANY_RE full_text) (length full_text)) in Hi.
  rewrite E in Hi. rewrite map_app in Hi. cbn [map] in Hi. rewrite map_app in Hi.
  cbn [map] in Hi. apply increasing_from_app in Hi.
  destruct e1 as [m1 s1], e2 as [m2 s2]. cbn [fst] in Hi.
  cbn [block_of buku bab bagian].
  repeat split; apply nearest_tag_later; lia.
Qed.

(** A text with a chapter and two articles. *)
Definition two_articles : str := py "BAB I\nPasal 1\nsatu\nPasal 2\ndua".

Definition no_block : ArticleBlock := mkBlock [] [] None None None.

Lemma X16_markers_are_inherited_witness :
  detect_structure two_articles
  = [] ++ nth 0 (detect_structure two_articles) no_block
       :: [] ++ nth 1 (detect_structure two_articles) no_block :: [] /\
  bab (nth 0 (detect_structure two_articles) no_block) <> None /\
  bab (nth 1 (detect_structure two_articles) no_block) <> None.
Proof.
  assert (E : detect_structure two_articles
              = [] ++ nth 0 (detect_structure two_articles) no_block
                   :: [] ++ nth 1 (detect_structure two_articles) no_block :: [])
    by (vm_compute; reflexivity).
  assert (H : bab (nth 0 (detect_structure two_articles) no_block) <> None)
    by (vm_compute; discriminate).
  split; [exact E|]. split; [exact H|].
  exact (proj1 (proj2 (X16_markers_are_inherited two_articles _ _ _ _ _ E)) H).
Defined.

(** * Headers at the top of a page

    [_extract_with_pypdf] joins the texts of the pages with a line feed, so
    the first line of every page after the first begins a line of the text. *)

Lemma join_middle : forall (sep : str) before page after,
  before <> [] ->
  join sep (before ++ page :: after)
  = join sep before ++ sep ++ page
    ++ match after with [] => [] | _ :: _ => sep ++ join sep after end.
Proof.
  intros sep before page after Hne. induction before as [|b before IH]; [contradiction|].
  destruct before as [|b' before].
  - cbn [app]. destruct after as [|a after].
    + cbn [join]. rewrite app_nil_r. reflexivity.
    + change (join sep (b :: page :: a :: after))
        with (b ++ sep ++ page ++ sep ++ join sep (a :: after)).
      reflexivity.
  - change (join sep ((b :: b' :: before) ++ page :: after))
      with (b ++ sep ++ join sep ((b' :: before) ++ page :: after)).
    rewrite IH by discriminate.
    change (join sep (b :: b' :: before)) with (b ++ sep ++ join sep (b' :: before)).
    repeat rewrite <- app_assoc. reflexivity.
Qed.

Lemma header_here_extend : forall pv s tail,
  header_here pv s -> at_eol tail = true -> header_here pv (s ++ tail).
Proof.
  intros pv s tail (Hb & w1 & kw & w2 & lab & w3 & rest & E & H1 & Hk & H2 & Hne & Hl & H3 & He)
         Ht.
  split; [exact Hb|]. exists w1, kw, w2, lab, w3, (rest ++ tail).
  split; [rewrite E; list_assoc|]. repeat split; auto.
  destruct rest; [exact Ht | exact He].
Qed.

(** X17: a page after the first whose text begins with an article header
    gives a header in the text of the document, at the offset where the page
    begins, whatever the page before it ends with. *)
Theorem X17_header_at_the_top_of_a_page : forall (w : World) pdf_path before page after,
  pypdf_pages w pdf_path = Ok (before ++ page :: after) ->
  before <> [] ->
  header_here None (remove_char CR (or_empty page)) ->
  exists t,
    _extract_with_pypdf w pdf_path = Ok t /\
    header_at t (length (join [LF] (map (fun p => remove_char CR (or_empty p)) before)) + 1).
Proof.
  intros w pdf_path before page after Hp Hne Hh.
  unfold _extract_with_pypdf. rewrite Hp. eexists. split; [reflexivity|].
  rewrite map_app. cbn [map].
  rewrite join_middle by (destruct before; [contradiction | discriminate]).
  set (pre := join [LF] (map (fun p => remove_char CR (or_empty p)) before)).
  set (pg := remove_char CR (or_empty page)) in *.
  set (tail := match map (fun p => remove_char CR (or_empty p)) after with
               | [] => []
               | _ :: _ => [LF] ++ join [LF] (map (fun p => remove_char CR (or_empty p)) after)
               end).
  replace (pre ++ [LF] ++ pg ++ tail) with ((pre ++ [LF]) ++ pg ++ tail) by list_assoc.
  replace (length pre + 1) with (length (pre ++ [LF])) by (rewrite length_app; reflexivity).
  apply header_at_split, header_here_match. rewrite prev_after_last.
  apply header_here_extend.
  - destruct Hh as (_ & Hh). split; [reflexivity | exact Hh].
  - unfold tail. destruct (map (fun p => remove_char CR (or_empty p)) after); reflexivity.
Qed.

(** A document of two pages: the second page begins with a header. *)
Definition two_pages : World :=
  mkWorld (fun _ => true) (fun p => p)
          (fun _ => Ok [Some (py "Pasal 1\nsatu"); Some (py "Pasal 2\ndua")])
          (fun _ => Raise (py "no pdfminer")).

Lemma X17_header_at_the_top_of_a_page_witness :
  exists t,
    _extract_with_pypdf two_pages (py "a.pdf") = Ok t /\
    header_at t (length (join [LF] (map (fun p => remove_char CR (or_empty p))
                                        [Some (py "Pasal 1\nsatu")])) + 1).
Proof.
  apply (X17_header_at_the_top_of_a_page two_pages (py "a.pdf")
           [Some (py "Pasal 1\nsatu")] (Some (py "Pasal 2\ndua")) []).
  - reflexivity.
  - discriminate.
  - split; [reflexivity|].
    exists [], (py "Pasal"), (py " "), (py "2"), [], (py "\ndua").
    split; [reflexivity|]. split; [reflexivity|].
    split; [repeat constructor|]. split; [reflexivity|]. split; [discriminate|].
    split; [|split; reflexivity].
    left. exists (py "2"), []. split; [reflexivity|]. split; [discriminate|].
    split; [reflexivity|]. split; [reflexivity|]. simpl. lia.
Defined.

(** * The marker of a block, line by line *)

(** The lines of a text with the offsets that [detect_structure] gives
    them. *)
Definition numbered_lines (full_text : str) : list (nat * str) :=
  combine (line_starts_from 0 (splitlines full_text)) (splitlines full_text).

Lemma marks_of_combine : forall re kind lines starts,
  marks_of re kind starts lines
  = flat_map (fun pl => mark_of re kind (fst pl) (snd pl)) (combine starts lines).
Proof.
  induction lines as [|ln lines IH]; intros [|st starts]; try reflexivity.
  cbn [marks_of combine flat_map fst snd]. rewrite IH. reflexivity.
Qed.

Lemma Forall2_combine : forall (X Y : Type) (P : X -> Y -> Prop) l1 l2,
  Forall2 P l1 l2 -> Forall (fun xy => P (fst xy) (snd xy)) (combine l1 l2).
Proof.
  intros X Y P l1 l2 H. induction H as [|x y l1 l2 Hxy H IH]; [constructor|].
  cbn [combine]. constructor; [exact Hxy | exact IH].
Qed.

Lemma numbered_lines_real : forall full_text,
  ~ In CR full_text ->
  Forall (fun pl => line_at full_text (fst pl) (snd pl)) (numbered_lines full_text).
Proof.
  intros full_text Hcr. unfold numbered_lines.
  pose proof (Forall2_combine _ _ _ _ _ (line_starts_are_offsets full_text 0 Hcr)) as H.
  eapply Forall_impl; [|exact H].
  intros [p ln] [_ Hl]. cbn [fst snd] in *. rewrite Nat.sub_0_r in Hl. exact Hl.
Qed.

Section MarkerChoice.
Variable keyword : string.
Variable label : char -> bool.
Variable kind : string.
Hypothesis keyword_head : forall kw,
  ci_text (py keyword) kw -> exists k kt, kw = k :: kt /\ isspace k = false.
Hypothesis label_nospace : forall c, label c = true -> isspace c = false.

(** [r] is the tag of the last line of the family's shape that begins at or
    before [start], and [None] when there is no such line. *)
Definition last_marker_line (full_text : str) (start : nat) (r : option Tag) : Prop :=
  match r with
  | Some tag =>
      exists p ln lab after,
        In (p, ln) (numbered_lines full_text) /\ p <= start /\
        marker_shape keyword label ln lab after /\
        tag = mkTag kind lab (strip after) /\
        (forall p' ln' lab' after',
           In (p', ln') (numbered_lines full_text) -> p' <= start ->
           marker_shape keyword label ln' lab' after' -> p' <= p)
  | None =>
      forall p' ln' lab' after',
        In (p', ln') (numbered_lines full_text) ->
        marker_shape keyword label ln' lab' after' -> start < p'
  end.

Lemma family_marks_in : forall full_text p tag,
  In (p, tag) (marks_of (marker_re keyword label) kind
                        (line_starts_from 0 (splitlines full_text)) (splitlines full_text))
  <-> exists ln lab after,
        In (p, ln) (numbered_lines full_text) /\ marker_shape keyword label ln lab after /\
        tag = mkTag kind lab (strip after).
Proof.
  intros full_text p tag. rewrite marks_of_combine. fold (numbered_lines full_text).
  rewrite in_flat_map. split.
  - intros ([p0 ln] & Hin & Hm). cbn [fst snd] in Hm.
    assert (Hlf : ~ In LF ln).
    { apply (line_no_lf full_text). exact (in_combine_r _ _ _ _ Hin). }
    destruct (mark_of_inv keyword label keyword_head label_nospace kind p0 ln p tag Hlf Hm)
      as (-> & lab & after & Hs & ->).
    exists ln, lab, after. auto.
  - intros (ln & lab & after & Hin & Hs & ->). exists (p, ln). split; [exact Hin|].
    cbn [fst snd].
    assert (Hlf : ~ In LF ln).
    { apply (line_no_lf full_text). exact (in_combine_r _ _ _ _ Hin). }
    rewrite (mark_of_shape keyword label keyword_head label_nospace kind p ln lab after Hlf Hs).
    left. reflexivity.
Qed.

Lemma nearest_marker_line : forall full_text start,
  last_marker_line full_text start
    (nearest_tag start
       (marks_of (marker_re keyword label) kind
                 (line_starts_from 0 (splitlines full_text)) (splitlines full_text))).
Proof.
  intros full_text start.
  pose proof (nearest_tag_spec
                (marks_of (marker_re keyword label) kind
                          (line_starts_from 0 (splitlines full_text)) (splitlines full_text))
                start (marks_of_ascending _ _ _ 0)) as H.
  destruct (nearest_tag start _) as [tag|]; cbn [last_at_or_before last_marker_line] in *.
  - destruct H as (p & Hin & Hp & Hmax).
    apply family_marks_in in Hin. destruct Hin as (ln & lab & after & Hin & Hs & ->).
    exists p, ln, lab, after. repeat split; auto.
    intros p' ln' lab' after' Hin' Hp' Hs'.
    apply (Hmax p' (mkTag kind lab' (strip after'))); [|exact Hp'].
    apply family_marks_in. exists ln', lab', after'. auto.
  - intros p' ln' lab' after' Hin' Hs'.
    apply (H p' (mkTag kind lab' (strip after'))).
    apply family_marks_in. exists ln', lab', after'. auto.
Qed.
End MarkerChoice.

(** X18: the book, the chapter and the section of a block, read from the
    lines of the text.  Each is the tag (label and stripped title) of the
    last line of the family's shape whose recorded offset is at or before
    the start of the block, and null when no such line is there.  In a text
    without carriage return the recorded offsets are the offsets of the
    lines in the text. *)
Theorem X18_marker_of_a_block : forall full_text,
  Forall2 (fun blk se =>
             last_marker_line "BUKU" is_roman "BUKU" full_text (fst se) (buku blk) /\
             last_marker_line "BAB" is_roman "BAB" full_text (fst se) (bab blk) /\
             last_marker_line "Bagian" is_digit_or_roman "BAGIAN" full_text (fst se)
                              (bagian blk))
          (detect_structure full_text) (block_spans full_text) /\
  (~ In CR full_text ->
   Forall (fun pl => line_at full_text (fst pl) (snd pl)) (numbered_lines full_text)).
Proof.
  intro full_text. split; [|apply numbered_lines_real].
  unfold detect_structure, block_spans.
  induction (with_ends (finditer PASAL_ANY_RE full_text) (length full_text))
    as [|[m stop] l IH]; cbn [map]; constructor; [|exact IH].
  cbn [block_of buku bab bagian fst snd].
  unfold buku_marks, bab_marks, bagian_marks, BUKU_RE, BAB_RE, BAGIAN_RE.
  split; [|split]; apply nearest_marker_line;
    try exact roman_nospace; try exact digit_or_roman_nospace; intros kw H.
  - apply (wordy_head (tl (py "BUKU")) (hd 0%N (py "BUKU")) kw); [reflexivity | exact H].
  - apply (wordy_head (tl (py "BAB")) (hd 0%N (py "BAB")) kw); [reflexivity | exact H].
  - apply (wordy_head (tl (py "Bagian")) (hd 0%N (py "Bagian")) kw); [reflexivity | exact H].
Qed.

(** ** Reading a record back

    A reader of the text that [json.dumps] writes for a record.  Like
    [read_string] it is not part of the program: it shows that a line of the
    output file determines the record that was written. *)

Definition is_digit (c : char) : bool := in_range 48 57 c.

Definition digit_cons (c : char) (d : Decimal.uint) : Decimal.uint :=
  match (c - 48)%N with
  | 0%N => Decimal.D0 d
  | 1%N => Decimal.D1 d
  | 2%N => Decimal.D2 d
  | 3%N => Decimal.D3 d
  | 4%N => Decimal.D4 d
  | 5%N => Decimal.D5 d
  | 6%N => Decimal.D6 d
  | 7%N => Decimal.D7 d
  | 8%N => Decimal.D8 d
  | _ => Decimal.D9 d
  end.

Fixpoint read_digits (s : str) : Decimal.uint * str :=
  match s with
  | [] => (Decimal.Nil, [])
  | c :: s' =>
      if is_digit c then let (d, rest) := read_digits s' in (digit_cons c d, rest)
      else (Decimal.Nil, s)
  end.

Definition read_value (s : str) : option (json * str) :=
  match s with
  | [] => None
  | c :: s' =>
      if N.eqb c 110 then
        match s' with
        | u :: l1 :: l2 :: rest =>
            if N.eqb u 117 && N.eqb l1 108 && N.eqb l2 108 then Some (JNull, rest)
            else None
        | _ => None
        end
      else if N.eqb c 34 then
        match read_string s' with
        | Some (t, rest) => Some (JStr t, rest)
        | None => None
        end
      else if N.eqb c 45 then
        let (d, rest) := read_digits s' in
        match Pos.of_uint d with
        | Npos p => Some (JInt (Zneg p), rest)
        | N0 => None
        end
      else if is_digit c then
        let (d, rest) := read_digits s in Some (JInt (Z.of_N (Pos.of_uint d)), rest)
      else None
  end.

(** The items of a dict, from after the opening brace of a dict that is not
    empty to its closing brace. *)
Fixpoint read_items (fuel : nat) (s : str) : option (list (str * json) * str) :=
  match fuel with
  | O => None
  | S fuel' =>
      match s with
      | [] => None
      | q :: s1 =>
          if N.eqb q 34 then
            match read_string s1 with
            | Some (k, c1 :: c2 :: s2) =>
                if N.eqb c1 58 && N.eqb c2 32 then
                  match read_value s2 with
                  | Some (v, e :: s4) =>
                      if N.eqb e 125 then Some ([(k, v)], s4)
                      else if N.eqb e 44 then
                        match s4 with
                        | sp :: s5 =>
                            if N.eqb sp 32 then
                              match read_items fuel' s5 with
                              | Some (items, rest) => Some ((k, v) :: items, rest)
                              | None => None
                              end
                            else None
                        | [] => None
                        end
                      else None
                  | _ => None
                  end
                else None
            | _ => None
            end
          else None
      end
  end.

Definition read_record (s : str) : option (list (str * json) * str) :=
  match s with
  | [] => None
  | b :: s' =>
      if N.eqb b 123 then
        match s' with
        | [] => None
        | e :: rest => if N.eqb e 125 then Some ([], rest) else read_items (length s') s'
        end
      else None
  end.

Lemma read_digits_uint : forall d rest,
  not_headed_by is_digit rest -> read_digits (uint_chars d ++ rest) = (d, rest).
Proof.
  induction d; intros rest H; cbn [uint_chars app read_digits];
    try (change (is_digit _) with true; cbv iota; rewrite (IHd rest H); reflexivity).
  destruct rest as [|x rest]; [reflexivity|]. simpl in H. cbn [read_digits]. rewrite H.
  reflexivity.
Qed.

Lemma uint_chars_head : forall d, d <> Decimal.Nil ->
  exists c t, uint_chars d = c :: t /\ is_digit c = true.
Proof.
  intros d H. destruct d; [contradiction| | | | | | | | | |];
    cbn [uint_chars]; eexists; eexists; split; reflexivity.
Qed.

Lemma to_uint_not_nil : forall p, Pos.to_uint p <> Decimal.Nil.
Proof.
  intros p F. pose proof (DecimalPos.Unsigned.of_to p) as H. rewrite F in H. discriminate H.
Qed.

Lemma read_value_written : forall v rest,
  not_headed_by is_digit rest -> read_value (json_value v ++ rest) = Some (v, rest).
Proof.
  intros [|t|z] rest H.
  - reflexivity.
  - cbn [json_value]. unfold json_string. cbn [app read_value N.eqb Pos.eqb].
    rewrite <- app_assoc. cbn [app]. rewrite read_escaped. reflexivity.
  - destruct z as [|p|p]; cbn [json_value int_repr].
    + change (read_value ([48%N] ++ rest))
        with (let (d, r) := read_digits (uint_chars (Decimal.D0 Decimal.Nil) ++ rest) in
              Some (JInt (Z.of_N (Pos.of_uint d)), r)).
      rewrite (read_digits_uint _ rest H). reflexivity.
    + destruct (uint_chars_head _ (to_uint_not_nil p)) as (c & t & E & Hc).
      pose proof (read_digits_uint (Pos.to_uint p) rest H) as Hr.
      rewrite E in Hr |- *. cbn [app] in Hr |- *. unfold read_value.
      unfold is_digit, in_range in Hc. apply andb_true_iff in Hc. destruct Hc as [H1 H2].
      apply N.leb_le in H1, H2.
      destruct (N.eqb_spec c 110) as [F|_]; [lia|].
      destruct (N.eqb_spec c 34) as [F|_]; [lia|].
      destruct (N.eqb_spec c 45) as [F|_]; [lia|].
      replace (is_digit c) with true
        by (symmetry; unfold is_digit, in_range; apply andb_true_iff; split; apply N.leb_le; lia).
      rewrite Hr, DecimalPos.Unsigned.of_to. reflexivity.
    + cbn [app read_value N.eqb Pos.eqb].
      rewrite (read_digits_uint (Pos.to_uint p) rest H), DecimalPos.Unsigned.of_to.
      reflexivity.
Qed.

(** A record as it is read back: the keys are texts. *)
Definition record_items (r : OutputRecord) : list (str * json) :=
  map (fun kv => (py (fst kv), snd kv)) r.

Lemma read_items_written : forall r kv fuel rest,
  length r < fuel ->
  read_items fuel (join (py ", ") (map json_item (kv :: r)) ++ py "}" ++ rest)
  = Some (record_items (kv :: r), rest).
Proof.
  induction r as [|kv' r IH]; intros [k v] fuel rest Hf;
    (destruct fuel as [|fuel]; [simpl in Hf; lia|]).
  - cbn [map join]. unfold json_item at 1. cbn [fst snd]. unfold json_string.
    change (py ": ") with [58%N; 32%N]. change (py "}") with [125%N].
    repeat rewrite <- app_assoc. cbn [app read_items N.eqb Pos.eqb].
    rewrite read_escaped. cbn [N.eqb Pos.eqb andb].
    rewrite read_value_written by reflexivity. reflexivity.
  - change (map json_item ((k, v) :: kv' :: r))
      with (json_item (k, v) :: map json_item (kv' :: r)).
    change (join (py ", ") (json_item (k, v) :: map json_item (kv' :: r)))
      with (json_item (k, v) ++ py ", " ++ join (py ", ") (map json_item (kv' :: r))).
    unfold json_item at 1. cbn [fst snd]. unfold json_string.
    change (py ": ") with [58%N; 32%N]. change (py ", ") with [44%N; 32%N].
    repeat rewrite <- app_assoc. cbn [app read_items N.eqb Pos.eqb].
    rewrite read_escaped. cbn [N.eqb Pos.eqb andb].
    rewrite read_value_written by reflexivity. cbn [N.eqb Pos.eqb].
    change [44%N; 32%N] with (py ", ").
    rewrite (IH kv' fuel rest) by (simpl in Hf; lia). reflexivity.
Qed.

Lemma join_items_head : forall kv r,
  exists t, join (py ", ") (map json_item (kv :: r)) = 34%N :: t /\ length r <= length t.
Proof.
  intros kv r. revert kv. induction r as [|kv' r IH]; intros [k v].
  - cbn [map join]. unfold json_item, json_string. cbn [app].
    eexists. split; [reflexivity | simpl; lia].
  - change (join (py ", ") (map json_item ((k, v) :: kv' :: r)))
      with (json_item (k, v) ++ py ", " ++ join (py ", ") (map json_item (kv' :: r))).
    destruct (IH kv') as (t & -> & Hl).
    unfold json_item, json_string. cbn [app].
    eexists. split; [reflexivity|]. repeat rewrite length_app. simpl.
    unfold char in *. lia.
Qed.

Lemma read_record_written : forall r rest,
  read_record (json_dumps r ++ rest) = Some (record_items r, rest).
Proof.
  intros [|kv r] rest; [reflexivity|].
  unfold json_dumps. change (py "{") with [123%N].
  repeat rewrite <- app_assoc. cbn [app read_record N.eqb Pos.eqb].
  destruct (join_items_head kv r) as (t & E & Hl).
  assert (E2 : join (py ", ") (map json_item (kv :: r)) ++ py "}" ++ rest
               = 34%N :: (t ++ py "}" ++ rest)) by (rewrite E; reflexivity).
  rewrite E2. cbn [N.eqb Pos.eqb]. rewrite <- E2.
  apply read_items_written. rewrite E2. simpl. rewrite length_app. lia.
Qed.

(** X19: a line of the output file determines the record that was written.
    Read back, the JSON text of a record gives the keys and the values of the
    record, in order, and stops at the closing brace; so records with
    different keys or values are never written as the same line, and the
    records of a file are read back from its lines. *)
Theorem X19_records_read_back : forall (records : list OutputRecord) (r : OutputRecord)
                                       (rest : str),
  read_record (json_dumps r ++ rest) = Some (record_items r, rest) /\
  (forall r', json_dumps r = json_dumps r' -> record_items r = record_items r') /\
  map read_record (file_lines (write_jsonl records []))
  = map (fun r => Some (record_items r, [])) records.
Proof.
  intros records r rest. split; [apply read_record_written|]. split.
  - intros r' E. pose proof (read_record_written r []) as H.
    rewrite app_nil_r, E in H. rewrite <- (app_nil_r (json_dumps r')) in H.
    rewrite read_record_written in H. injection H as H. symmetry. exact H.
  - rewrite file_lines_written, map_map. apply map_ext. intro r0.
    rewrite <- (app_nil_r (json_dumps r0)). apply read_record_written.
Qed.
